(** * Huffman compression (assignments/a2/starter/huffman.py)

    A shallow embedding of the compressor and decompressor, and the
    properties of its specification.

    Conventions of the embedding:
    - a Python [int] is a [Z]; a [bytes] object is a [list Z] whose elements
      the constructor [py_bytes] checks to lie in [0, 256);
    - a Python [str] is a [list ascii];
    - a [dict] is an association list in insertion order with unique keys;
    - a raised exception is the [Raise] branch of [result];
    - a reference that may be [None] is a [HuffmanNode] that may be [NoNode];
    - in-place updates of a tree return the updated tree; where the source
      keeps several references into one tree (the work list of
      [improve_tree]) a node is addressed by its path from the root. *)

From Stdlib Require Import ZArith List Lia Bool Ascii Permutation.
From Stdlib Require Import QArith Sorted.
From Stdlib Require String DecimalString Finite.
Import ListNotations.

Open Scope Z_scope.

(** ** Exceptions *)

Inductive exn : Type :=
| IndexError | KeyError | ValueError | TypeError
| ZeroDivisionError | OverflowError | RecursionError | AttributeError.

Inductive result (A : Type) : Type :=
| Ok (a : A)
| Raise (e : exn).
Arguments Ok {A} a.
Arguments Raise {A} e.

Definition bind {A B : Type} (c : result A) (k : A -> result B) : result B :=
  match c with
  | Ok a => k a
  | Raise e => Raise e
  end.

Declare Scope py_scope.
Delimit Scope py_scope with py.
Notation "x <- c ;; k" := (bind c (fun x => k))
  (at level 61, c at next level, right associativity) : py_scope.
Notation "' pat <- c ;; k" := (bind c (fun x => match x with pat => k end))
  (at level 61, pat pattern, c at next level, right associativity) : py_scope.
Open Scope py_scope.

(** [[f(x) for x in l]]: the calls are made in order, the first exception
    ends the comprehension. *)
Fixpoint mapM {A B : Type} (f : A -> result B) (l : list A) : result (list B) :=
  match l with
  | [] => Ok []
  | x :: l' => y <- f x ;; ys <- mapM f l' ;; Ok (y :: ys)
  end.

(** ** Python values *)

Definition str : Type := list ascii.

Definition is_byte (z : Z) : bool := (0 <=? z) && (z <? 256).

(** [bytes(lst)]: every element must be an int ([TypeError] for [None]) in
    [range(256)] ([ValueError]). *)
Definition byte_of (o : option Z) : result Z :=
  match o with
  | None => Raise TypeError
  | Some z => if is_byte z then Ok z else Raise ValueError
  end.

Definition py_bytes (lst : list (option Z)) : result (list Z) :=
  mapM byte_of lst.

Definition len {A : Type} (l : list A) : Z := Z.of_nat (length l).

(** [l[i]] for an int [i]: a negative index counts from the end. *)
Definition py_index {A : Type} (l : list A) (i : Z) : result A :=
  let j := if i <? 0 then i + len l else i in
  if j <? 0 then Raise IndexError
  else match nth_error l (Z.to_nat j) with
       | Some x => Ok x
       | None => Raise IndexError
       end.

(** [s[a:b]] for [0 <= a <= b]. *)
Definition slice {A : Type} (l : list A) (a b : nat) : list A :=
  firstn (b - a) (skipn a l).

(** [str(n)] of an int. *)
Definition str_of_int (n : Z) : str :=
  String.list_ascii_of_string (DecimalString.NilZero.string_of_int (Z.to_int n)).

(** [int(c)] of a one-character string: a decimal digit, else [ValueError]. *)
Definition int_of_char (c : ascii) : result Z :=
  let n := Z.of_nat (nat_of_ascii c) in
  if (48 <=? n) && (n <=? 57) then Ok (n - 48) else Raise ValueError.

(** ** Dictionaries *)

Class KeyEq (K : Type) : Type := keqb : K -> K -> bool.

Definition opt_eqb (x y : option Z) : bool :=
  match x, y with
  | Some a, Some b => a =? b
  | None, None => true
  | _, _ => false
  end.

Definition dict (K V : Type) : Type := list (K * V).

Section Dict.
Context {K V : Type} `{KeyEq K}.

(** [d.get(k)], [None] when [k not in d]. *)
Fixpoint dict_find (d : dict K V) (k : K) : option V :=
  match d with
  | [] => None
  | (k', v) :: d' => if keqb k k' then Some v else dict_find d' k
  end.

(** [d[k]]. *)
Definition dict_get (d : dict K V) (k : K) : result V :=
  match dict_find d k with
  | Some v => Ok v
  | None => Raise KeyError
  end.

(** [d[k] = v]: a present key keeps its place. *)
Fixpoint dict_set (d : dict K V) (k : K) (v : V) : dict K V :=
  match d with
  | [] => [(k, v)]
  | (k', v') :: d' =>
      if keqb k k' then (k', v) :: d' else (k', v') :: dict_set d' k v
  end.

Definition dict_keys (d : dict K V) : list K := map fst d.
End Dict.

(** ** Nodes *)

(** Modelled from the spec: class [HuffmanNode] of module [nodes], which
    huffman.py imports and which is not among the sources.  A node holds a
    symbol (absent on internal nodes), a left and a right child (each may be
    absent) and the number given to it by the postorder numbering.
    [NoNode] is Python's [None] where a node is expected. *)
Inductive HuffmanNode : Type :=
| NoNode
| Node (symbol : option Z) (left right : HuffmanNode) (number : option Z).

(** [HuffmanNode(symbol, left, right)]: a new node is not numbered. *)
Definition mkNode (symbol : option Z) (left right : HuffmanNode) : HuffmanNode :=
  Node symbol left right None.

Definition leaf (s : Z) : HuffmanNode := mkNode (Some s) NoNode NoNode.

(** Truth value of a reference: [None] is false, a node is true. *)
Definition truthy (t : HuffmanNode) : bool :=
  match t with
  | NoNode => false
  | Node _ _ _ _ => true
  end.

(** [t.is_leaf()]: neither child is present. *)
Definition is_leaf (t : HuffmanNode) : bool :=
  match t with
  | Node _ NoNode NoNode _ => true
  | _ => false
  end.

(** [a == b] on nodes compares symbols and children, not numbers. *)
Fixpoint node_eqb (a b : HuffmanNode) : bool :=
  match a, b with
  | NoNode, NoNode => true
  | Node s l r _, Node s' l' r' _ =>
      opt_eqb s s' && node_eqb l l' && node_eqb r r'
  | _, _ => false
  end.

(** Modelled from the spec: the order of two nodes.  The sort of huffman_tree
    compares [(frequency, node)] tuples; on equal frequencies no node is less
    than another, so that the stable sort keeps them in list order. *)
Definition node_lt (a b : HuffmanNode) : bool := false.

(** Modelled from the spec: class [ReadNode] of module [nodes], the
    four-field record of the serialized tree. *)
Record ReadNode : Type := mkReadNode {
  l_type : Z;
  l_data : Z;
  r_type : Z;
  r_data : Z
}.

(** ** Sorting *)

(** [list.sort()] is stable; on a strict weak order a stable sort is the
    insertion sort that puts an element before the first one not less than
    it. *)
Section Sort.
Context {A : Type} (lt : A -> A -> bool).

Fixpoint insort (x : A) (l : list A) : list A :=
  match l with
  | [] => [x]
  | y :: l' => if lt y x then y :: insort x l' else x :: l
  end.

Fixpoint py_sort (l : list A) : list A :=
  match l with
  | [] => []
  | x :: l' => insort x (py_sort l')
  end.
End Sort.

(** [<] on tuples of two ints. *)
Definition tuple_lt (a b : Z * Z) : bool :=
  (fst a <? fst b) || ((fst a =? fst b) && (snd a <? snd b)).

(** [<] on tuples of an int and a node: the second components are compared
    when the first are equal and the nodes differ. *)
Definition node_tuple_lt (a b : Z * HuffmanNode) : bool :=
  (fst a <? fst b)
  || ((fst a =? fst b) && negb (node_eqb (snd a) (snd b)) && node_lt (snd a) (snd b)).

(** ** Helper functions for manipulating bytes *)

Definition get_bit (byte bit_num : Z) : Z :=
  Z.shiftr (Z.land byte (Z.shiftl 1 bit_num)) bit_num.

Definition byte_to_bits (byte : Z) : str :=
  concat (map (fun bit_num => str_of_int (get_bit byte bit_num))
              [7; 6; 5; 4; 3; 2; 1; 0]).

(** [int(bits[pos]) << (7 - pos)] for each position; a shift by a negative
    count is a [ValueError]. *)
Fixpoint bits_to_byte_from (pos : Z) (bits : str) : result (list Z) :=
  match bits with
  | [] => Ok []
  | c :: bits' =>
      d <- int_of_char c ;;
      v <- (if 7 - pos <? 0 then Raise ValueError else Ok (Z.shiftl d (7 - pos))) ;;
      vs <- bits_to_byte_from (pos + 1) bits' ;;
      Ok (v :: vs)
  end.

Definition sum (l : list Z) : Z := fold_left Z.add l 0.

Definition bits_to_byte (bits : str) : result Z :=
  vs <- bits_to_byte_from 0 bits ;; Ok (sum vs).

(** ** Keys of dictionaries: ints, and symbols (an int or [None]) *)

#[export] Instance KeyEq_Z : KeyEq Z := Z.eqb.
#[export] Instance KeyEq_symbol : KeyEq (option Z) := opt_eqb.

(** A loop whose body may raise. *)
Fixpoint foldM {A B : Type} (f : B -> A -> result B) (l : list A) (acc : B)
  : result B :=
  match l with
  | [] => Ok acc
  | x :: l' => acc' <- f acc x ;; foldM f l' acc'
  end.

(** ** Functions for compression *)

Definition make_freq_dict (text : list Z) : dict Z Z :=
  fold_left
    (fun dic cha =>
       match dict_find dic cha with
       | None => dict_set dic cha 1
       | Some c => dict_set dic cha (c + 1)
       end)
    text [].

(** The [while len(node_list) > 1] loop of huffman_tree; [fuel] bounds the
    number of iterations. *)
Fixpoint huffman_loop (fuel : nat) (node_list : list (Z * HuffmanNode))
  : list (Z * HuffmanNode) :=
  match fuel with
  | O => node_list
  | S fuel' =>
      match node_list with
      | m1 :: m2 :: rest =>
          let new_node := mkNode None (snd m1) (snd m2) in
          huffman_loop fuel'
            (py_sort node_tuple_lt (rest ++ [(fst m1 + fst m2, new_node)]))
      | _ => node_list
      end
  end.

Definition huffman_tree (freq_dict : dict Z Z) : result HuffmanNode :=
  let item := freq_dict in
  let sort_lst := py_sort tuple_lt (map (fun i => (snd i, fst i)) item) in
  let node_list := map (fun i => (fst i, leaf (snd i))) sort_lst in
  if len node_list =? 1 then
    n0 <- py_index node_list 0 ;; Ok (mkNode None (snd n0) NoNode)
  else
    let node_list := huffman_loop (length node_list) node_list in
    n0 <- py_index node_list 0 ;; Ok (snd n0).

Fixpoint contains (node : HuffmanNode) (value : option Z) : bool :=
  match node with
  | NoNode => false
  | Node s l r _ => opt_eqb s value || contains l value || contains r value
  end.

Fixpoint get_path (t : HuffmanNode) (n : option Z) : str :=
  match t with
  | NoNode => [" "%char]
  | Node s l r _ =>
      if opt_eqb s n then []
      else if contains l n then "0"%char :: get_path l n
      else "1"%char :: get_path r n
  end.

Definition gather_lists {A : Type} (list_ : list (list A)) : list A :=
  fold_left (fun new_list l => new_list ++ l) list_ [].

Fixpoint get_leaf (t : HuffmanNode) : list (option Z) :=
  match t with
  | NoNode => []
  | Node s l r _ =>
      if is_leaf t then [s]
      else gather_lists (if truthy r then [get_leaf r] else [])
           ++ gather_lists (if truthy l then [get_leaf l] else [])
  end.

Definition get_codes (tree : HuffmanNode) : dict (option Z) str :=
  let all_leaf := get_leaf tree in
  fold_left (fun dic a => dict_set dic a (get_path tree a)) all_leaf [].

Fixpoint number_internal (tree : HuffmanNode) (n : Z) : HuffmanNode * Z :=
  match tree with
  | NoNode => (NoNode, n)
  | Node s l r num =>
      if negb (is_leaf tree) then
        let (l', n1) := number_internal l n in
        let (r', n2) := number_internal r n1 in
        (Node s l' r' (Some n2), n2 + 1)
      else (tree, n)
  end.

Definition number_nodes (tree : HuffmanNode) : HuffmanNode :=
  fst (number_internal tree 0).

(** [freq_dict[key]] for a symbol [key]; [None] is not a key of a frequency
    dictionary. *)
Definition freq_get (freq_dict : dict Z Z) (key : option Z) : result Z :=
  match key with
  | Some k => dict_get freq_dict k
  | None => Raise KeyError
  end.

(** The quotient of two ints by [/] is a float in the source; it is kept
    here as the exact rational. *)
Definition avg_length (tree : HuffmanNode) (freq_dict : dict Z Z) : result Q :=
  let cod_dic := get_codes tree in
  '(lst, i) <-
    foldM (fun '(lst, i) key =>
             c <- dict_get cod_dic key ;;
             f <- freq_get freq_dict key ;;
             Ok (lst ++ [len c * f], i + f))
          (dict_keys cod_dic) ([], 0) ;;
  if i =? 0 then Raise ZeroDivisionError
  else Ok (inject_Z (sum lst) / inject_Z i)%Q.

Definition generate_compressed (text : list Z) (codes : dict (option Z) str)
  : result (list Z) :=
  r <- foldM (fun r i => c <- dict_get codes (Some i) ;; Ok (r ++ c)) text [] ;;
  let reman := len r mod 8 in
  let r := r ++ repeat "0"%char (Z.to_nat (8 - reman)) in
  let num := len r / 8 in
  l <- mapM (fun i => bits_to_byte (slice r (8 * i) (8 * i + 8)))
            (seq 0 (Z.to_nat num)) ;;
  py_bytes (map Some l).

(** The source returns [None] for an absent tree, which no caller can use as
    bytes. *)
Fixpoint tree_to_bytes (tree : HuffmanNode) : result (list Z) :=
  match tree with
  | NoNode => Raise TypeError
  | Node _ l r _ =>
      left_ <- (if truthy l then tree_to_bytes l else Ok []) ;;
      right_ <- (if truthy r then tree_to_bytes r else Ok []) ;;
      let lst :=
        match l with
        | NoNode => []
        | Node ls _ _ ln => if is_leaf l then [Some 0; ls] else [Some 1; ln]
        end
        ++
        match r with
        | NoNode => []
        | Node rs _ _ rn => if is_leaf r then [Some 0; rs] else [Some 1; rn]
        end in
      b <- py_bytes lst ;;
      Ok (left_ ++ right_ ++ b)
  end.

Definition num_nodes_to_bytes (tree : HuffmanNode) : result (list Z) :=
  match tree with
  | NoNode => Raise AttributeError
  | Node _ _ _ None => Raise TypeError
  | Node _ _ _ (Some number) => py_bytes [Some (number + 1)]
  end.

(** [size.to_bytes(4, "little")]. *)
Definition size_to_bytes (size : Z) : result (list Z) :=
  if (0 <=? size) && (size <? 2 ^ 32) then
    Ok [size mod 256; (size / 2 ^ 8) mod 256;
        (size / 2 ^ 16) mod 256; (size / 2 ^ 24) mod 256]
  else Raise OverflowError.

(** compress, from the contents of [in_file] to the contents written to
    [out_file]. *)
Definition compress (text : list Z) : result (list Z) :=
  let freq := make_freq_dict text in
  tree <- huffman_tree freq ;;
  let codes := get_codes tree in
  let tree := number_nodes tree in
  _ <- avg_length tree freq ;;
  n <- num_nodes_to_bytes tree ;;
  t <- tree_to_bytes tree ;;
  s <- size_to_bytes (len text) ;;
  c <- generate_compressed text codes ;;
  Ok (n ++ t ++ s ++ c).

(** ** Functions for decompression *)

(** The recursion of the two tree builders follows the indices found in the
    records, not the structure of a term; [depth] is the depth of recursion
    left before Python gives up with a [RecursionError]. *)
Fixpoint generate_tree_general (depth : nat) (node_lst : list ReadNode)
    (root_index : Z) : result HuffmanNode :=
  match depth with
  | O => Raise RecursionError
  | S depth' =>
      root <- py_index node_lst root_index ;;
      left_ <- (if l_type root =? 0 then Ok (mkNode (Some (l_data root)) NoNode NoNode)
                else if l_type root =? 1 then
                  generate_tree_general depth' node_lst (l_data root)
                else Ok NoNode) ;;
      right_ <- (if r_type root =? 0 then Ok (mkNode (Some (r_data root)) NoNode NoNode)
                 else if r_type root =? 1 then
                   generate_tree_general depth' node_lst (r_data root)
                 else Ok NoNode) ;;
      Ok (mkNode None left_ right_)
  end.

Fixpoint count_internal (n : HuffmanNode) : Z :=
  match n with
  | NoNode => 0
  | Node _ l r _ =>
      if negb (is_leaf n) then 1 + count_internal l + count_internal r else 0
  end.

Fixpoint generate_tree_postorder (depth : nat) (node_lst : list ReadNode)
    (root_index : Z) : result HuffmanNode :=
  match depth with
  | O => Raise RecursionError
  | S depth' =>
      root <- py_index node_lst root_index ;;
      right_ <- (if r_type root =? 0 then Ok (mkNode (Some (r_data root)) NoNode NoNode)
                 else if r_type root =? 1 then
                   generate_tree_postorder depth' node_lst (root_index - 1)
                 else Ok NoNode) ;;
      left_ <- (if l_type root =? 0 then Ok (mkNode (Some (l_data root)) NoNode NoNode)
                else if l_type root =? 1 then
                  generate_tree_postorder depth' node_lst
                    (root_index - count_internal right_ - 1)
                else Ok NoNode) ;;
      Ok (mkNode None left_ right_)
  end.

Definition node_left (t : HuffmanNode) : HuffmanNode :=
  match t with
  | NoNode => NoNode
  | Node _ l _ _ => l
  end.

Definition node_right (t : HuffmanNode) : HuffmanNode :=
  match t with
  | NoNode => NoNode
  | Node _ _ r _ => r
  end.

Definition node_symbol (t : HuffmanNode) : option Z :=
  match t with
  | NoNode => None
  | Node s _ _ _ => s
  end.

(** The [for num in s] loop of generate_uncompressed: [temp] is the walk
    pointer, [l] the symbols emitted so far.  The early return and the
    return after the loop both hand [l] to [bytes]. *)
Fixpoint uncompress_loop (tree : HuffmanNode) (size : Z) (s : str)
    (temp : HuffmanNode) (l : list (option Z)) : list (option Z) :=
  match s with
  | [] => l
  | num :: s' =>
      if truthy temp then
        let temp := if Ascii.eqb num "0" then node_left temp else temp in
        let temp := if Ascii.eqb num "1" then node_right temp else temp in
        if truthy temp && is_leaf temp then
          let l := l ++ [node_symbol temp] in
          if len l =? size then l
          else uncompress_loop tree size s' tree l
        else uncompress_loop tree size s' temp l
      else uncompress_loop tree size s' temp l
  end.

Definition generate_uncompressed (tree : HuffmanNode) (text : list Z) (size : Z)
  : result (list Z) :=
  let s := concat (map byte_to_bits text) in
  py_bytes (uncompress_loop tree size s tree []).

(** [range(0, n, 4)]. *)
Definition range4 (n : Z) : list Z :=
  map (fun k => 4 * Z.of_nat k) (seq 0 (Z.to_nat ((n + 3) / 4))).

Definition bytes_to_nodes (buf : list Z) : result (list ReadNode) :=
  mapM (fun i =>
          lt <- py_index buf i ;;
          ld <- py_index buf (i + 1) ;;
          rt <- py_index buf (i + 2) ;;
          rd <- py_index buf (i + 3) ;;
          Ok (mkReadNode lt ld rt rd))
       (range4 (len buf)).

(** [int.from_bytes(buf, "little")]. *)
Definition bytes_to_size (buf : list Z) : Z :=
  fold_right (fun b acc => b + 256 * acc) 0 buf.

(** [f.read(n)] on the rest of a file: the bytes read and the rest. *)
Definition read (n : Z) (f : list Z) : list Z * list Z :=
  (firstn (Z.to_nat n) f, skipn (Z.to_nat n) f).

(** uncompress, from the contents of [in_file] to the contents written to
    [out_file]. *)
Definition uncompress (depth : nat) (file : list Z) : result (list Z) :=
  let (b, f) := read 1 file in
  num_nodes <- py_index b 0 ;;
  let (buf, f) := read (num_nodes * 4) f in
  node_lst <- bytes_to_nodes buf ;;
  tree <- generate_tree_general depth node_lst (num_nodes - 1) ;;
  let (sz, f) := read 4 f in
  let size := bytes_to_size sz in
  let text := f in
  generate_uncompressed tree text size.

(** ** Other functions *)

(** A node of a tree, addressed from the root. *)
Inductive dir : Type := GoLeft | GoRight.

Fixpoint subtree (t : HuffmanNode) (p : list dir) {struct p} : HuffmanNode :=
  match p with
  | [] => t
  | d :: p' =>
      match t with
      | NoNode => NoNode
      | Node _ l r _ =>
          match d with
          | GoLeft => subtree l p'
          | GoRight => subtree r p'
          end
      end
  end.

(** [node.symbol = s] on the node at [p]. *)
Fixpoint set_symbol (t : HuffmanNode) (p : list dir) (s : option Z) : HuffmanNode :=
  match t with
  | NoNode => NoNode
  | Node s0 l r n =>
      match p with
      | [] => Node s l r n
      | GoLeft :: p' => Node s0 (set_symbol l p' s) r n
      | GoRight :: p' => Node s0 l (set_symbol r p' s) n
      end
  end.

Fixpoint node_count (t : HuffmanNode) : nat :=
  match t with
  | NoNode => O
  | Node _ l r _ => S (node_count l + node_count r)
  end.

(** The level-order loop of improve_tree: [lst_tree] is the work list,
    [fuel] bounds the number of iterations. *)
Fixpoint improve_loop (fuel : nat) (tree : HuffmanNode) (freq_lst : list (Z * Z))
    (lst_tree : list (list dir)) : result HuffmanNode :=
  match fuel with
  | O => Ok tree
  | S fuel' =>
      match lst_tree with
      | [] => Ok tree
      | p :: lst_tree =>
          match subtree tree p with
          | NoNode => Raise AttributeError
          | Node _ l r _ as next_tree =>
              let lst_tree :=
                lst_tree ++ (if truthy l then [p ++ [GoLeft]] else [])
                         ++ (if truthy r then [p ++ [GoRight]] else []) in
              if is_leaf next_tree then
                match freq_lst with
                | [] => Raise IndexError
                | _ :: _ =>
                    let symbol := last freq_lst (0, 0) in
                    improve_loop fuel' (set_symbol tree p (Some (snd symbol)))
                                 (removelast freq_lst) lst_tree
                end
              else improve_loop fuel' tree freq_lst lst_tree
          end
      end
  end.

Definition improve_tree (tree : HuffmanNode) (freq_dict : dict Z Z)
  : result HuffmanNode :=
  let freq_lst := py_sort tuple_lt (map (fun kv => (snd kv, fst kv)) freq_dict) in
  improve_loop (S (node_count tree)) tree freq_lst [[]].

(** * Vocabulary of the specification *)

Definition node_number (t : HuffmanNode) : option Z :=
  match t with
  | NoNode => None
  | Node _ _ _ n => n
  end.

(** A present node that is not a leaf. *)
Definition is_internal (t : HuffmanNode) : bool := truthy t && negb (is_leaf t).

(** The numbers of the internal nodes, in postorder. *)
Fixpoint internal_numbers (t : HuffmanNode) : list (option Z) :=
  match t with
  | NoNode => []
  | Node _ l r n =>
      if negb (is_leaf t) then internal_numbers l ++ internal_numbers r ++ [n]
      else []
  end.

(** The symbols that the walk of generate_uncompressed emits over all the
    bits [s], with no bound on their number. *)
Fixpoint decode_all (tree : HuffmanNode) (s : str) (temp : HuffmanNode)
  : list (option Z) :=
  match s with
  | [] => []
  | num :: s' =>
      if truthy temp then
        let temp := if Ascii.eqb num "0" then node_left temp else temp in
        let temp := if Ascii.eqb num "1" then node_right temp else temp in
        if truthy temp && is_leaf temp then
          node_symbol temp :: decode_all tree s' tree
        else decode_all tree s' temp
      else decode_all tree s' temp
  end.

(** The bits of a packed byte sequence. *)
Definition bits_of (text : list Z) : str := concat (map byte_to_bits text).

(** Trees as huffman_tree builds them from two symbols on: a leaf with its
    symbol, or an internal node with two children. *)
Inductive btree : Type :=
| BLeaf (s : Z)
| BNode (l r : btree).

Fixpoint embed (b : btree) : HuffmanNode :=
  match b with
  | BLeaf s => leaf s
  | BNode l r => mkNode None (embed l) (embed r)
  end.

Fixpoint bleaves (b : btree) : list Z :=
  match b with
  | BLeaf s => [s]
  | BNode l r => bleaves l ++ bleaves r
  end.

(** The comparison of two tuples by their first component. *)
Definition key_lt {A : Type} (a b : Z * A) : bool := fst a <? fst b.

(** The loop of huffman_tree over any kind of tree, with [mk] to join two
    trees. *)
Fixpoint merge_loop {A : Type} (mk : A -> A -> A) (fuel : nat) (l : list (Z * A))
  : list (Z * A) :=
  match fuel with
  | O => l
  | S fuel' =>
      match l with
      | m1 :: m2 :: rest =>
          merge_loop mk fuel'
            (py_sort key_lt (rest ++ [(fst m1 + fst m2, mk (snd m1) (snd m2))]))
      | _ => l
      end
  end.

(** The leaves of a forest. *)
Definition forest_leaves (F : list (Z * btree)) : list Z :=
  flat_map (fun x => bleaves (snd x)) F.

(** A tree whose leaves carry a symbol and whose internal nodes carry none;
    an internal node has one child or two. *)
Inductive wf_tree : HuffmanNode -> Prop :=
| wf_leaf (s : Z) (n : option Z) : wf_tree (Node (Some s) NoNode NoNode n)
| wf_both (l r : HuffmanNode) (n : option Z) :
    wf_tree l -> wf_tree r -> wf_tree (Node None l r n)
| wf_left (l : HuffmanNode) (n : option Z) :
    wf_tree l -> wf_tree (Node None l NoNode n)
| wf_right (r : HuffmanNode) (n : option Z) :
    wf_tree r -> wf_tree (Node None NoNode r n).

(** [q.startswith(p)]. *)
Fixpoint is_prefix (p q : str) : bool :=
  match p, q with
  | [], _ => true
  | _ :: _, [] => false
  | a :: p', b :: q' => Ascii.eqb a b && is_prefix p' q'
  end.

(** The [(frequency, symbol)] tuples of a frequency dictionary, sorted. *)
Definition sorted_items (freq_dict : dict Z Z) : list (Z * Z) :=
  py_sort tuple_lt (map (fun i => (snd i, fst i)) freq_dict).

(** The forest of leaves that huffman_tree starts from. *)
Definition leaf_forest (l : list (Z * Z)) : list (Z * btree) :=
  map (fun i => (fst i, BLeaf (snd i))) l.

(** The symbols of the leaves, in the order of get_leaf. *)
Fixpoint symbols (t : HuffmanNode) : list Z :=
  match t with
  | NoNode => []
  | Node s l r _ =>
      if is_leaf t then match s with Some z => [z] | None => [] end
      else symbols r ++ symbols l
  end.

Definition total (l : list Z) : Z := fold_right Z.add 0 l.

(** The frequency of a symbol, 0 for a symbol that is not a key. *)
Definition freq_of (freq_dict : dict Z Z) (s : Z) : Z :=
  match dict_find freq_dict s with
  | Some f => f
  | None => 0
  end.

(** The sum of the weights of the leaves. *)
Definition weight (w : Z -> Z) (t : HuffmanNode) : Z := total (map w (symbols t)).

(** The sum over the leaves of depth times weight. *)
Fixpoint cost (w : Z -> Z) (t : HuffmanNode) : Z :=
  match t with
  | NoNode => 0
  | Node _ l r _ =>
      if is_leaf t then 0 else cost w l + cost w r + weight w l + weight w r
  end.

Definition bweight (w : Z -> Z) (b : btree) : Z := total (map w (bleaves b)).

Fixpoint bcost (w : Z -> Z) (b : btree) : Z :=
  match b with
  | BLeaf _ => 0
  | BNode l r => bcost w l + bcost w r + bweight w l + bweight w r
  end.

Fixpoint bheight (b : btree) : Z :=
  match b with
  | BLeaf _ => 0
  | BNode l r => 1 + Z.max (bheight l) (bheight r)
  end.

(** The weight that is 1 on [a] and 0 elsewhere: the cost of a tree under
    it is the depth of the leaf [a]. *)
Definition indicator (a : Z) (s : Z) : Z := if s =? a then 1 else 0.

Definition bdepth (a : Z) (b : btree) : Z := bcost (indicator a) b.

(** The tree with its symbols renamed. *)
Fixpoint brelabel (f : Z -> Z) (b : btree) : btree :=
  match b with
  | BLeaf s => BLeaf (f s)
  | BNode l r => BNode (brelabel f l) (brelabel f r)
  end.

(** The exchange of two symbols. *)
Definition swap (a b : Z) (s : Z) : Z :=
  if s =? a then b else if s =? b then a else s.

(** The leaves of [a] and [b] are the two children of one node. *)
Inductive siblings (a b : Z) : btree -> Prop :=
| sib_here : siblings a b (BNode (BLeaf a) (BLeaf b))
| sib_mirror : siblings a b (BNode (BLeaf b) (BLeaf a))
| sib_left (l r : btree) : siblings a b l -> siblings a b (BNode l r)
| sib_right (l r : btree) : siblings a b r -> siblings a b (BNode l r).

(** The tree with the leaf of [a] replaced by a node over [a] and [b]. *)
Fixpoint split_leaf (a b : Z) (t : btree) : btree :=
  match t with
  | BLeaf s => if s =? a then BNode (BLeaf a) (BLeaf b) else BLeaf s
  | BNode l r => BNode (split_leaf a b l) (split_leaf a b r)
  end.

(** The weights after [a] and [b] have been joined under the name of [a]. *)
Definition joined (w : Z -> Z) (a b : Z) (s : Z) : Z :=
  if s =? a then w a + w b else w s.

(** The tree without its nodes of one child. *)
Fixpoint contract (t : HuffmanNode) : btree :=
  match t with
  | NoNode => BLeaf 0
  | Node s l r _ =>
      if is_leaf t then BLeaf (match s with Some z => z | None => 0 end)
      else if negb (truthy l) then contract r
      else if negb (truthy r) then contract l
      else BNode (contract l) (contract r)
  end.

(** A prefix tree for the alphabet of a frequency dictionary: each key is
    the symbol of one leaf, and its code has one bit at least (the root is
    not a leaf). *)
Definition valid_prefix_tree (freq_dict : dict Z Z) (t : HuffmanNode) : Prop :=
  wf_tree t /\ is_internal t = true /\ Permutation (symbols t) (dict_keys freq_dict).

(** The comparison of two symbols by their weights. *)
Definition weight_lt (w : Z -> Z) (s s' : Z) : bool := w s <? w s'.

(** The forest of the leaves of a list of symbols, each with its weight. *)
Definition leaf_items (w : Z -> Z) (syms : list Z) : list (Z * btree) :=
  map (fun s => (w s, BLeaf s)) syms.

(** Two trees of one shape: they differ in symbols and numbers only. *)
Fixpoint same_shape (t t' : HuffmanNode) : Prop :=
  match t, t' with
  | NoNode, NoNode => True
  | Node _ l r _, Node _ l' r' _ => same_shape l l' /\ same_shape r r'
  | _, _ => False
  end.

(** The paths from the root to the leaves. *)
Fixpoint leaf_paths (t : HuffmanNode) : list (list dir) :=
  match t with
  | NoNode => []
  | Node _ l r _ =>
      if is_leaf t then [[]]
      else map (cons GoLeft) (leaf_paths l) ++ map (cons GoRight) (leaf_paths r)
  end.

(** The symbol of the node at a path. *)
Definition sym_at (t : HuffmanNode) (p : list dir) : Z :=
  match node_symbol (subtree t p) with
  | Some z => z
  | None => 0
  end.

(** The leaves in the order in which the loop of improve_tree meets them,
    from the work list [queue] on. *)
Fixpoint bfs_order (fuel : nat) (t : HuffmanNode) (queue : list (list dir))
  : list (list dir) :=
  match fuel with
  | O => []
  | S fuel' =>
      match queue with
      | [] => []
      | p :: rest =>
          match subtree t p with
          | NoNode => []
          | Node _ l r _ as nd =>
              let queue' :=
                rest ++ (if truthy l then [p ++ [GoLeft]] else [])
                     ++ (if truthy r then [p ++ [GoRight]] else []) in
              if is_leaf nd then p :: bfs_order fuel' t queue'
              else bfs_order fuel' t queue'
          end
      end
  end.

(** The leaves at the paths [ps], in this order, take the symbols of
    [freq_lst] from its end. *)
Fixpoint assign (t : HuffmanNode) (ps : list (list dir)) (freq_lst : list (Z * Z))
  : HuffmanNode :=
  match ps with
  | [] => t
  | p :: ps' =>
      assign (set_symbol t p (Some (snd (last freq_lst (0, 0))))) ps'
             (removelast freq_lst)
  end.

(** The sum of the products of two lists, place by place. *)
Fixpoint dot (d g : list Z) : Z :=
  match d, g with
  | x :: d', y :: g' => x * y + dot d' g'
  | _, _ => 0
  end.

(** The leaves below the nodes of a work list. *)
Definition under (t : HuffmanNode) (queue : list (list dir)) : list (list dir) :=
  flat_map (fun p => map (app p) (leaf_paths (subtree t p))) queue.

(** The number of nodes below the nodes of a work list. *)
Definition pending (t : HuffmanNode) (queue : list (list dir)) : nat :=
  list_sum (map (fun p => node_count (subtree t p)) queue).

Definition lenle (p q : list dir) : Prop := (length p <= length q)%nat.

(** The number of internal nodes. *)
Fixpoint bcount (b : btree) : Z :=
  match b with
  | BLeaf _ => 0
  | BNode l r => 1 + bcount l + bcount r
  end.

(** The tree with its internal nodes numbered in postorder from [n]. *)
Fixpoint embed_num (b : btree) (n : Z) : HuffmanNode :=
  match b with
  | BLeaf s => leaf s
  | BNode l r =>
      Node None (embed_num l n) (embed_num r (n + bcount l))
           (Some (n + bcount l + bcount r))
  end.

(** The two fields of a record that refer to a child numbered from [n]. *)
Definition child_type (b : btree) : Z :=
  match b with
  | BLeaf _ => 0
  | BNode _ _ => 1
  end.

Definition child_data (b : btree) (n : Z) : Z :=
  match b with
  | BLeaf s => s
  | BNode l r => n + bcount l + bcount r
  end.

(** The records of a tree numbered from [n], in postorder. *)
Fixpoint records (b : btree) (n : Z) : list ReadNode :=
  match b with
  | BLeaf _ => []
  | BNode l r =>
      records l n ++ records r (n + bcount l)
      ++ [mkReadNode (child_type l) (child_data l n)
                     (child_type r) (child_data r (n + bcount l))]
  end.

Definition record_bytes (r : ReadNode) : list Z :=
  [l_type r; l_data r; r_type r; r_data r].

Definition flatten (recs : list ReadNode) : list Z := flat_map record_bytes recs.

(** A character of a code: '0' or '1'. *)
Definition is_bit (c : ascii) : bool := Ascii.eqb c "0" || Ascii.eqb c "1".

(** A text of 2^32 bytes, of two values. *)
Definition big_text : list Z := 1 :: 0 :: repeat 0 (Z.to_nat (2 ^ 32 - 2)).

(** [text.count(s)]. *)
Definition count (text : list Z) (s : Z) : Z :=
  Z.of_nat (count_occ Z.eq_dec text s).

(** The node that a code leads to from [t]: '0' goes to the left child and
    '1' to the right one, as in the walk of generate_uncompressed. *)
Fixpoint follow (t : HuffmanNode) (code : str) : HuffmanNode :=
  match code with
  | [] => t
  | c :: code' =>
      if Ascii.eqb c "0" then follow (node_left t) code'
      else if Ascii.eqb c "1" then follow (node_right t) code'
      else NoNode
  end.

(** * Properties *)

(** ** Postorder numbering *)

Lemma is_leaf_truthy (s : option Z) (l r : HuffmanNode) (num : option Z) :
  is_leaf (Node s l r num) = negb (truthy l) && negb (truthy r).
Proof. destruct l, r; reflexivity. Qed.

Lemma number_internal_node (s : option Z) (l r : HuffmanNode) (num : option Z) (n : Z) :
  number_internal (Node s l r num) n =
  if is_leaf (Node s l r num) then (Node s l r num, n)
  else let n1 := snd (number_internal l n) in
       let n2 := snd (number_internal r n1) in
       (Node s (fst (number_internal l n)) (fst (number_internal r n1)) (Some n2),
        n2 + 1).
Proof.
  cbn [number_internal]. destruct (is_leaf (Node s l r num)); [reflexivity|].
  cbn [negb]. destruct (number_internal l n) as [l' n1]. cbn [fst snd].
  destruct (number_internal r n1) as [r' n2]. reflexivity.
Qed.

Lemma truthy_number_internal (t : HuffmanNode) (n : Z) :
  truthy (fst (number_internal t n)) = truthy t.
Proof.
  destruct t as [|s l r num]; [reflexivity|].
  rewrite number_internal_node. now destruct (is_leaf _).
Qed.

Lemma is_leaf_number_internal (t : HuffmanNode) (n : Z) :
  is_leaf (fst (number_internal t n)) = is_leaf t.
Proof.
  destruct t as [|s l r num]; [reflexivity|].
  rewrite number_internal_node.
  destruct (is_leaf (Node s l r num)) eqn:E; [exact E|].
  cbn [fst]. rewrite is_leaf_truthy, !truthy_number_internal, <- (is_leaf_truthy s l r num).
  exact E.
Qed.

Lemma count_internal_node (s : option Z) (l r : HuffmanNode) (num : option Z) :
  count_internal (Node s l r num) =
  if is_leaf (Node s l r num) then 0 else 1 + count_internal l + count_internal r.
Proof. cbn [count_internal]. now destruct (is_leaf _). Qed.

Lemma count_internal_nonneg (t : HuffmanNode) : 0 <= count_internal t.
Proof.
  induction t as [|s l IHl r IHr num]; [reflexivity|].
  rewrite count_internal_node. destruct (is_leaf _); lia.
Qed.

Lemma number_internal_snd (t : HuffmanNode) (n : Z) :
  snd (number_internal t n) = n + count_internal t.
Proof.
  revert n. induction t as [|s l IHl r IHr num]; intro n.
  - cbn. lia.
  - rewrite number_internal_node, count_internal_node.
    destruct (is_leaf _); cbn [fst snd]; [lia|].
    rewrite IHr, IHl. lia.
Qed.

Lemma internal_numbers_node (s : option Z) (l r : HuffmanNode) (num : option Z) :
  internal_numbers (Node s l r num) =
  if is_leaf (Node s l r num) then []
  else internal_numbers l ++ internal_numbers r ++ [num].
Proof. cbn [internal_numbers]. now destruct (is_leaf _). Qed.

Lemma internal_numbers_range (t : HuffmanNode) (n : Z) :
  Forall (fun o => exists k, o = Some k /\ n <= k < n + count_internal t)
         (internal_numbers (fst (number_internal t n))).
Proof.
  revert n. induction t as [|s l IHl r IHr num]; intro n.
  - constructor.
  - rewrite number_internal_node, count_internal_node.
    destruct (is_leaf (Node s l r num)) eqn:E; cbn [fst].
    + rewrite internal_numbers_node, E. constructor.
    + rewrite internal_numbers_node.
      rewrite is_leaf_truthy, !truthy_number_internal, <- (is_leaf_truthy s l r num), E.
      pose proof (count_internal_nonneg l). pose proof (count_internal_nonneg r).
      rewrite !Forall_app. repeat split.
      * eapply Forall_impl; [|apply IHl].
        cbn beta. intros o [k [-> Hk]]. exists k. split; [reflexivity|lia].
      * eapply Forall_impl; [|apply IHr].
        cbn beta. intros o [k [-> Hk]]. exists k. split; [reflexivity|].
        rewrite number_internal_snd in Hk. lia.
      * constructor; [|constructor].
        exists (n + count_internal l + count_internal r).
        rewrite !number_internal_snd. split; [reflexivity|lia].
Qed.

(** C10.  For every tree whose root is an internal node, after number_nodes
    the root carries the highest number: its number is the count of internal
    nodes minus 1, and every internal node has a number between 0 and that
    one. *)
Theorem number_nodes_root_highest (tree : HuffmanNode) :
  is_internal tree = true ->
  node_number (number_nodes tree) = Some (count_internal tree - 1)
  /\ Forall (fun o => exists k, o = Some k /\ 0 <= k <= count_internal tree - 1)
            (internal_numbers (number_nodes tree)).
Proof.
  intro Hint. split.
  - destruct tree as [|s l r num]; [discriminate|].
    unfold is_internal in Hint. cbn [truthy andb] in Hint.
    unfold number_nodes. rewrite number_internal_node, count_internal_node.
    destruct (is_leaf (Node s l r num)); [discriminate|].
    cbn [fst node_number]. rewrite !number_internal_snd. f_equal. lia.
  - unfold number_nodes. eapply Forall_impl; [|apply internal_numbers_range].
    cbn beta. intros o [k [-> Hk]]. exists k. split; [reflexivity|lia].
Qed.

Lemma number_nodes_root_highest_witness :
  let tree := mkNode None (mkNode None (leaf 3) (leaf 2))
                          (mkNode None (leaf 9) (leaf 10)) in
  is_internal tree = true
  /\ node_number (number_nodes tree) = Some 2
  /\ count_internal tree = 3.
Proof.
  split; [reflexivity|]. split; [|reflexivity].
  exact (proj1 (number_nodes_root_highest
                  (mkNode None (mkNode None (leaf 3) (leaf 2))
                               (mkNode None (leaf 9) (leaf 10)))
                  eq_refl)).
Defined.

(** ** Decoding a bit stream that ends early *)

Lemma mapM_length {A B : Type} (f : A -> result B) (l : list A) (out : list B) :
  mapM f l = Ok out -> length out = length l.
Proof.
  revert out. induction l as [|x l IH]; intros out E; cbn in E.
  - now injection E as <-.
  - destruct (f x) as [y|]; [|discriminate]. cbn in E.
    destruct (mapM f l) as [ys|]; [|discriminate]. cbn in E.
    injection E as <-. cbn. f_equal. now apply IH.
Qed.

Lemma len_app {A : Type} (l1 l2 : list A) : len (l1 ++ l2) = len l1 + len l2.
Proof. unfold len. rewrite length_app. lia. Qed.

Lemma len_nonneg {A : Type} (l : list A) : 0 <= len l.
Proof. unfold len. lia. Qed.

Lemma uncompress_loop_decode_all (tree : HuffmanNode) (size : Z) (s : str) :
  forall (temp : HuffmanNode) (l : list (option Z)),
    len l < size ->
    uncompress_loop tree size s temp l =
    l ++ firstn (Z.to_nat (size - len l)) (decode_all tree s temp).
Proof.
  induction s as [|num s IH]; intros temp l Hl.
  - cbn. now rewrite firstn_nil, app_nil_r.
  - cbn [uncompress_loop decode_all].
    destruct (truthy temp); [|now apply IH].
    cbv zeta.
    set (temp2 := if Ascii.eqb num "1" then _ else _).
    destruct (truthy temp2 && is_leaf temp2); [|now apply IH].
    assert (Hl1 : len (l ++ [node_symbol temp2]) = len l + 1)
      by (rewrite len_app; reflexivity).
    replace (Z.to_nat (size - len l)) with (S (Z.to_nat (size - len l - 1))) by lia.
    cbn [firstn].
    destruct (len (l ++ [node_symbol temp2]) =? size) eqn:E.
    + apply Z.eqb_eq in E.
      replace (Z.to_nat (size - len l - 1)) with O by lia.
      reflexivity.
    + apply Z.eqb_neq in E. rewrite IH by lia.
      rewrite Hl1, <- app_assoc. cbn [app].
      replace (size - (len l + 1)) with (size - len l - 1) by lia. reflexivity.
Qed.

(** C7, as the code has it.  For a declared count of at least 1, decoding
    returns the first [size] symbols that the walk over all the bits emits.
    When the bits hold fewer symbols than declared, all of them are returned:
    the output is shorter than the declared count and no error reports the
    end of the stream. *)
Theorem generate_uncompressed_returns_prefix
    (tree : HuffmanNode) (text : list Z) (size : Z) :
  0 < size ->
  generate_uncompressed tree text size =
    py_bytes (firstn (Z.to_nat size) (decode_all tree (bits_of text) tree))
  /\ (len (decode_all tree (bits_of text) tree) < size ->
      generate_uncompressed tree text size =
        py_bytes (decode_all tree (bits_of text) tree)
      /\ forall out, generate_uncompressed tree text size = Ok out ->
                     len out < size).
Proof.
  intro Hsize.
  assert (E : generate_uncompressed tree text size =
              py_bytes (firstn (Z.to_nat size) (decode_all tree (bits_of text) tree))).
  { unfold generate_uncompressed. fold (bits_of text).
    rewrite uncompress_loop_decode_all by (cbn; lia).
    cbn [app]. do 2 f_equal. cbn. lia. }
  split; [exact E|]. intro Hshort.
  assert (F : firstn (Z.to_nat size) (decode_all tree (bits_of text) tree)
              = decode_all tree (bits_of text) tree).
  { apply firstn_all2. unfold len in Hshort. lia. }
  rewrite F in E. split; [exact E|].
  intros out Hout. rewrite E in Hout. apply mapM_length in Hout.
  unfold len in *. lia.
Qed.

Lemma generate_uncompressed_returns_prefix_witness :
  generate_uncompressed (mkNode None (leaf 3) (leaf 2)) [0] 9 =
  py_bytes (decode_all (mkNode None (leaf 3) (leaf 2)) (bits_of [0])
                       (mkNode None (leaf 3) (leaf 2))).
Proof.
  refine (proj1 (proj2 (generate_uncompressed_returns_prefix
                          (mkNode None (leaf 3) (leaf 2)) [0] 9 _) _)).
  - lia.
  - vm_compute. reflexivity.
Defined.

(** C7 as stated fails: one byte holds 8 symbols of the tree (3, 2); with 9
    symbols declared the function returns the 8 and raises nothing. *)
Lemma generate_uncompressed_short_output :
  generate_uncompressed (mkNode None (leaf 3) (leaf 2)) [0] 9
  = Ok [3; 3; 3; 3; 3; 3; 3; 3]
  /\ len [3; 3; 3; 3; 3; 3; 3; 3] < 9.
Proof. split; vm_compute; reflexivity. Qed.

(** ** The empty input *)

(** C5 as stated fails: compress does not succeed on the empty sequence. *)
Lemma compress_empty_no_output : ~ exists out, compress [] = Ok out.
Proof. intros [out E]. vm_compute in E. discriminate. Qed.

(** C5, as the code has it.  The empty byte sequence has the empty frequency
    dictionary, on which huffman_tree raises IndexError (it indexes the empty
    node list); compress raises that error and produces no output. *)
Theorem compress_empty_raises :
  make_freq_dict [] = []
  /\ huffman_tree [] = Raise IndexError
  /\ compress [] = Raise IndexError.
Proof. repeat split. Qed.

(** ** Padding of the packed bits *)

(** C6 fails on the code.  With the codes 0, 10 and 11 the text 1 2 1 0 0 has
    8 bits of code, one byte; generate_compressed appends 8 more '0' bits and
    returns two bytes.  The same happens for eight times the symbol of code
    0, and the empty text yields one byte. *)
Theorem generate_compressed_full_padding_byte :
  let d := [(Some 0, ["0"%char]); (Some 1, ["1"; "0"]%char);
            (Some 2, ["1"; "1"]%char)] in
  generate_compressed [1; 2; 1; 0; 0] d = Ok [184; 0]
  /\ generate_compressed [0; 0; 0; 0; 0; 0; 0; 0] d = Ok [0; 0]
  /\ generate_compressed [] d = Ok [0].
Proof. repeat split. Qed.

(** ** The alphabet of one symbol *)

(** C4 fails on the code.  The tree for the frequencies {42: 100} has the one
    leaf as left child of the root and gives 42 the code 0, of length 1.
    Its serialization is the two bytes 0 42 instead of a record of four, so
    uncompress takes the first two bytes of the size for the right half of
    the record and reads the size two bytes late: of 100 bytes 42, 88 come
    back. *)
Theorem single_symbol_round_trip_fails :
  huffman_tree [(42, 100)] = Ok (mkNode None (leaf 42) NoNode)
  /\ get_codes (mkNode None (leaf 42) NoNode) = [(Some 42, ["0"%char])]
  /\ make_freq_dict (repeat 42 100%nat) = [(42, 100)]
  /\ compress (repeat 42 100%nat)
     = Ok ([1; 0; 42; 100; 0; 0; 0] ++ repeat 0 13%nat)
  /\ uncompress 1000 ([1; 0; 42; 100; 0; 0; 0] ++ repeat 0 13%nat)
     = Ok (repeat 42 88%nat).
Proof. repeat split; vm_compute; reflexivity. Qed.

(** ** Serialization of a root with one child *)

(** C2 fails on the code.  The numbered tree of the one-symbol alphabet has
    one internal node; tree_to_bytes writes two bytes for it, and
    bytes_to_nodes, which reads four bytes per record, raises IndexError, so
    that neither reconstruction gets a record list. *)
Theorem one_child_tree_serialization_fails :
  let tree := number_nodes (mkNode None (leaf 42) NoNode) in
  node_number tree = Some 0
  /\ tree_to_bytes tree = Ok [0; 42]
  /\ bytes_to_nodes [0; 42] = Raise IndexError.
Proof. repeat split. Qed.

(** ** The stable sort *)

Section SortFacts.
Context {A : Type} (lt : A -> A -> bool).

Lemma insort_perm (x : A) (l : list A) : Permutation (insort lt x l) (x :: l).
Proof.
  induction l as [|y l IH]; cbn; [reflexivity|].
  destruct (lt y x); [|reflexivity].
  rewrite IH. apply perm_swap.
Qed.

Lemma py_sort_perm (l : list A) : Permutation (py_sort lt l) l.
Proof.
  induction l as [|x l IH]; cbn; [reflexivity|].
  rewrite insort_perm. now constructor.
Qed.

Lemma py_sort_length (l : list A) : length (py_sort lt l) = length l.
Proof. apply Permutation_length, py_sort_perm. Qed.

Lemma py_sort_ext (lt' : A -> A -> bool) (l : list A) :
  (forall a b, lt a b = lt' a b) -> py_sort lt l = py_sort lt' l.
Proof.
  intro E. induction l as [|x l IH]; cbn; [reflexivity|].
  rewrite IH. generalize (py_sort lt' l). intro m.
  induction m as [|y m IHm]; cbn; [reflexivity|].
  now rewrite E, IHm.
Qed.

Lemma py_sort_map {B : Type} (lt' : B -> B -> bool) (g : A -> B) (l : list A) :
  (forall a b, lt' (g a) (g b) = lt a b) ->
  py_sort lt' (map g l) = map g (py_sort lt l).
Proof.
  intro E. induction l as [|x l IH]; cbn; [reflexivity|].
  rewrite IH. generalize (py_sort lt l). intro m.
  induction m as [|y m IHm]; cbn; [reflexivity|].
  rewrite E. destruct (lt y x); cbn; [now rewrite IHm|reflexivity].
Qed.
End SortFacts.

Lemma node_tuple_lt_key (a b : Z * HuffmanNode) : node_tuple_lt a b = key_lt a b.
Proof.
  unfold node_tuple_lt, key_lt, node_lt.
  now rewrite andb_false_r, orb_false_r.
Qed.

(** ** The loop of huffman_tree *)

Lemma huffman_loop_merge (fuel : nat) (l : list (Z * HuffmanNode)) :
  huffman_loop fuel l = merge_loop (mkNode None) fuel l.
Proof.
  revert l. induction fuel as [|fuel IH]; intro l; [reflexivity|].
  cbn. destruct l as [|m1 [|m2 rest]]; try reflexivity.
  rewrite IH. f_equal. apply py_sort_ext, node_tuple_lt_key.
Qed.

(** The loop looks at the frequencies only: it commutes with a map of the
    trees that commutes with joining. *)
Lemma merge_loop_map {A B : Type} (mkA : A -> A -> A) (mkB : B -> B -> B)
    (h : A -> B) (fuel : nat) (l : list (Z * A)) :
  (forall a b, h (mkA a b) = mkB (h a) (h b)) ->
  merge_loop mkB fuel (map (fun x => (fst x, h (snd x))) l) =
  map (fun x => (fst x, h (snd x))) (merge_loop mkA fuel l).
Proof.
  intro Hh. revert l. induction fuel as [|fuel IH]; intro l; [reflexivity|].
  cbn. destruct l as [|m1 [|m2 rest]]; try reflexivity.
  cbn [map fst snd]. rewrite <- IH. f_equal.
  rewrite <- (py_sort_map key_lt key_lt) by reflexivity.
  f_equal. rewrite map_app. cbn. now rewrite Hh.
Qed.

Lemma merge_loop_length {A : Type} (mk : A -> A -> A) (fuel : nat) (l : list (Z * A)) :
  (1 <= length l <= S fuel)%nat -> length (merge_loop mk fuel l) = 1%nat.
Proof.
  revert l. induction fuel as [|fuel IH]; intros l Hl.
  - cbn. lia.
  - cbn. destruct l as [|m1 [|m2 rest]]; cbn in Hl; try lia; [reflexivity|].
    apply IH. rewrite py_sort_length, length_app. cbn. lia.
Qed.

Lemma forest_leaves_perm (F G : list (Z * btree)) :
  Permutation F G -> Permutation (forest_leaves F) (forest_leaves G).
Proof.
  unfold forest_leaves. intro P. now apply Permutation_flat_map.
Qed.

Lemma merge_loop_leaves (fuel : nat) (F : list (Z * btree)) :
  Permutation (forest_leaves (merge_loop BNode fuel F)) (forest_leaves F).
Proof.
  revert F. induction fuel as [|fuel IH]; intro F; [reflexivity|].
  cbn. destruct F as [|m1 [|m2 rest]]; try reflexivity.
  rewrite IH. rewrite (forest_leaves_perm _ _ (py_sort_perm _ _)).
  unfold forest_leaves. rewrite flat_map_app. cbn. rewrite app_nil_r.
  rewrite Permutation_app_comm, <- app_assoc. reflexivity.
Qed.

Lemma sorted_items_length (fd : dict Z Z) : length (sorted_items fd) = length fd.
Proof. unfold sorted_items. now rewrite py_sort_length, length_map. Qed.

Lemma sorted_items_keys (fd : dict Z Z) :
  Permutation (map snd (sorted_items fd)) (dict_keys fd).
Proof.
  unfold sorted_items, dict_keys.
  rewrite (Permutation_map snd (py_sort_perm tuple_lt _)).
  rewrite map_map. cbn. reflexivity.
Qed.

Lemma leaf_forest_leaves (l : list (Z * Z)) :
  forest_leaves (leaf_forest l) = map snd l.
Proof.
  induction l as [|x l IH]; [reflexivity|].
  cbn. now rewrite <- IH.
Qed.

Lemma huffman_tree_empty : huffman_tree [] = Raise IndexError.
Proof. reflexivity. Qed.

Lemma huffman_tree_single (k f : Z) :
  huffman_tree [(k, f)] = Ok (mkNode None (leaf k) NoNode).
Proof. reflexivity. Qed.

(** From two symbols on, huffman_tree returns the tree that the loop leaves
    as the only one of the forest. *)
Lemma huffman_tree_loop (fd : dict Z Z) :
  (2 <= length fd)%nat ->
  exists f b,
    merge_loop BNode (length fd) (leaf_forest (sorted_items fd)) = [(f, b)]
    /\ huffman_tree fd = Ok (embed b).
Proof.
  intro Hlen.
  assert (L : length (merge_loop BNode (length fd) (leaf_forest (sorted_items fd))) = 1%nat).
  { apply merge_loop_length. unfold leaf_forest.
    rewrite length_map, sorted_items_length. lia. }
  destruct (merge_loop BNode (length fd) (leaf_forest (sorted_items fd)))
    as [|[f b] [|? ?]] eqn:E; try discriminate.
  exists f, b. split; [reflexivity|].
  unfold huffman_tree. fold (sorted_items fd).
  set (nl := map (fun i => (fst i, leaf (snd i))) (sorted_items fd)).
  assert (Hnl : nl = map (fun x => (fst x, embed (snd x))) (leaf_forest (sorted_items fd))).
  { unfold nl, leaf_forest. rewrite map_map. reflexivity. }
  assert (Hlnl : length nl = length fd)
    by (unfold nl; now rewrite length_map, sorted_items_length).
  unfold len. rewrite Hlnl.
  destruct (Z.of_nat (length fd) =? 1) eqn:E1; [apply Z.eqb_eq in E1; lia|].
  rewrite huffman_loop_merge, Hnl.
  rewrite (merge_loop_map BNode (mkNode None) embed) by reflexivity.
  rewrite E. reflexivity.
Qed.

Lemma huffman_tree_loop_leaves (fd : dict Z Z) (f : Z) (b : btree) :
  merge_loop BNode (length fd) (leaf_forest (sorted_items fd)) = [(f, b)] ->
  Permutation (bleaves b) (dict_keys fd).
Proof.
  intro E.
  pose proof (merge_loop_leaves (length fd) (leaf_forest (sorted_items fd))) as P.
  rewrite E, leaf_forest_leaves in P. cbn in P. rewrite app_nil_r in P.
  rewrite P. apply sorted_items_keys.
Qed.

Lemma wf_embed (b : btree) : wf_tree (embed b).
Proof. induction b; cbn; now constructor. Qed.

(** huffman_tree returns a well-formed tree for every non-empty frequency
    dictionary. *)
Lemma huffman_tree_wf (fd : dict Z Z) :
  fd <> [] -> exists t, huffman_tree fd = Ok t /\ wf_tree t.
Proof.
  intro Hne. destruct fd as [|[k f] [|kv fd]]; [congruence| |].
  - exists (mkNode None (leaf k) NoNode). split; [reflexivity|].
    apply wf_left, wf_leaf.
  - destruct (huffman_tree_loop ((k, f) :: kv :: fd)) as [f' [b [_ E]]]; [cbn; lia|].
    exists (embed b). split; [exact E|apply wf_embed].
Qed.

(** ** Dictionaries *)

Lemma opt_eqb_eq (x y : option Z) : opt_eqb x y = true <-> x = y.
Proof.
  destruct x as [a|], y as [b|]; cbn; split; intro E;
    try discriminate; try reflexivity.
  - apply Z.eqb_eq in E. now subst.
  - injection E as ->. apply Z.eqb_refl.
Qed.

Lemma opt_eqb_refl (x : option Z) : opt_eqb x x = true.
Proof. now apply opt_eqb_eq. Qed.

Lemma opt_eqb_neq (x y : option Z) : opt_eqb x y = false <-> x <> y.
Proof.
  rewrite <- opt_eqb_eq. destruct (opt_eqb x y); split; congruence.
Qed.

Lemma keqb_Z_spec (x y : Z) : keqb x y = true <-> x = y.
Proof. apply Z.eqb_eq. Qed.

Lemma keqb_symbol_spec (x y : option Z) : keqb x y = true <-> x = y.
Proof. apply opt_eqb_eq. Qed.

Section DictFacts.
Context {K V : Type} `{KeyEq K}.
Hypothesis keqb_spec : forall x y : K, keqb x y = true <-> x = y.

Lemma keqb_refl (x : K) : keqb x x = true.
Proof. now apply keqb_spec. Qed.

Lemma keqb_false (x y : K) : x <> y -> keqb x y = false.
Proof.
  intro N. destruct (keqb x y) eqn:E; [|reflexivity].
  now apply keqb_spec in E.
Qed.

Lemma dict_find_In (d : dict K V) (k : K) (v : V) :
  dict_find d k = Some v -> In (k, v) d.
Proof.
  induction d as [|[k' v'] d IH]; cbn; [discriminate|].
  destruct (keqb k k') eqn:E.
  - apply keqb_spec in E. intros [= ->]. left. now subst.
  - intro F. right. now apply IH.
Qed.

Lemma dict_find_not_In (d : dict K V) (k : K) :
  ~ In k (dict_keys d) -> dict_find d k = None.
Proof.
  induction d as [|[k' v'] d IH]; cbn; [reflexivity|].
  intro N. rewrite keqb_false by (intro; subst; tauto).
  apply IH. tauto.
Qed.

Lemma dict_find_first (d : dict K V) (k : K) (v : V) :
  ~ In k (dict_keys d) -> forall d', dict_find (d ++ (k, v) :: d') k = Some v.
Proof.
  induction d as [|[k' v'] d IH]; cbn; intros N d'.
  - now rewrite keqb_refl.
  - rewrite keqb_false by (intro; subst; tauto). apply IH. tauto.
Qed.

Lemma dict_set_In (d : dict K V) (k k' : K) (v v' : V) :
  In (k', v') (dict_set d k v) -> (k' = k /\ v' = v) \/ In (k', v') d.
Proof.
  induction d as [|[k0 v0] d IH]; cbn.
  - intros [[= <- <-]|[]]. now left.
  - destruct (keqb k k0) eqn:E.
    + apply keqb_spec in E. subst k0. intros [[= <- <-]|I]; [now left|right; now right].
    + intros [I|I]; [right; now left|].
      destruct (IH I) as [?|?]; [now left|right; now right].
Qed.

Lemma dict_set_new (d : dict K V) (k : K) (v : V) :
  ~ In k (dict_keys d) -> dict_set d k v = d ++ [(k, v)].
Proof.
  induction d as [|[k0 v0] d IH]; cbn; [reflexivity|].
  intro N. rewrite keqb_false by (intro; subst; tauto).
  f_equal. apply IH. tauto.
Qed.

(** A dictionary filled key by key with the values of [f]. *)
Lemma fold_dict_set_In (f : K -> V) (l : list K) (d : dict K V) (k : K) (v : V) :
  In (k, v) (fold_left (fun dic a => dict_set dic a (f a)) l d) ->
  In (k, v) d \/ (In k l /\ v = f k).
Proof.
  revert d. induction l as [|a l IH]; cbn; intros d I; [now left|].
  destruct (IH _ I) as [I'|[I' E]].
  - destruct (dict_set_In _ _ _ _ _ I') as [[-> ->]|?]; [right; split; auto|now left].
  - right. split; auto.
Qed.

Lemma fold_dict_set_NoDup (f : K -> V) (l : list K) (d : dict K V) :
  NoDup (dict_keys d ++ l) ->
  fold_left (fun dic a => dict_set dic a (f a)) l d = d ++ map (fun a => (a, f a)) l.
Proof.
  revert d. induction l as [|a l IH]; cbn; intros d N.
  - now rewrite app_nil_r.
  - assert (Na : ~ In a (dict_keys d)).
    { apply NoDup_remove_2 in N. intro I. apply N, in_or_app. now left. }
    rewrite dict_set_new by exact Na.
    rewrite IH.
    + now rewrite <- app_assoc.
    + unfold dict_keys in *. rewrite map_app. cbn. rewrite <- app_assoc. exact N.
Qed.
End DictFacts.

(** ** Leaves and paths of well-formed trees *)

Lemma gather_lists_one {A : Type} (l : list A) : gather_lists [l] = l.
Proof. reflexivity. Qed.

Lemma wf_truthy (t : HuffmanNode) : wf_tree t -> truthy t = true.
Proof. now intros []. Qed.

Lemma get_leaf_both (l r : HuffmanNode) (n : option Z) :
  truthy l = true -> truthy r = true ->
  get_leaf (Node None l r n) = get_leaf r ++ get_leaf l.
Proof.
  intros Hl Hr. cbn [get_leaf]. rewrite is_leaf_truthy, Hl, Hr. reflexivity.
Qed.

Lemma get_leaf_left (l : HuffmanNode) (n : option Z) :
  truthy l = true -> get_leaf (Node None l NoNode n) = get_leaf l.
Proof.
  intros Hl. cbn [get_leaf]. rewrite is_leaf_truthy, Hl. reflexivity.
Qed.

Lemma get_leaf_right (r : HuffmanNode) (n : option Z) :
  truthy r = true -> get_leaf (Node None NoNode r n) = get_leaf r.
Proof.
  intros Hr. cbn [get_leaf]. rewrite is_leaf_truthy, Hr. cbn.
  unfold gather_lists. cbn. now rewrite app_nil_r.
Qed.

Lemma get_leaf_wf_some (t : HuffmanNode) (a : option Z) :
  wf_tree t -> In a (get_leaf t) -> exists s, a = Some s.
Proof.
  intro W. induction W as [s n|l r n Wl IHl Wr IHr|l n Wl IHl|r n Wr IHr].
  - intros [<-|[]]. now exists s.
  - rewrite get_leaf_both by now apply wf_truthy.
    intro I. apply in_app_or in I. tauto.
  - rewrite get_leaf_left by now apply wf_truthy. exact IHl.
  - rewrite get_leaf_right by now apply wf_truthy. exact IHr.
Qed.

Lemma contains_get_leaf (t : HuffmanNode) (s : Z) :
  wf_tree t -> contains t (Some s) = true <-> In (Some s) (get_leaf t).
Proof.
  intro W. induction W as [s0 n|l r n Wl IHl Wr IHr|l n Wl IHl|r n Wr IHr].
  - cbn. rewrite !orb_false_r, Z.eqb_eq. split.
    + intros ->. now left.
    + intros [[= ->]|[]]. reflexivity.
  - rewrite get_leaf_both by now apply wf_truthy.
    cbn. rewrite orb_true_iff, in_app_iff. tauto.
  - rewrite get_leaf_left by now apply wf_truthy.
    cbn. now rewrite orb_false_r.
  - rewrite get_leaf_right by now apply wf_truthy.
    cbn. exact IHr.
Qed.

Lemma contains_false_get_leaf (t : HuffmanNode) (s : Z) :
  wf_tree t -> contains t (Some s) = false -> ~ In (Some s) (get_leaf t).
Proof.
  intros W E I. apply (contains_get_leaf t s W) in I. congruence.
Qed.

(** The paths to two leaves of different symbols part at some node. *)
Lemma get_path_prefix_free (t : HuffmanNode) :
  wf_tree t ->
  forall s1 s2 : Z,
    In (Some s1) (get_leaf t) -> In (Some s2) (get_leaf t) -> s1 <> s2 ->
    is_prefix (get_path t (Some s1)) (get_path t (Some s2)) = false.
Proof.
  intro W. induction W as [s n|l r n Wl IHl Wr IHr|l n Wl IHl|r n Wr IHr];
    intros s1 s2 I1 I2 N.
  - destruct I1 as [[= ->]|[]], I2 as [[= ->]|[]]. congruence.
  - rewrite get_leaf_both in I1, I2 by now apply wf_truthy.
    apply in_app_or in I1, I2. cbn.
    destruct (contains l (Some s1)) eqn:C1, (contains l (Some s2)) eqn:C2; cbn;
      try reflexivity.
    + apply IHl; trivial; now apply contains_get_leaf.
    + apply contains_false_get_leaf in C1, C2; trivial. apply IHr; tauto.
  - rewrite get_leaf_left in I1, I2 by now apply wf_truthy.
    cbn. rewrite (proj2 (contains_get_leaf l s1 Wl) I1).
    rewrite (proj2 (contains_get_leaf l s2 Wl) I2). cbn. now apply IHl.
  - rewrite get_leaf_right in I1, I2 by now apply wf_truthy.
    cbn. now apply IHr.
Qed.

Lemma get_codes_find (t : HuffmanNode) (a : option Z) (c : str) :
  dict_find (get_codes t) a = Some c -> In a (get_leaf t) /\ c = get_path t a.
Proof.
  intro F. apply (dict_find_In keqb_symbol_spec) in F.
  unfold get_codes in F.
  apply (fold_dict_set_In keqb_symbol_spec) in F. destruct F as [[]|F]. exact F.
Qed.

(** C3.  For every non-empty frequency map, huffman_tree returns a tree, and
    in the code table that get_codes derives from it the code of a symbol is
    never a prefix of the code of another symbol. *)
Theorem huffman_codes_prefix_free (freq_dict : dict Z Z) :
  freq_dict <> [] ->
  exists tree,
    huffman_tree freq_dict = Ok tree
    /\ forall (s1 s2 : option Z) (c1 c2 : str),
         dict_find (get_codes tree) s1 = Some c1 ->
         dict_find (get_codes tree) s2 = Some c2 ->
         s1 <> s2 ->
         is_prefix c1 c2 = false.
Proof.
  intro Hne. destruct (huffman_tree_wf freq_dict Hne) as [t [E W]].
  exists t. split; [exact E|].
  intros s1 s2 c1 c2 F1 F2 N.
  apply get_codes_find in F1, F2. destruct F1 as [I1 ->], F2 as [I2 ->].
  destruct (get_leaf_wf_some t s1 W I1) as [z1 ->].
  destruct (get_leaf_wf_some t s2 W I2) as [z2 ->].
  apply get_path_prefix_free; trivial. congruence.
Qed.

Lemma huffman_codes_prefix_free_witness :
  exists tree,
    huffman_tree [(3, 2); (2, 7); (9, 1)] = Ok tree
    /\ forall (s1 s2 : option Z) (c1 c2 : str),
         dict_find (get_codes tree) s1 = Some c1 ->
         dict_find (get_codes tree) s2 = Some c2 ->
         s1 <> s2 ->
         is_prefix c1 c2 = false.
Proof.
  apply (huffman_codes_prefix_free [(3, 2); (2, 7); (9, 1)]).
  discriminate.
Defined.

(** ** The average length as cost over weight *)

Lemma fold_left_add (l : list Z) (acc : Z) :
  fold_left Z.add l acc = acc + total l.
Proof.
  revert acc. induction l as [|x l IH]; intro acc; cbn; [lia|].
  rewrite IH. unfold total. lia.
Qed.

Lemma sum_total (l : list Z) : sum l = total l.
Proof. unfold sum. now rewrite fold_left_add. Qed.

Lemma total_cons (x : Z) (l : list Z) : total (x :: l) = x + total l.
Proof. reflexivity. Qed.

Lemma total_app (l1 l2 : list Z) : total (l1 ++ l2) = total l1 + total l2.
Proof. unfold total. induction l1 as [|x l1 IH]; cbn; [reflexivity|]. rewrite IH. lia. Qed.

Lemma total_perm (l1 l2 : list Z) : Permutation l1 l2 -> total l1 = total l2.
Proof. unfold total. induction 1; cbn; lia. Qed.

Lemma symbols_node (s : option Z) (l r : HuffmanNode) (n : option Z) :
  is_leaf (Node s l r n) = false ->
  symbols (Node s l r n) = symbols r ++ symbols l.
Proof. intro E. cbn [symbols]. now rewrite E. Qed.

Lemma wf_is_leaf_both (l r : HuffmanNode) (n : option Z) :
  wf_tree l -> is_leaf (Node None l r n) = false.
Proof. intro W. rewrite is_leaf_truthy, (wf_truthy l W). reflexivity. Qed.

Lemma wf_is_leaf_right (l r : HuffmanNode) (n : option Z) :
  wf_tree r -> is_leaf (Node None l r n) = false.
Proof. intro W. rewrite is_leaf_truthy, (wf_truthy r W). apply andb_false_r. Qed.

Lemma get_leaf_symbols (t : HuffmanNode) :
  wf_tree t -> get_leaf t = map Some (symbols t).
Proof.
  intro W. induction W as [s n|l r n Wl IHl Wr IHr|l n Wl IHl|r n Wr IHr].
  - reflexivity.
  - rewrite get_leaf_both by now apply wf_truthy.
    rewrite symbols_node by now apply wf_is_leaf_both.
    now rewrite map_app, IHl, IHr.
  - rewrite get_leaf_left by now apply wf_truthy.
    rewrite symbols_node by now apply wf_is_leaf_both.
    cbn. exact IHl.
  - rewrite get_leaf_right by now apply wf_truthy.
    rewrite symbols_node by now apply wf_is_leaf_right.
    cbn. now rewrite app_nil_r.
Qed.

Lemma contains_symbols (t : HuffmanNode) (s : Z) :
  wf_tree t -> contains t (Some s) = true <-> In s (symbols t).
Proof.
  intro W. rewrite contains_get_leaf, get_leaf_symbols by exact W.
  rewrite in_map_iff. split.
  - intros [x [[= ->] I]]. exact I.
  - intro I. now exists s.
Qed.

Lemma contains_not_symbols (t : HuffmanNode) (s : Z) :
  wf_tree t -> ~ In s (symbols t) -> contains t (Some s) = false.
Proof.
  intros W N. destruct (contains t (Some s)) eqn:E; [|reflexivity].
  now apply contains_symbols in E.
Qed.

Lemma weight_node (w : Z -> Z) (s : option Z) (l r : HuffmanNode) (n : option Z) :
  is_leaf (Node s l r n) = false ->
  weight w (Node s l r n) = weight w l + weight w r.
Proof.
  intro E. unfold weight. rewrite symbols_node by exact E.
  rewrite map_app, total_app. lia.
Qed.

Lemma cost_node (w : Z -> Z) (s : option Z) (l r : HuffmanNode) (n : option Z) :
  is_leaf (Node s l r n) = false ->
  cost w (Node s l r n) = cost w l + cost w r + weight w l + weight w r.
Proof. intro E. cbn [cost]. now rewrite E. Qed.

Lemma total_map_ext {A : Type} (f g : A -> Z) (l : list A) :
  (forall x, In x l -> f x = g x) -> total (map f l) = total (map g l).
Proof.
  intro E. induction l as [|x l IH]; [reflexivity|].
  cbn [map]. rewrite !total_cons, E by now left.
  rewrite IH; [reflexivity|]. intros. apply E. now right.
Qed.

Lemma total_map_succ (d w : Z -> Z) (l : list Z) :
  total (map (fun s => (1 + d s) * w s) l) = total (map (fun s => d s * w s) l) + total (map w l).
Proof.
  induction l as [|x l IH]; [reflexivity|].
  cbn [map]. rewrite !total_cons, IH. lia.
Qed.

Lemma NoDup_app_disjoint {A : Type} (l1 l2 : list A) (a : A) :
  NoDup (l1 ++ l2) -> In a l1 -> ~ In a l2.
Proof.
  induction l1 as [|x l1 IH]; cbn; [tauto|].
  intros N [->|I] I2.
  - inversion N as [|? ? Nx _]. apply Nx, in_or_app. now right.
  - inversion N. now apply IH.
Qed.

Lemma len_cons {A : Type} (x : A) (l : list A) : len (x :: l) = 1 + len l.
Proof. unfold len. cbn [length]. lia. Qed.

(** The lengths of the paths, weighted, add up to the cost. *)
Lemma path_lengths_cost (w : Z -> Z) (t : HuffmanNode) :
  wf_tree t -> NoDup (symbols t) ->
  total (map (fun s => len (get_path t (Some s)) * w s) (symbols t)) = cost w t.
Proof.
  intro W. induction W as [s n|l r n Wl IHl Wr IHr|l n Wl IHl|r n Wr IHr]; intro N.
  - cbn. rewrite Z.eqb_refl. reflexivity.
  - rewrite symbols_node in * by now apply wf_is_leaf_both.
    rewrite cost_node by now apply wf_is_leaf_both.
    rewrite map_app, total_app.
    pose proof (NoDup_app_remove_l _ _ N) as Nl.
    pose proof (NoDup_app_remove_r _ _ N) as Nr.
    rewrite (total_map_ext _ (fun s => (1 + len (get_path r (Some s))) * w s) (symbols r)).
    2:{ intros s I. cbn [get_path opt_eqb contains].
        rewrite contains_not_symbols; trivial.
        - now rewrite len_cons.
        - now apply (NoDup_app_disjoint _ _ s N). }
    rewrite (total_map_ext _ (fun s => (1 + len (get_path l (Some s))) * w s) (symbols l)).
    2:{ intros s I. cbn [get_path opt_eqb contains].
        rewrite (proj2 (contains_symbols l s Wl) I). now rewrite len_cons. }
    rewrite !(total_map_succ (fun s => len (get_path _ (Some s)))).
    rewrite IHl, IHr by assumption. unfold weight. lia.
  - rewrite symbols_node in * by now apply wf_is_leaf_both.
    rewrite cost_node by now apply wf_is_leaf_both.
    cbn [symbols app] in *.
    rewrite (total_map_ext _ (fun s => (1 + len (get_path l (Some s))) * w s) (symbols l)).
    2:{ intros s I. cbn [get_path opt_eqb contains].
        rewrite (proj2 (contains_symbols l s Wl) I). now rewrite len_cons. }
    rewrite !(total_map_succ (fun s => len (get_path _ (Some s)))).
    rewrite IHl by assumption. unfold weight. cbn. lia.
  - rewrite symbols_node in * by now apply wf_is_leaf_right.
    rewrite cost_node by now apply wf_is_leaf_right.
    cbn [symbols] in *. rewrite app_nil_r in *.
    rewrite (total_map_ext _ (fun s => (1 + len (get_path r (Some s))) * w s) (symbols r)).
    2:{ intros s I. cbn [get_path opt_eqb contains]. now rewrite len_cons. }
    rewrite !(total_map_succ (fun s => len (get_path _ (Some s)))).
    rewrite IHr by assumption. unfold weight. cbn. lia.
Qed.

Section DictFacts2.
Context {K V : Type} `{KeyEq K}.
Hypothesis keqb_spec : forall x y : K, keqb x y = true <-> x = y.

Lemma dict_find_map (f : K -> V) (l : list K) (k : K) :
  In k l -> dict_find (map (fun a => (a, f a)) l) k = Some (f k).
Proof.
  induction l as [|a l IH]; cbn; [tauto|].
  intro I. destruct (keqb k a) eqn:E.
  - apply keqb_spec in E. now subst.
  - apply IH. destruct I as [->|I]; [|exact I].
    now rewrite (keqb_refl keqb_spec) in E.
Qed.

Lemma dict_find_key (d : dict K V) (k : K) :
  In k (dict_keys d) -> exists v, dict_find d k = Some v.
Proof.
  induction d as [|[k' v'] d IH]; cbn; [tauto|].
  intro I. destruct (keqb k k') eqn:E; [now exists v'|].
  apply IH. destruct I as [->|I]; [|exact I].
  now rewrite (keqb_refl keqb_spec) in E.
Qed.

Lemma dict_find_some_key (d : dict K V) (k : K) (v : V) :
  dict_find d k = Some v -> In k (dict_keys d).
Proof.
  intro F. apply (dict_find_In keqb_spec) in F.
  unfold dict_keys. apply in_map_iff. now exists (k, v).
Qed.
End DictFacts2.

Lemma dict_keys_map {K V : Type} (f : K -> V) (l : list K) :
  dict_keys (map (fun a => (a, f a)) l) = l.
Proof. unfold dict_keys. rewrite map_map. cbn. apply map_id. Qed.

Lemma NoDup_map_Some (l : list Z) : NoDup l -> NoDup (map Some l).
Proof.
  induction 1 as [|x l Nx N IH]; cbn; constructor; [|exact IH].
  rewrite in_map_iff. intros [y [[= ->] I]]. tauto.
Qed.

Lemma get_codes_wf (t : HuffmanNode) :
  wf_tree t -> NoDup (symbols t) ->
  get_codes t = map (fun a => (a, get_path t a)) (map Some (symbols t)).
Proof.
  intros W N. unfold get_codes. rewrite get_leaf_symbols by exact W.
  rewrite (fold_dict_set_NoDup keqb_symbol_spec); [reflexivity|].
  cbn. now apply NoDup_map_Some.
Qed.

Lemma freq_get_key (fd : dict Z Z) (s : Z) :
  In s (dict_keys fd) -> freq_get fd (Some s) = Ok (freq_of fd s).
Proof.
  intro I. destruct (dict_find_key keqb_Z_spec fd s I) as [f F].
  unfold freq_get, dict_get, freq_of. now rewrite F.
Qed.

Lemma freq_get_not_key (fd : dict Z Z) (s : Z) :
  ~ In s (dict_keys fd) -> freq_get fd (Some s) = Raise KeyError.
Proof.
  intro I. unfold freq_get, dict_get.
  now rewrite (dict_find_not_In keqb_Z_spec fd s I).
Qed.

(** The loop of avg_length over symbols that are keys of both dictionaries. *)
Lemma avg_length_loop (t : HuffmanNode) (fd : dict Z Z) (syms : list Z) :
  (forall s, In s syms -> In s (symbols t) /\ In s (dict_keys fd)) ->
  forall (lst : list Z) (i : Z),
    foldM (fun '(lst, i) key =>
             c <- dict_get (map (fun a => (a, get_path t a)) (map Some (symbols t))) key ;;
             f <- freq_get fd key ;;
             Ok (lst ++ [len c * f], i + f))
          (map Some syms) (lst, i)
    = Ok (lst ++ map (fun s => len (get_path t (Some s)) * freq_of fd s) syms,
          i + total (map (freq_of fd) syms)).
Proof.
  induction syms as [|s syms IH]; intros Hs lst i.
  - cbn. rewrite app_nil_r. do 2 f_equal. unfold total. cbn. lia.
  - cbn [map foldM].
    destruct (Hs s (or_introl eq_refl)) as [I1 I2].
    unfold dict_get at 1.
    rewrite (dict_find_map keqb_symbol_spec) by (apply in_map; exact I1).
    cbn [bind]. rewrite freq_get_key by exact I2. cbn [bind].
    rewrite IH by (intros; apply Hs; now right).
    rewrite <- app_assoc, total_cons. cbn [app]. do 2 f_equal. lia.
Qed.

(** avg_length is the cost over the weight. *)
Lemma avg_length_cost (t : HuffmanNode) (fd : dict Z Z) :
  wf_tree t -> NoDup (symbols t) ->
  (forall s, In s (symbols t) -> In s (dict_keys fd)) ->
  weight (freq_of fd) t <> 0 ->
  avg_length t fd
  = Ok (inject_Z (cost (freq_of fd) t) / inject_Z (weight (freq_of fd) t))%Q.
Proof.
  intros W N Hk Hw. unfold avg_length.
  rewrite get_codes_wf by assumption. rewrite dict_keys_map.
  rewrite avg_length_loop by (intros s I; split; [exact I|now apply Hk]).
  cbn [bind app]. rewrite Z.add_0_l. fold (weight (freq_of fd) t).
  destruct (weight (freq_of fd) t =? 0) eqn:E; [apply Z.eqb_eq in E; contradiction|].
  rewrite sum_total, path_lengths_cost by assumption. reflexivity.
Qed.

(** ** Cost of a tree: linear in the weights *)

Lemma bweight_node (w : Z -> Z) (l r : btree) :
  bweight w (BNode l r) = bweight w l + bweight w r.
Proof. unfold bweight. cbn. now rewrite map_app, total_app. Qed.

Lemma bweight_ext (w w' : Z -> Z) (b : btree) :
  (forall s, In s (bleaves b) -> w s = w' s) -> bweight w b = bweight w' b.
Proof. intro E. unfold bweight. now apply total_map_ext. Qed.

Lemma bcost_ext (w w' : Z -> Z) (b : btree) :
  (forall s, In s (bleaves b) -> w s = w' s) -> bcost w b = bcost w' b.
Proof.
  induction b as [s|l IHl r IHr]; intro E; [reflexivity|].
  cbn [bcost bleaves] in *.
  rewrite IHl, IHr, (bweight_ext w w' l), (bweight_ext w w' r);
    trivial; intros; apply E, in_or_app; tauto.
Qed.

Lemma total_map_linear {A : Type} (f g : A -> Z) (c : Z) (l : list A) :
  total (map (fun x => f x + c * g x) l) = total (map f l) + c * total (map g l).
Proof.
  induction l as [|x l IH]; [cbn; lia|].
  cbn [map]. rewrite !total_cons, IH. lia.
Qed.

Lemma bweight_linear (w1 w2 : Z -> Z) (c : Z) (b : btree) :
  bweight (fun s => w1 s + c * w2 s) b = bweight w1 b + c * bweight w2 b.
Proof. unfold bweight. apply total_map_linear. Qed.

Lemma bcost_linear (w1 w2 : Z -> Z) (c : Z) (b : btree) :
  bcost (fun s => w1 s + c * w2 s) b = bcost w1 b + c * bcost w2 b.
Proof.
  induction b as [s|l IHl r IHr]; [cbn; lia|].
  cbn [bcost]. rewrite IHl, IHr, !bweight_linear. lia.
Qed.

Lemma total_nonneg (l : list Z) : Forall (fun x => 0 <= x) l -> 0 <= total l.
Proof.
  induction 1 as [|x l Hx _ IH]; [reflexivity|]. rewrite total_cons. lia.
Qed.

Lemma bweight_nonneg (w : Z -> Z) (b : btree) :
  (forall s, In s (bleaves b) -> 0 <= w s) -> 0 <= bweight w b.
Proof.
  intro Hw. unfold bweight. apply total_nonneg, Forall_forall.
  intros x I. apply in_map_iff in I. destruct I as [s [<- I]]. now apply Hw.
Qed.

Lemma bcost_nonneg (w : Z -> Z) (b : btree) :
  (forall s, In s (bleaves b) -> 0 <= w s) -> 0 <= bcost w b.
Proof.
  induction b as [s|l IHl r IHr]; intro Hw; [reflexivity|].
  cbn [bcost bleaves] in *.
  assert (Hl : forall s, In s (bleaves l) -> 0 <= w s)
    by (intros; apply Hw, in_or_app; tauto).
  assert (Hr : forall s, In s (bleaves r) -> 0 <= w s)
    by (intros; apply Hw, in_or_app; tauto).
  pose proof (IHl Hl). pose proof (IHr Hr).
  pose proof (bweight_nonneg w l Hl). pose proof (bweight_nonneg w r Hr). lia.
Qed.

(** ** Renaming the symbols of a tree *)

Lemma bleaves_relabel (f : Z -> Z) (b : btree) :
  bleaves (brelabel f b) = map f (bleaves b).
Proof.
  induction b as [s|l IHl r IHr]; [reflexivity|].
  cbn. now rewrite map_app, IHl, IHr.
Qed.

Lemma bweight_relabel (w f : Z -> Z) (b : btree) :
  bweight w (brelabel f b) = bweight (fun s => w (f s)) b.
Proof. unfold bweight. now rewrite bleaves_relabel, map_map. Qed.

Lemma bcost_relabel (w f : Z -> Z) (b : btree) :
  bcost w (brelabel f b) = bcost (fun s => w (f s)) b.
Proof.
  induction b as [s|l IHl r IHr]; [reflexivity|].
  cbn [brelabel bcost]. now rewrite IHl, IHr, !bweight_relabel.
Qed.

Lemma bheight_relabel (f : Z -> Z) (b : btree) : bheight (brelabel f b) = bheight b.
Proof.
  induction b as [s|l IHl r IHr]; [reflexivity|].
  cbn. now rewrite IHl, IHr.
Qed.

Lemma siblings_relabel (f : Z -> Z) (a b : Z) (t : btree) :
  siblings a b t -> siblings (f a) (f b) (brelabel f t).
Proof. induction 1; cbn; now constructor. Qed.

Lemma siblings_In (a b : Z) (t : btree) :
  siblings a b t -> In a (bleaves t) /\ In b (bleaves t).
Proof.
  induction 1 as [| |l r _ [Ia Ib]|l r _ [Ia Ib]]; cbn; rewrite ?in_app_iff; tauto.
Qed.

Lemma swap_involutive (a b s : Z) : swap a b (swap a b s) = s.
Proof.
  unfold swap.
  destruct (s =? a) eqn:E1; [apply Z.eqb_eq in E1|apply Z.eqb_neq in E1].
  - subst. destruct (b =? a) eqn:E2; [apply Z.eqb_eq in E2; congruence|].
    now rewrite Z.eqb_refl.
  - destruct (s =? b) eqn:E2; [apply Z.eqb_eq in E2|apply Z.eqb_neq in E2].
    + subst. now rewrite Z.eqb_refl.
    + apply Z.eqb_neq in E1, E2. now rewrite E1, E2.
Qed.

Lemma swap_left (a b : Z) : swap a b a = b.
Proof. unfold swap. now rewrite Z.eqb_refl. Qed.

Lemma swap_right (a b : Z) : swap a b b = a.
Proof.
  unfold swap. rewrite Z.eqb_refl.
  destruct (b =? a) eqn:E; [apply Z.eqb_eq in E; congruence|reflexivity].
Qed.

Lemma swap_other (a b s : Z) : s <> a -> s <> b -> swap a b s = s.
Proof.
  intros Na Nb. unfold swap.
  apply Z.eqb_neq in Na, Nb. now rewrite Na, Nb.
Qed.

Lemma swap_same (a s : Z) : swap a a s = s.
Proof.
  unfold swap. destruct (s =? a) eqn:E; [apply Z.eqb_eq in E; congruence|reflexivity].
Qed.

Lemma swap_injective (a b s t : Z) : swap a b s = swap a b t -> s = t.
Proof.
  intro E. rewrite <- (swap_involutive a b s), E. apply swap_involutive.
Qed.

Lemma swap_In (a b s : Z) (l : list Z) :
  In a l -> In b l -> In s l -> In (swap a b s) l.
Proof.
  intros Ia Ib Is. unfold swap.
  destruct (s =? a); [exact Ib|]. destruct (s =? b); [exact Ia|exact Is].
Qed.

Lemma perm_map_swap (a b : Z) (l : list Z) :
  NoDup l -> In a l -> In b l -> Permutation (map (swap a b) l) l.
Proof.
  intros N Ia Ib. apply NoDup_Permutation; [|exact N|].
  - apply Finite.Injective_map_NoDup; [|exact N].
    intros x y. apply swap_injective.
  - intro x. rewrite in_map_iff. split.
    + intros [y [<- I]]. now apply swap_In.
    + intro I. exists (swap a b x). split; [apply swap_involutive|now apply swap_In].
Qed.

(** ** Depth of a leaf *)

Lemma indicator_same (a : Z) : indicator a a = 1.
Proof. unfold indicator. now rewrite Z.eqb_refl. Qed.

Lemma indicator_other (a s : Z) : s <> a -> indicator a s = 0.
Proof. intro N. unfold indicator. apply Z.eqb_neq in N. now rewrite N. Qed.

Lemma total_map_zero {A : Type} (f : A -> Z) (l : list A) :
  (forall x, In x l -> f x = 0) -> total (map f l) = 0.
Proof.
  intro E. induction l as [|x l IH]; [reflexivity|].
  cbn [map]. rewrite total_cons, E by now left.
  rewrite IH; [reflexivity|]. intros. apply E. now right.
Qed.

Lemma bweight_indicator_out (a : Z) (b : btree) :
  ~ In a (bleaves b) -> bweight (indicator a) b = 0.
Proof.
  intro N. unfold bweight. apply total_map_zero.
  intros s I. apply indicator_other. congruence.
Qed.

Lemma bweight_indicator_in (a : Z) (b : btree) :
  NoDup (bleaves b) -> In a (bleaves b) -> bweight (indicator a) b = 1.
Proof.
  unfold bweight. generalize (bleaves b). intro l.
  induction 1 as [|x l Nx N IH]; [intros []|].
  cbn [map]. rewrite total_cons. intros [->|I].
  - rewrite indicator_same, total_map_zero; [reflexivity|].
    intros s I. apply indicator_other. congruence.
  - rewrite indicator_other by congruence. now rewrite IH.
Qed.

Lemma bcost_indicator_out (a : Z) (b : btree) :
  ~ In a (bleaves b) -> bdepth a b = 0.
Proof.
  unfold bdepth. induction b as [s|l IHl r IHr]; intro N; [reflexivity|].
  cbn [bcost bleaves] in *. rewrite in_app_iff in N.
  rewrite IHl, IHr, !bweight_indicator_out by tauto. reflexivity.
Qed.

Lemma bdepth_left (a : Z) (l r : btree) :
  NoDup (bleaves (BNode l r)) -> In a (bleaves l) ->
  bdepth a (BNode l r) = bdepth a l + 1.
Proof.
  cbn [bleaves]. intros N I.
  pose proof (NoDup_app_disjoint _ _ a N I) as Nr.
  unfold bdepth. cbn [bcost].
  fold (bdepth a r). rewrite (bcost_indicator_out a r Nr).
  rewrite (bweight_indicator_out a r Nr).
  rewrite bweight_indicator_in; [unfold bdepth; lia| |exact I].
  now apply NoDup_app_remove_r in N.
Qed.

Lemma bdepth_right (a : Z) (l r : btree) :
  NoDup (bleaves (BNode l r)) -> In a (bleaves r) ->
  bdepth a (BNode l r) = bdepth a r + 1.
Proof.
  cbn [bleaves]. intros N I.
  assert (Nl : ~ In a (bleaves l)).
  { intro Il. exact (NoDup_app_disjoint _ _ a N Il I). }
  unfold bdepth. cbn [bcost].
  fold (bdepth a l). rewrite (bcost_indicator_out a l Nl).
  rewrite (bweight_indicator_out a l Nl).
  rewrite bweight_indicator_in; [unfold bdepth; lia| |exact I].
  now apply NoDup_app_remove_l in N.
Qed.

Lemma bheight_nonneg (b : btree) : 0 <= bheight b.
Proof. induction b; cbn [bheight]; lia. Qed.

Lemma bdepth_le_height (a : Z) (b : btree) :
  NoDup (bleaves b) -> bdepth a b <= bheight b.
Proof.
  induction b as [s|l IHl r IHr]; intro N; [cbn; lia|].
  pose proof (NoDup_app_remove_r _ _ N) as Nl.
  pose proof (NoDup_app_remove_l _ _ N) as Nr.
  specialize (IHl Nl). specialize (IHr Nr).
  pose proof (bheight_nonneg l). pose proof (bheight_nonneg r).
  destruct (in_dec Z.eq_dec a (bleaves l)) as [Il|Nl'].
  - rewrite bdepth_left by assumption. cbn [bheight]. lia.
  - destruct (in_dec Z.eq_dec a (bleaves r)) as [Ir|Nr'].
    + rewrite bdepth_right by assumption. cbn [bheight]. lia.
    + rewrite bcost_indicator_out; [cbn [bheight]; lia|].
      cbn [bleaves]. rewrite in_app_iff. tauto.
Qed.

(** Some two leaves at the greatest depth are siblings. *)
Lemma deepest_siblings (b : btree) :
  NoDup (bleaves b) -> (exists l r, b = BNode l r) ->
  exists x y, siblings x y b /\ bdepth x b = bheight b /\ bdepth y b = bheight b.
Proof.
  induction b as [s|l IHl r IHr]; intros N [l0 [r0 E]]; [discriminate|].
  clear l0 r0 E.
  pose proof (NoDup_app_remove_r _ _ N) as Nl.
  pose proof (NoDup_app_remove_l _ _ N) as Nr.
  pose proof (bheight_nonneg l) as Hl. pose proof (bheight_nonneg r) as Hr.
  assert (inl_case : (exists l1 l2, l = BNode l1 l2) -> bheight r <= bheight l ->
            exists x y, siblings x y (BNode l r) /\ bdepth x (BNode l r) = bheight (BNode l r)
                        /\ bdepth y (BNode l r) = bheight (BNode l r)).
  { intros El Hle. destruct (IHl Nl El) as [x [y [S [Dx Dy]]]].
    destruct (siblings_In _ _ _ S) as [Ix Iy].
    exists x, y. split; [now apply sib_left|].
    rewrite !bdepth_left by assumption. cbn [bheight]. lia. }
  assert (inr_case : (exists r1 r2, r = BNode r1 r2) -> bheight l <= bheight r ->
            exists x y, siblings x y (BNode l r) /\ bdepth x (BNode l r) = bheight (BNode l r)
                        /\ bdepth y (BNode l r) = bheight (BNode l r)).
  { intros Er Hle. destruct (IHr Nr Er) as [x [y [S [Dx Dy]]]].
    destruct (siblings_In _ _ _ S) as [Ix Iy].
    exists x, y. split; [now apply sib_right|].
    rewrite !bdepth_right by assumption. cbn [bheight]. lia. }
  destruct l as [x|l1 l2], r as [y|r1 r2].
  - exists x, y. split; [constructor|].
    assert (x <> y) by (cbn in N; inversion N; cbn in *; intuition congruence).
    unfold bdepth. cbn. unfold bweight. cbn.
    rewrite !indicator_same, !indicator_other by congruence. lia.
  - apply inr_case; [eauto|]. cbn [bheight] in *. lia.
  - apply inl_case; [eauto|]. cbn [bheight] in *. lia.
  - destruct (Z_le_gt_dec (bheight (BNode r1 r2)) (bheight (BNode l1 l2))).
    + apply inl_case; [eauto|assumption].
    + apply inr_case; [eauto|lia].
Qed.

Lemma bcost_swap (w : Z -> Z) (a b : Z) (u : btree) :
  a <> b ->
  bcost w (brelabel (swap a b) u)
  = bcost w u + (w b - w a) * (bdepth a u - bdepth b u).
Proof.
  intro N. rewrite bcost_relabel.
  rewrite (bcost_ext _ (fun s => (w s + (w b - w a) * indicator a s)
                                 + (w a - w b) * indicator b s)).
  - rewrite (bcost_linear (fun s => w s + (w b - w a) * indicator a s)).
    rewrite (bcost_linear w). unfold bdepth. lia.
  - intros s _. unfold swap, indicator.
    destruct (s =? a) eqn:E1; [apply Z.eqb_eq in E1|apply Z.eqb_neq in E1].
    + subst s. destruct (a =? b) eqn:E2; [apply Z.eqb_eq in E2; congruence|lia].
    + destruct (s =? b) eqn:E2; [apply Z.eqb_eq in E2; subst|]; lia.
Qed.

Lemma bdepth_swap (a b z : Z) (u : btree) :
  bdepth (swap a b z) (brelabel (swap a b) u) = bdepth z u.
Proof.
  unfold bdepth. rewrite bcost_relabel. apply bcost_ext.
  intros s _. unfold indicator.
  destruct (s =? z) eqn:E; [apply Z.eqb_eq in E|apply Z.eqb_neq in E].
  - subst. now rewrite Z.eqb_refl.
  - destruct (swap a b s =? swap a b z) eqn:E'; [|reflexivity].
    apply Z.eqb_eq, swap_injective in E'. contradiction.
Qed.

(** ** The two lightest symbols can be made siblings *)

Lemma siblings_neq (x y : Z) (t : btree) :
  siblings x y t -> NoDup (bleaves t) -> x <> y.
Proof.
  induction 1 as [| |l r S IH|l r S IH]; cbn [bleaves]; intro N.
  - cbn in N. inversion N as [|? ? Nx _]. cbn in Nx. intuition congruence.
  - cbn in N. inversion N as [|? ? Nx _]. cbn in Nx. intuition congruence.
  - apply IH. now apply NoDup_app_remove_r in N.
  - apply IH. now apply NoDup_app_remove_l in N.
Qed.

(** Exchanging a lighter, higher leaf with a heavier, deeper one does not
    raise the cost. *)
Lemma swap_cost_le (w : Z -> Z) (a b : Z) (u : btree) :
  w a <= w b -> bdepth a u <= bdepth b u ->
  bcost w (brelabel (swap a b) u) <= bcost w u.
Proof.
  intros Hw Hd. destruct (Z.eq_dec a b) as [->|N].
  - rewrite bcost_relabel, (bcost_ext _ w); [lia|].
    intros s _. now rewrite swap_same.
  - rewrite bcost_swap by exact N. nia.
Qed.

Lemma make_siblings (w : Z -> Z) (u : btree) (a1 a2 : Z) :
  NoDup (bleaves u) -> In a1 (bleaves u) -> In a2 (bleaves u) -> a1 <> a2 ->
  (forall s, In s (bleaves u) -> w a1 <= w s) ->
  (forall s, In s (bleaves u) -> s <> a1 -> w a2 <= w s) ->
  exists u', Permutation (bleaves u') (bleaves u)
             /\ siblings a1 a2 u' /\ bcost w u' <= bcost w u.
Proof.
  intros N I1 I2 Hne Hmin1 Hmin2.
  assert (Hnode : exists l r, u = BNode l r).
  { destruct u as [s|l r]; [|eauto]. cbn in I1, I2. intuition congruence. }
  destruct (deepest_siblings u N Hnode) as [x [y [S [Dx Dy]]]].
  destruct (siblings_In _ _ _ S) as [Ix Iy].
  pose proof (siblings_neq _ _ _ S N) as Hxy.
  (* first exchange: a1 takes the place of x *)
  set (u1 := brelabel (swap a1 x) u).
  assert (P1 : Permutation (bleaves u1) (bleaves u)).
  { unfold u1. rewrite bleaves_relabel. now apply perm_map_swap. }
  assert (N1 : NoDup (bleaves u1)).
  { eapply Permutation_NoDup; [symmetry; exact P1|exact N]. }
  assert (C1 : bcost w u1 <= bcost w u).
  { apply swap_cost_le; [now apply Hmin1|].
    rewrite Dx. now apply bdepth_le_height. }
  set (y1 := swap a1 x y).
  assert (S1 : siblings a1 y1 u1).
  { pose proof (siblings_relabel (swap a1 x) _ _ _ S) as S'.
    now rewrite swap_right in S'. }
  assert (Hy1 : y1 <> a1).
  { unfold y1. intro E. rewrite <- (swap_right a1 x) in E at 2.
    apply swap_injective in E. congruence. }
  assert (Dy1 : bdepth y1 u1 = bheight u1).
  { unfold y1, u1. now rewrite bdepth_swap, bheight_relabel. }
  destruct (siblings_In _ _ _ S1) as [_ Iy1].
  assert (I2' : In a2 (bleaves u1)).
  { eapply Permutation_in; [symmetry; exact P1|exact I2]. }
  (* second exchange: a2 takes the place of y1 *)
  exists (brelabel (swap a2 y1) u1). split; [|split].
  - rewrite bleaves_relabel.
    rewrite (perm_map_swap a2 y1 _ N1 I2' Iy1). exact P1.
  - pose proof (siblings_relabel (swap a2 y1) _ _ _ S1) as S'.
    rewrite swap_right in S'. rewrite swap_other in S'; congruence.
  - transitivity (bcost w u1); [|exact C1].
    apply swap_cost_le.
    + apply Hmin2; [|exact Hy1]. eapply Permutation_in; [exact P1|exact Iy1].
    + rewrite Dy1. now apply bdepth_le_height.
Qed.

(** ** Joining two sibling leaves, and splitting a leaf *)

Lemma joined_other (w : Z -> Z) (a b s : Z) : s <> a -> joined w a b s = w s.
Proof. intro N. unfold joined. apply Z.eqb_neq in N. now rewrite N. Qed.

Lemma joined_same (w : Z -> Z) (a b : Z) : joined w a b a = w a + w b.
Proof. unfold joined. now rewrite Z.eqb_refl. Qed.

Lemma bcost_joined_out (w : Z -> Z) (a b : Z) (t : btree) :
  ~ In a (bleaves t) ->
  bcost (joined w a b) t = bcost w t /\ bweight (joined w a b) t = bweight w t.
Proof.
  intro N. split; [apply bcost_ext|apply bweight_ext];
    intros s I; apply joined_other; congruence.
Qed.

Lemma bweight_leaf (w : Z -> Z) (s : Z) : bweight w (BLeaf s) = w s.
Proof. unfold bweight. cbn. lia. Qed.

Lemma merge_siblings (w : Z -> Z) (a b : Z) (u : btree) :
  siblings a b u -> NoDup (bleaves u) ->
  exists u', Permutation (b :: bleaves u') (bleaves u)
             /\ bcost w u = bcost (joined w a b) u' + w a + w b
             /\ bweight w u = bweight (joined w a b) u'.
Proof.
  induction 1 as [| |l r S IH|l r S IH]; intro N.
  - exists (BLeaf a). cbn [bleaves bcost app]. rewrite !bweight_leaf, joined_same.
    split; [apply perm_swap|split; [lia|]].
    rewrite bweight_node, !bweight_leaf. lia.
  - exists (BLeaf a). cbn [bleaves bcost app]. rewrite !bweight_leaf, joined_same.
    split; [reflexivity|split; [lia|]].
    rewrite bweight_node, !bweight_leaf. lia.
  - cbn [bleaves] in N.
    destruct (IH (NoDup_app_remove_r _ _ N)) as [l' [P [C W]]].
    destruct (siblings_In _ _ _ S) as [Ia _].
    destruct (bcost_joined_out w a b r (NoDup_app_disjoint _ _ a N Ia)) as [Cr Wr].
    exists (BNode l' r). cbn [bleaves bcost]. rewrite !bweight_node.
    split; [|split; lia].
    rewrite app_comm_cons. now apply Permutation_app_tail.
  - cbn [bleaves] in N.
    destruct (IH (NoDup_app_remove_l _ _ N)) as [r' [P [C W]]].
    destruct (siblings_In _ _ _ S) as [Ia _].
    assert (Nl : ~ In a (bleaves l)).
    { intro Il. exact (NoDup_app_disjoint _ _ a N Il Ia). }
    destruct (bcost_joined_out w a b l Nl) as [Cl Wl].
    exists (BNode l r'). cbn [bleaves bcost]. rewrite !bweight_node.
    split; [|split; lia].
    rewrite <- P. apply Permutation_middle.
Qed.

Lemma split_leaf_out (a b : Z) (t : btree) :
  ~ In a (bleaves t) -> split_leaf a b t = t.
Proof.
  induction t as [s|l IHl r IHr]; cbn [split_leaf bleaves]; intro N.
  - destruct (s =? a) eqn:E; [|reflexivity].
    apply Z.eqb_eq in E. cbn in N. tauto.
  - rewrite in_app_iff in N. rewrite IHl, IHr by tauto. reflexivity.
Qed.

Lemma split_leaf_cost (w : Z -> Z) (a b : Z) (t : btree) :
  NoDup (bleaves t) -> In a (bleaves t) ->
  bcost w (split_leaf a b t) = bcost (joined w a b) t + w a + w b
  /\ bweight w (split_leaf a b t) = bweight (joined w a b) t.
Proof.
  induction t as [s|l IHl r IHr]; intros N I.
  - destruct I as [->|[]]. cbn [split_leaf]. rewrite Z.eqb_refl.
    cbn [bcost]. rewrite bweight_node, !bweight_leaf, joined_same. lia.
  - cbn [bleaves] in N, I. cbn [split_leaf bcost]. rewrite !bweight_node.
    apply in_app_or in I. destruct I as [I|I].
    + destruct (IHl (NoDup_app_remove_r _ _ N) I) as [C W].
      pose proof (NoDup_app_disjoint _ _ a N I) as Nr.
      rewrite (split_leaf_out a b r Nr).
      destruct (bcost_joined_out w a b r Nr) as [Cr Wr]. lia.
    + destruct (IHr (NoDup_app_remove_l _ _ N) I) as [C W].
      assert (Nl : ~ In a (bleaves l)).
      { intro Il. exact (NoDup_app_disjoint _ _ a N Il I). }
      rewrite (split_leaf_out a b l Nl).
      destruct (bcost_joined_out w a b l Nl) as [Cl Wl]. lia.
Qed.

(** ** The sort sorts *)

Section SortSorted.
Context {A : Type} (lt : A -> A -> bool) (le : A -> A -> Prop).
Hypothesis lt_le : forall x y, lt y x = true -> le y x.
Hypothesis nlt_le : forall x y, lt y x = false -> le x y.
Hypothesis le_trans : forall x y z, le x y -> le y z -> le x z.

Lemma insort_sorted (x : A) (l : list A) :
  StronglySorted le l -> StronglySorted le (insort lt x l).
Proof.
  induction 1 as [|y l S IH F]; cbn.
  - constructor; constructor.
  - destruct (lt y x) eqn:E.
    + constructor; [exact IH|].
      eapply Permutation_Forall; [symmetry; apply insort_perm|].
      constructor; [now apply lt_le|exact F].
    + constructor; [now constructor|].
      constructor; [now apply nlt_le|].
      eapply Forall_impl; [|exact F]. intros z Hz.
      eapply le_trans; [apply nlt_le; exact E|exact Hz].
Qed.

Lemma py_sort_sorted (l : list A) : StronglySorted le (py_sort lt l).
Proof.
  induction l as [|x l IH]; cbn; [constructor|]. now apply insort_sorted.
Qed.
End SortSorted.

Lemma sorted_items_sorted (fd : dict Z Z) :
  StronglySorted (fun x y => fst x <= fst y) (sorted_items fd).
Proof.
  apply py_sort_sorted.
  - intros x y. unfold tuple_lt. lia.
  - intros x y. unfold tuple_lt. lia.
  - intros x y z. lia.
Qed.

Lemma weight_sorted (w : Z -> Z) (l : list Z) :
  StronglySorted (fun s s' => w s <= w s') (py_sort (weight_lt w) l).
Proof.
  apply py_sort_sorted; unfold weight_lt.
  - intros x y. lia.
  - intros x y. lia.
  - intros x y z. lia.
Qed.

(** ** The tree of the loop has the least cost *)

Lemma merge_loop_single {A : Type} (mk : A -> A -> A) (fuel : nat) (x : Z * A) :
  merge_loop mk fuel [x] = [x].
Proof. now destruct fuel. Qed.

Lemma leaf_items_leaves (w : Z -> Z) (syms : list Z) :
  forest_leaves (leaf_items w syms) = syms.
Proof.
  induction syms as [|s syms IH]; [reflexivity|].
  cbn. now rewrite <- IH at 2.
Qed.

Lemma leaf_items_split (w : Z -> Z) (a1 a2 : Z) (rest : list Z) :
  ~ In a1 rest ->
  leaf_items w rest ++ [(w a1 + w a2, BNode (BLeaf a1) (BLeaf a2))]
  = map (fun x => (fst x, split_leaf a1 a2 (snd x)))
        (leaf_items (joined w a1 a2) (rest ++ [a1])).
Proof.
  intro N. unfold leaf_items. rewrite !map_app, map_map. cbn [map fst snd split_leaf].
  rewrite Z.eqb_refl, joined_same. f_equal.
  apply map_ext_in. intros s I. cbn [fst snd split_leaf].
  assert (s <> a1) by congruence.
  rewrite joined_other by assumption.
  destruct (s =? a1) eqn:E; [apply Z.eqb_eq in E; contradiction|reflexivity].
Qed.

Lemma merge_loop_optimal (n : nat) :
  forall (w : Z -> Z) (syms : list Z) (fuel : nat) (f : Z) (b : btree),
    length syms = S n -> (n <= fuel)%nat ->
    NoDup syms ->
    (forall s, In s syms -> 0 <= w s) ->
    StronglySorted (fun s s' => w s <= w s') syms ->
    merge_loop BNode fuel (leaf_items w syms) = [(f, b)] ->
    forall u, Permutation (bleaves u) syms -> bcost w b <= bcost w u.
Proof.
  induction n as [|n IH]; intros w syms fuel f b Hlen Hfuel N Hw S E u P.
  - destruct syms as [|s [|? ?]]; try discriminate.
    cbn in E. rewrite merge_loop_single in E. injection E as _ <-.
    cbn [bcost]. apply bcost_nonneg.
    intros x I. apply Hw. eapply Permutation_in; [exact P|exact I].
  - destruct syms as [|a1 [|a2 rest]]; try discriminate.
    destruct fuel as [|fuel]; [lia|].
    assert (Hrest : length rest = n) by (cbn in Hlen; lia).
    assert (N1 : ~ In a1 rest).
    { inversion N as [|? ? Na _]. cbn in Na. tauto. }
    assert (Hne : a1 <> a2).
    { inversion N as [|? ? Na _]. cbn in Na. intuition congruence. }
    set (w' := joined w a1 a2).
    set (syms' := py_sort (weight_lt w') (rest ++ [a1])).
    assert (P' : Permutation syms' (a1 :: rest)).
    { unfold syms'. rewrite py_sort_perm. symmetry. apply Permutation_cons_append. }
    (* the loop after its first round *)
    cbn [leaf_items map merge_loop fst snd] in E.
    fold (leaf_items w rest) in E.
    rewrite (leaf_items_split w a1 a2 rest N1) in E.
    rewrite (py_sort_map key_lt key_lt) in E by reflexivity.
    unfold leaf_items in E at 1.
    rewrite (py_sort_map (weight_lt w') key_lt) in E by reflexivity.
    fold w' in E. fold syms' in E. fold (leaf_items w' syms') in E.
    rewrite (merge_loop_map BNode BNode (split_leaf a1 a2)) in E by reflexivity.
    destruct (merge_loop BNode fuel (leaf_items w' syms')) as [|[f' b'] [|? ?]] eqn:E';
      try discriminate.
    cbn in E. injection E as _ <-.
    (* the tree of the remaining rounds *)
    assert (Pb : Permutation (bleaves b') syms').
    { pose proof (merge_loop_leaves fuel (leaf_items w' syms')) as L.
      rewrite E', leaf_items_leaves in L. cbn in L. now rewrite app_nil_r in L. }
    assert (Nb : NoDup (bleaves b')).
    { eapply Permutation_NoDup; [symmetry; exact Pb|].
      eapply Permutation_NoDup; [symmetry; exact P'|].
      inversion N as [|? ? _ N2]. inversion N2 as [|? ? _ N3].
      constructor; assumption. }
    assert (Ib : In a1 (bleaves b')).
    { eapply Permutation_in; [symmetry; exact Pb|].
      eapply Permutation_in; [symmetry; exact P'|]. now left. }
    destruct (split_leaf_cost w a1 a2 b' Nb Ib) as [Cb _]. fold w' in Cb.
    (* the other tree, with a1 and a2 made siblings and joined *)
    inversion S as [|? ? S2 F1]. subst. inversion S2 as [|? ? S3 F2]. subst.
    rewrite Forall_forall in F1, F2.
    assert (Nu : NoDup (bleaves u)).
    { eapply Permutation_NoDup; [symmetry; exact P|exact N]. }
    destruct (make_siblings w u a1 a2 Nu) as [u1 [P1 [S1 C1]]]; trivial.
    { eapply Permutation_in; [symmetry; exact P|]. now left. }
    { eapply Permutation_in; [symmetry; exact P|]. right. now left. }
    { intros s I. apply (Permutation_in _ P) in I.
      destruct I as [<-|I]; [lia|now apply F1]. }
    { intros s I Hs. apply (Permutation_in _ P) in I.
      destruct I as [<-|[<-|I]]; [congruence|lia|now apply F2]. }
    assert (Nu1 : NoDup (bleaves u1)).
    { eapply Permutation_NoDup; [symmetry; exact P1|exact Nu]. }
    destruct (merge_siblings w a1 a2 u1 S1 Nu1) as [u' [Pu' [Cu' _]]].
    fold w' in Cu'.
    assert (Pu : Permutation (bleaves u') syms').
    { rewrite P'. apply (Permutation_cons_inv (a := a2)).
      rewrite Pu', P1, P. apply perm_swap. }
    (* the induction hypothesis, on the joined weights *)
    assert (H' : bcost w' b' <= bcost w' u').
    { apply (IH w' syms' fuel f' b'); trivial.
      - unfold syms'. rewrite py_sort_length, length_app. cbn. lia.
      - lia.
      - eapply Permutation_NoDup; [symmetry; exact P'|].
        inversion N as [|? ? _ N2]. inversion N2 as [|? ? _ N3].
        constructor; assumption.
      - intros s I. apply (Permutation_in _ P') in I. unfold w'.
        destruct I as [<-|I].
        + rewrite joined_same.
          pose proof (Hw a1 (or_introl eq_refl)).
          pose proof (Hw a2 (or_intror (or_introl eq_refl))). lia.
        + rewrite joined_other by congruence. apply Hw. right. now right.
      - apply weight_sorted. }
    lia.
Qed.

(** ** From the trees of two children to the trees of the source *)

Lemma truthy_embed (b : btree) : truthy (embed b) = true.
Proof. now destruct b. Qed.

Lemma is_leaf_embed_node (l r : btree) : is_leaf (embed (BNode l r)) = false.
Proof. cbn [embed]. unfold mkNode. now rewrite is_leaf_truthy, truthy_embed. Qed.

Lemma symbols_embed (b : btree) : Permutation (symbols (embed b)) (bleaves b).
Proof.
  induction b as [s|l IHl r IHr]; [reflexivity|].
  pose proof (is_leaf_embed_node l r) as E. cbn [embed] in *. unfold mkNode in *.
  rewrite symbols_node by exact E. cbn [bleaves].
  rewrite IHl, IHr. apply Permutation_app_comm.
Qed.

Lemma weight_embed (w : Z -> Z) (b : btree) : weight w (embed b) = bweight w b.
Proof.
  unfold weight, bweight. apply total_perm, Permutation_map, symbols_embed.
Qed.

Lemma cost_embed (w : Z -> Z) (b : btree) : cost w (embed b) = bcost w b.
Proof.
  induction b as [s|l IHl r IHr]; [reflexivity|].
  pose proof (is_leaf_embed_node l r) as E. cbn [embed] in *. unfold mkNode in *.
  rewrite cost_node by exact E. cbn [bcost].
  now rewrite IHl, IHr, !weight_embed.
Qed.

Lemma weight_NoNode (w : Z -> Z) : weight w NoNode = 0.
Proof. reflexivity. Qed.

Lemma cost_NoNode (w : Z -> Z) : cost w NoNode = 0.
Proof. reflexivity. Qed.

Lemma weight_nonneg (w : Z -> Z) (t : HuffmanNode) :
  (forall s, In s (symbols t) -> 0 <= w s) -> 0 <= weight w t.
Proof.
  intro Hw. unfold weight. apply total_nonneg, Forall_forall.
  intros x I. apply in_map_iff in I. destruct I as [s [<- I]]. now apply Hw.
Qed.

Lemma cost_nonneg (w : Z -> Z) (t : HuffmanNode) :
  wf_tree t -> (forall s, In s (symbols t) -> 0 <= w s) -> 0 <= cost w t.
Proof.
  intro W. induction W as [s n|l r n Wl IHl Wr IHr|l n Wl IHl|r n Wr IHr]; intro Hw.
  - reflexivity.
  - rewrite cost_node by now apply wf_is_leaf_both.
    rewrite symbols_node in Hw by now apply wf_is_leaf_both.
    assert (Hl : forall s, In s (symbols l) -> 0 <= w s)
      by (intros; apply Hw, in_or_app; tauto).
    assert (Hr : forall s, In s (symbols r) -> 0 <= w s)
      by (intros; apply Hw, in_or_app; tauto).
    pose proof (weight_nonneg w l Hl). pose proof (weight_nonneg w r Hr).
    specialize (IHl Hl). specialize (IHr Hr). lia.
  - rewrite cost_node by now apply wf_is_leaf_both.
    rewrite symbols_node in Hw by now apply wf_is_leaf_both.
    cbn [symbols app] in Hw.
    pose proof (weight_nonneg w l Hw). specialize (IHl Hw).
    rewrite weight_NoNode, cost_NoNode. lia.
  - rewrite cost_node by now apply wf_is_leaf_right.
    rewrite symbols_node in Hw by now apply wf_is_leaf_right.
    cbn [symbols] in Hw. rewrite app_nil_r in Hw.
    pose proof (weight_nonneg w r Hw). specialize (IHr Hw).
    rewrite weight_NoNode, cost_NoNode. lia.
Qed.

(** A code of one bit at least for every symbol costs the weight at least. *)
Lemma cost_ge_weight (w : Z -> Z) (t : HuffmanNode) :
  wf_tree t -> is_internal t = true ->
  (forall s, In s (symbols t) -> 0 <= w s) -> weight w t <= cost w t.
Proof.
  intros W Hi Hw. destruct W as [s n|l r n Wl Wr|l n Wl|r n Wr].
  - discriminate.
  - rewrite cost_node, weight_node by now apply wf_is_leaf_both.
    rewrite symbols_node in Hw by now apply wf_is_leaf_both.
    pose proof (cost_nonneg w l Wl ltac:(intros; apply Hw, in_or_app; tauto)).
    pose proof (cost_nonneg w r Wr ltac:(intros; apply Hw, in_or_app; tauto)).
    lia.
  - rewrite cost_node, weight_node by now apply wf_is_leaf_both.
    rewrite symbols_node in Hw by now apply wf_is_leaf_both.
    cbn [symbols app] in Hw.
    pose proof (cost_nonneg w l Wl Hw). rewrite weight_NoNode, cost_NoNode. lia.
  - rewrite cost_node, weight_node by now apply wf_is_leaf_right.
    rewrite symbols_node in Hw by now apply wf_is_leaf_right.
    cbn [symbols] in Hw. rewrite app_nil_r in Hw.
    pose proof (cost_nonneg w r Wr Hw). rewrite weight_NoNode, cost_NoNode. lia.
Qed.

(** Dropping the nodes of one child keeps the leaves and does not raise the
    cost. *)
Lemma contract_spec (w : Z -> Z) (t : HuffmanNode) :
  wf_tree t -> (forall s, In s (symbols t) -> 0 <= w s) ->
  Permutation (bleaves (contract t)) (symbols t)
  /\ bweight w (contract t) = weight w t
  /\ bcost w (contract t) <= cost w t.
Proof.
  intro W. induction W as [s n|l r n Wl IHl Wr IHr|l n Wl IHl|r n Wr IHr]; intro Hw.
  - cbn. unfold bweight, weight. cbn. split; [reflexivity|split; lia].
  - pose proof (wf_is_leaf_both l r n Wl) as E.
    rewrite symbols_node in * by exact E.
    rewrite cost_node, weight_node by exact E.
    cbn [contract]. rewrite E, (wf_truthy l Wl), (wf_truthy r Wr). cbn [negb].
    destruct IHl as [Pl [Bl Cl]]; [intros; apply Hw, in_or_app; tauto|].
    destruct IHr as [Pr [Br Cr]]; [intros; apply Hw, in_or_app; tauto|].
    cbn [bleaves bcost]. rewrite bweight_node. split; [|split; lia].
    rewrite Pl, Pr. apply Permutation_app_comm.
  - pose proof (wf_is_leaf_both l NoNode n Wl) as E.
    rewrite symbols_node in * by exact E.
    rewrite cost_node, weight_node by exact E.
    cbn [contract]. rewrite E, (wf_truthy l Wl). cbn [negb truthy symbols app] in *.
    destruct (IHl Hw) as [Pl [Bl Cl]].
    pose proof (weight_nonneg w l Hw).
    rewrite weight_NoNode, cost_NoNode. split; [exact Pl|split; lia].
  - pose proof (wf_is_leaf_right NoNode r n Wr) as E.
    rewrite symbols_node in * by exact E.
    rewrite cost_node, weight_node by exact E.
    cbn [contract]. rewrite E. cbn [negb truthy symbols] in *.
    rewrite app_nil_r in *.
    destruct (IHr Hw) as [Pr [Br Cr]].
    pose proof (weight_nonneg w r Hw).
    rewrite weight_NoNode, cost_NoNode. split; [exact Pr|split; lia].
Qed.

(** ** The tree of huffman_tree has the least average length *)

Lemma dict_find_NoDup {V : Type} (d : dict Z V) (k : Z) (v : V) :
  NoDup (dict_keys d) -> In (k, v) d -> dict_find d k = Some v.
Proof.
  induction d as [|[k' v'] d IH]; cbn; [tauto|].
  intros N [[= -> ->]|I].
  - unfold keqb, KeyEq_Z. now rewrite Z.eqb_refl.
  - inversion N as [|? ? Nk N']. subst.
    destruct (keqb k k') eqn:E.
    + apply keqb_Z_spec in E. subst. exfalso. apply Nk.
      unfold dict_keys. apply in_map_iff. now exists (k', v).
    + now apply IH.
Qed.

Lemma freq_of_In (fd : dict Z Z) (k f : Z) :
  NoDup (dict_keys fd) -> In (k, f) fd -> freq_of fd k = f.
Proof. intros N I. unfold freq_of. now rewrite (dict_find_NoDup fd k f N I). Qed.

Lemma sorted_items_In (fd : dict Z Z) (x : Z * Z) :
  In x (sorted_items fd) -> In (snd x, fst x) fd.
Proof.
  unfold sorted_items. intro I.
  apply (Permutation_in _ (py_sort_perm tuple_lt _)) in I.
  apply in_map_iff in I. destruct I as [[k f] [<- I]]. exact I.
Qed.

Lemma leaf_forest_items (fd : dict Z Z) :
  NoDup (dict_keys fd) ->
  leaf_forest (sorted_items fd)
  = leaf_items (freq_of fd) (map snd (sorted_items fd)).
Proof.
  intro N. unfold leaf_forest, leaf_items. rewrite map_map.
  apply map_ext_in. intros x I. apply sorted_items_In in I.
  now rewrite (freq_of_In fd _ _ N I).
Qed.

Lemma sorted_symbols (fd : dict Z Z) :
  NoDup (dict_keys fd) ->
  StronglySorted (fun s s' => freq_of fd s <= freq_of fd s')
                 (map snd (sorted_items fd)).
Proof.
  intro N.
  assert (H : forall x, In x (sorted_items fd) -> freq_of fd (snd x) = fst x).
  { intros x I. apply sorted_items_In in I. now apply freq_of_In. }
  revert H. generalize (sorted_items_sorted fd). generalize (sorted_items fd).
  induction 1 as [|x l S IH F]; intro H; cbn; constructor.
  - apply IH. intros y I. apply H. now right.
  - rewrite Forall_forall in *. intros s I.
    apply in_map_iff in I. destruct I as [y [<- I]].
    rewrite (H x (or_introl eq_refl)), (H y (or_intror I)). now apply F.
Qed.

Lemma freq_of_positive (fd : dict Z Z) (s : Z) :
  (forall k f, In (k, f) fd -> 0 < f) -> In s (dict_keys fd) -> 0 < freq_of fd s.
Proof.
  intros Hpos I. destruct (dict_find_key keqb_Z_spec fd s I) as [f F].
  unfold freq_of. rewrite F. apply (Hpos s).
  now apply (dict_find_In keqb_Z_spec).
Qed.

Lemma total_positive (l : list Z) :
  l <> [] -> Forall (fun x => 0 < x) l -> 0 < total l.
Proof.
  intros Hne F. destruct F as [|x l Hx F]; [congruence|].
  rewrite total_cons. cbn beta in Hx.
  assert (H0 : 0 <= total l).
  { apply total_nonneg. eapply Forall_impl; [|exact F]. cbn beta. intros; lia. }
  lia.
Qed.

Lemma huffman_btree_optimal (fd : dict Z Z) :
  (2 <= length fd)%nat -> NoDup (dict_keys fd) ->
  (forall k f, In (k, f) fd -> 0 < f) ->
  exists b,
    huffman_tree fd = Ok (embed b)
    /\ Permutation (bleaves b) (dict_keys fd)
    /\ forall u, Permutation (bleaves u) (dict_keys fd) ->
                 bcost (freq_of fd) b <= bcost (freq_of fd) u.
Proof.
  intros Hlen N Hpos.
  destruct (huffman_tree_loop fd Hlen) as [f [b [E Eb]]].
  exists b. split; [exact Eb|]. split; [now apply (huffman_tree_loop_leaves fd f)|].
  intros u Pu. rewrite leaf_forest_items in E by exact N.
  apply (merge_loop_optimal (length fd - 1) (freq_of fd)
           (map snd (sorted_items fd)) (length fd) f b); trivial.
  - rewrite length_map, sorted_items_length. lia.
  - lia.
  - eapply Permutation_NoDup; [symmetry; apply sorted_items_keys|exact N].
  - intros s I. apply (Permutation_in _ (sorted_items_keys fd)) in I.
    pose proof (freq_of_positive fd s Hpos I). lia.
  - now apply sorted_symbols.
  - rewrite Pu. symmetry. apply sorted_items_keys.
Qed.

Lemma Qdiv_le_mono (a b W : Z) :
  0 < W -> a <= b -> (inject_Z a / inject_Z W <= inject_Z b / inject_Z W)%Q.
Proof.
  intros HW Hab. unfold Qdiv. apply Qmult_le_compat_r.
  - now rewrite <- Zle_Qle.
  - apply Qinv_le_0_compat. change 0%Q with (inject_Z 0).
    rewrite <- Zle_Qle. lia.
Qed.

Lemma alphabet_tree_avg (fd : dict Z Z) (t : HuffmanNode) :
  fd <> [] -> NoDup (dict_keys fd) -> (forall k f, In (k, f) fd -> 0 < f) ->
  wf_tree t -> Permutation (symbols t) (dict_keys fd) ->
  weight (freq_of fd) t = total (map (freq_of fd) (dict_keys fd))
  /\ 0 < weight (freq_of fd) t
  /\ avg_length t fd
     = Ok (inject_Z (cost (freq_of fd) t) / inject_Z (weight (freq_of fd) t))%Q.
Proof.
  intros Hne N Hpos W P.
  assert (EW : weight (freq_of fd) t = total (map (freq_of fd) (dict_keys fd))).
  { unfold weight. apply total_perm, Permutation_map, P. }
  assert (HW : 0 < weight (freq_of fd) t).
  { rewrite EW. apply total_positive.
    - destruct fd; [congruence|discriminate].
    - apply Forall_forall. intros x I. apply in_map_iff in I.
      destruct I as [s [<- I]]. now apply freq_of_positive. }
  split; [exact EW|]. split; [exact HW|].
  apply avg_length_cost; trivial.
  - eapply Permutation_NoDup; [symmetry; exact P|exact N].
  - intros s I. eapply Permutation_in; [exact P|exact I].
  - lia.
Qed.

Lemma valid_prefix_tree_avg (fd : dict Z Z) (t : HuffmanNode) :
  fd <> [] -> NoDup (dict_keys fd) -> (forall k f, In (k, f) fd -> 0 < f) ->
  valid_prefix_tree fd t ->
  weight (freq_of fd) t = total (map (freq_of fd) (dict_keys fd))
  /\ 0 < weight (freq_of fd) t
  /\ avg_length t fd
     = Ok (inject_Z (cost (freq_of fd) t) / inject_Z (weight (freq_of fd) t))%Q.
Proof.
  intros Hne N Hpos [W [_ P]]. now apply alphabet_tree_avg.
Qed.

(** huffman_tree returns a prefix tree for the alphabet of its argument. *)
Lemma huffman_tree_valid (fd : dict Z Z) :
  fd <> [] -> exists t, huffman_tree fd = Ok t /\ valid_prefix_tree fd t.
Proof.
  intro Hne. destruct fd as [|[k f] [|kv fd]]; [congruence| |].
  - exists (mkNode None (leaf k) NoNode). split; [reflexivity|].
    split; [apply wf_left, wf_leaf|]. split; reflexivity.
  - destruct (huffman_tree_loop ((k, f) :: kv :: fd)) as [f' [b [El E]]]; [cbn; lia|].
    pose proof (huffman_tree_loop_leaves _ _ _ El) as P.
    exists (embed b). split; [exact E|].
    split; [apply wf_embed|]. split; [|now rewrite symbols_embed].
    destruct b as [s|l r].
    + apply Permutation_length in P. discriminate.
    + unfold is_internal. rewrite truthy_embed, is_leaf_embed_node. reflexivity.
Qed.

(** C8.  For every non-empty frequency map of positive counts, the average
    code length of the tree of huffman_tree is at most that of any prefix
    tree over the same alphabet; and for the frequencies {3: 2, 2: 7, 9: 1}
    the tree ((3, 2), 9) has the average length 19/10. *)
Theorem huffman_tree_optimal :
  (forall fd : dict Z Z,
      fd <> [] -> NoDup (dict_keys fd) -> (forall k f, In (k, f) fd -> 0 < f) ->
      exists tree q,
        huffman_tree fd = Ok tree
        /\ valid_prefix_tree fd tree
        /\ avg_length tree fd = Ok q
        /\ forall t', valid_prefix_tree fd t' ->
                      exists q', avg_length t' fd = Ok q' /\ (q <= q')%Q)
  /\ avg_length (mkNode None (mkNode None (leaf 3) (leaf 2)) (leaf 9))
                [(3, 2); (2, 7); (9, 1)] = Ok (19 # 10).
Proof.
  split; [|reflexivity].
  intros fd Hne N Hpos.
  destruct (huffman_tree_valid fd Hne) as [t [E V]].
  destruct (valid_prefix_tree_avg fd t Hne N Hpos V) as [EW [HW A]].
  exists t, (inject_Z (cost (freq_of fd) t) / inject_Z (weight (freq_of fd) t))%Q.
  split; [exact E|]. split; [exact V|]. split; [exact A|].
  intros t' V'.
  destruct (valid_prefix_tree_avg fd t' Hne N Hpos V') as [EW' [HW' A']].
  eexists. split; [exact A'|].
  rewrite EW, <- EW'. apply Qdiv_le_mono; [exact HW'|].
  destruct V' as [W' [Hi' P']].
  assert (Hw' : forall s, In s (symbols t') -> 0 <= freq_of fd s).
  { intros s I. apply (Permutation_in _ P') in I.
    pose proof (freq_of_positive fd s Hpos I). lia. }
  destruct fd as [|[k f] [|kv fd]]; [congruence| |].
  - (* one symbol: its code has one bit in the tree of huffman_tree *)
    injection E as <-.
    transitivity (weight (freq_of [(k, f)]) t').
    + rewrite EW'. cbn. unfold weight. cbn. lia.
    + now apply cost_ge_weight.
  - destruct (huffman_btree_optimal ((k, f) :: kv :: fd)) as [b [Eb [Pb Hopt]]];
      trivial; [cbn; lia|].
    rewrite E in Eb. injection Eb as ->.
    rewrite cost_embed.
    destruct (contract_spec (freq_of ((k, f) :: kv :: fd)) t' W' Hw') as [Pc [_ Cc]].
    transitivity (bcost (freq_of ((k, f) :: kv :: fd)) (contract t')); [|exact Cc].
    apply Hopt. now rewrite Pc.
Qed.

Lemma huffman_tree_optimal_witness :
  exists tree q,
    huffman_tree [(3, 2); (2, 7); (9, 1)] = Ok tree
    /\ valid_prefix_tree [(3, 2); (2, 7); (9, 1)] tree
    /\ avg_length tree [(3, 2); (2, 7); (9, 1)] = Ok q
    /\ forall t', valid_prefix_tree [(3, 2); (2, 7); (9, 1)] t' ->
                  exists q', avg_length t' [(3, 2); (2, 7); (9, 1)] = Ok q'
                             /\ (q <= q')%Q.
Proof.
  apply (proj1 huffman_tree_optimal [(3, 2); (2, 7); (9, 1)]).
  - discriminate.
  - cbn. repeat constructor; cbn; intuition discriminate.
  - intros k f [[= <- <-]|[[= <- <-]|[[= <- <-]|[]]]]; lia.
Defined.

(** ** The rearrangement inequality *)

Lemma dot_replace (d a b : list Z) (x y : Z) :
  length d = (length a + S (length b))%nat ->
  exists dj, In dj d /\ dot d (a ++ x :: b) = dot d (a ++ y :: b) + dj * (x - y).
Proof.
  revert d. induction a as [|z a IH]; intros d Hlen.
  - destruct d as [|d0 d]; [discriminate|].
    exists d0. split; [now left|]. cbn. lia.
  - destruct d as [|d0 d]; [discriminate|].
    destruct (IH d) as [dj [I E]]; [cbn in Hlen; lia|].
    exists dj. split; [now right|]. cbn. lia.
Qed.

(** Ascending factors against descending ones give the least sum of
    products among all orders of the second list. *)
Lemma rearrangement (d : list Z) :
  forall f g : list Z,
    StronglySorted Z.le d ->
    StronglySorted (fun a b => b <= a) f ->
    Permutation f g -> length d = length f ->
    dot d f <= dot d g.
Proof.
  induction d as [|d1 d IH]; intros f g Sd Sf P Hlen; [cbn; lia|].
  destruct f as [|f1 f]; [discriminate|].
  destruct g as [|g1 g]; [apply Permutation_length in P; discriminate|].
  inversion Sd as [|? ? Sd' Fd]. subst. inversion Sf as [|? ? Sf' Ff]. subst.
  rewrite Forall_forall in Fd, Ff.
  assert (Hl : length d = length f) by (cbn in Hlen; lia).
  destruct (Z.eq_dec g1 f1) as [->|Hne].
  - apply Permutation_cons_inv in P. cbn. specialize (IH f g Sd' Sf' P Hl). lia.
  - assert (I : In f1 g).
    { assert (I : In f1 (g1 :: g)) by (eapply Permutation_in; [exact P|now left]).
      destruct I as [E|I]; [congruence|exact I]. }
    apply in_split in I. destruct I as [a [b ->]].
    assert (P' : Permutation f (a ++ g1 :: b)).
    { apply (Permutation_cons_inv (a := f1)). rewrite P.
      rewrite <- (Permutation_middle a b f1). rewrite perm_swap.
      apply perm_skip, Permutation_middle. }
    assert (Hg1 : g1 <= f1).
    { apply Ff. eapply Permutation_in; [symmetry; exact P'|].
      apply in_or_app. right. now left. }
    destruct (dot_replace d a b f1 g1) as [dj [Ij E]].
    { rewrite Hl, (Permutation_length P'), length_app. reflexivity. }
    specialize (IH f (a ++ g1 :: b) Sd' Sf' P' Hl).
    specialize (Fd dj Ij). cbn [dot]. nia.
Qed.

Lemma StronglySorted_rev {A : Type} (R : A -> A -> Prop) (l : list A) :
  StronglySorted R l -> StronglySorted (fun a b => R b a) (rev l).
Proof.
  induction 1 as [|x l S IH F]; cbn; [constructor|].
  assert (G : forall m, StronglySorted (fun a b => R b a) m ->
                        Forall (fun y => R x y) m ->
                        StronglySorted (fun a b => R b a) (m ++ [x])).
  { induction 1 as [|y m Sm IHm Fm]; intro Fx; cbn.
    - constructor; constructor.
    - inversion Fx. subst. constructor; [now apply IHm|].
      apply Forall_app. split; [exact Fm|]. now constructor. }
  apply G; [exact IH|]. now apply Forall_rev.
Qed.

(** ** Paths, shapes and the update of a symbol *)

Lemma subtree_NoNode (p : list dir) : subtree NoNode p = NoNode.
Proof. now destruct p. Qed.

Lemma subtree_app (t : HuffmanNode) (p q : list dir) :
  subtree t (p ++ q) = subtree (subtree t p) q.
Proof.
  revert t. induction p as [|d p IH]; intro t; [reflexivity|].
  cbn. destruct t as [|s l r n]; [now rewrite subtree_NoNode|].
  destruct d; apply IH.
Qed.

Lemma same_shape_refl (t : HuffmanNode) : same_shape t t.
Proof. induction t; cbn; auto. Qed.

Lemma same_shape_trans (t1 t2 t3 : HuffmanNode) :
  same_shape t1 t2 -> same_shape t2 t3 -> same_shape t1 t3.
Proof.
  revert t2 t3. induction t1 as [|s l IHl r IHr n]; intros [|] [|]; cbn; try tauto.
  intros [? ?] [? ?]. split; eauto.
Qed.

Lemma same_shape_truthy (t t' : HuffmanNode) :
  same_shape t t' -> truthy t = truthy t'.
Proof. destruct t, t'; cbn; tauto. Qed.

Lemma same_shape_is_leaf (t t' : HuffmanNode) :
  same_shape t t' -> is_leaf t = is_leaf t'.
Proof.
  destruct t as [|s l r n], t' as [|s' l' r' n']; cbn [same_shape]; try tauto.
  intros [Hl Hr]. rewrite !is_leaf_truthy.
  now rewrite (same_shape_truthy _ _ Hl), (same_shape_truthy _ _ Hr).
Qed.

Lemma same_shape_subtree (t t' : HuffmanNode) (p : list dir) :
  same_shape t t' -> same_shape (subtree t p) (subtree t' p).
Proof.
  revert t t'. induction p as [|d p IH]; intros t t' H; [exact H|].
  destruct t as [|s l r n], t' as [|s' l' r' n']; cbn in *; try tauto.
  destruct H as [Hl Hr]. destruct d; now apply IH.
Qed.

Lemma same_shape_leaf_paths (t t' : HuffmanNode) :
  same_shape t t' -> leaf_paths t = leaf_paths t'.
Proof.
  revert t'. induction t as [|s l IHl r IHr n]; intros [|s' l' r' n'] H;
    cbn [same_shape] in H; try tauto.
  destruct H as [Hl Hr]. cbn [leaf_paths].
  rewrite (same_shape_is_leaf (Node s l r n) (Node s' l' r' n')) by (cbn; tauto).
  now rewrite (IHl l' Hl), (IHr r' Hr).
Qed.

Lemma same_shape_set_symbol (t : HuffmanNode) (p : list dir) (s : option Z) :
  same_shape t (set_symbol t p s).
Proof.
  revert p. induction t as [|s0 l IHl r IHr n]; intro p; [exact I|].
  destruct p as [|[|] p]; cbn; auto using same_shape_refl.
Qed.

Lemma set_symbol_at (t : HuffmanNode) (p : list dir) (s : option Z) :
  truthy (subtree t p) = true ->
  node_symbol (subtree (set_symbol t p s) p) = s.
Proof.
  revert t. induction p as [|d p IH]; intros t H.
  - destruct t; [discriminate|reflexivity].
  - destruct t as [|s0 l r n]; [now rewrite subtree_NoNode in H|].
    destruct d; cbn in *; now apply IH.
Qed.

Lemma set_symbol_other (t : HuffmanNode) (p q : list dir) (s : option Z) :
  q <> p ->
  node_symbol (subtree (set_symbol t p s) q) = node_symbol (subtree t q).
Proof.
  revert p q. induction t as [|s0 l IHl r IHr n]; intros p q N; [reflexivity|].
  destruct p as [|[|] p], q as [|[|] q]; cbn; try reflexivity; try congruence.
  - apply IHl. congruence.
  - apply IHr. congruence.
Qed.

Lemma wf_set_symbol (t : HuffmanNode) (p : list dir) (z : Z) :
  wf_tree t -> is_leaf (subtree t p) = true -> wf_tree (set_symbol t p (Some z)).
Proof.
  intro W. revert p.
  induction W as [s n|l r n Wl IHl Wr IHr|l n Wl IHl|r n Wr IHr]; intros p H.
  - destruct p as [|d p]; [constructor|].
    cbn [subtree] in H. destruct d; now rewrite subtree_NoNode in H.
  - destruct p as [|[|] p]; cbn [subtree set_symbol] in *.
    + now rewrite (wf_is_leaf_both l r n Wl) in H.
    + apply wf_both; auto.
    + apply wf_both; auto.
  - destruct p as [|[|] p]; cbn [subtree set_symbol] in *.
    + now rewrite (wf_is_leaf_both l NoNode n Wl) in H.
    + apply wf_left; auto.
    + now rewrite subtree_NoNode in H.
  - destruct p as [|[|] p]; cbn [subtree set_symbol] in *.
    + now rewrite (wf_is_leaf_right NoNode r n Wr) in H.
    + now rewrite subtree_NoNode in H.
    + apply wf_right; auto.
Qed.

(** ** The symbols that [assign] gives *)

Lemma assign_shape (ps : list (list dir)) :
  forall (t : HuffmanNode) (fl : list (Z * Z)), same_shape t (assign t ps fl).
Proof.
  induction ps as [|p ps IH]; intros t fl; cbn; [apply same_shape_refl|].
  eapply same_shape_trans; [apply same_shape_set_symbol|apply IH].
Qed.

Lemma assign_wf (ps : list (list dir)) :
  forall (t : HuffmanNode) (fl : list (Z * Z)),
    wf_tree t -> (forall p, In p ps -> is_leaf (subtree t p) = true) ->
    wf_tree (assign t ps fl).
Proof.
  induction ps as [|p ps IH]; intros t fl W H; cbn; [exact W|].
  apply IH.
  - apply wf_set_symbol; [exact W|]. apply H. now left.
  - intros q I.
    rewrite <- (same_shape_is_leaf _ _
                  (same_shape_subtree _ _ q (same_shape_set_symbol t p _))).
    apply H. now right.
Qed.

Lemma assign_sym_other (ps : list (list dir)) (q : list dir) :
  forall (t : HuffmanNode) (fl : list (Z * Z)),
    ~ In q ps -> sym_at (assign t ps fl) q = sym_at t q.
Proof.
  induction ps as [|p ps IH]; intros t fl N; cbn; [reflexivity|].
  cbn in N. rewrite IH by tauto.
  unfold sym_at. rewrite set_symbol_other; [reflexivity|]. intro E. subst. tauto.
Qed.

Lemma assign_syms (ps : list (list dir)) :
  forall (t : HuffmanNode) (fl : list (Z * Z)),
    NoDup ps -> (forall p, In p ps -> truthy (subtree t p) = true) ->
    (length ps <= length fl)%nat ->
    map (sym_at (assign t ps fl)) ps = map snd (firstn (length ps) (rev fl)).
Proof.
  induction ps as [|p ps IH]; intros t fl N H Hlen; [reflexivity|].
  destruct (exists_last (l := fl)) as [fl' [x ->]].
  { intro E. subst. cbn in Hlen. lia. }
  inversion N as [|? ? Np N']. subst.
  cbn [assign]. rewrite last_last, removelast_last, rev_unit.
  cbn [length firstn map]. f_equal.
  - rewrite assign_sym_other by exact Np.
    unfold sym_at. rewrite set_symbol_at; [reflexivity|]. apply H. now left.
  - apply IH; [exact N'| |].
    + intros q I.
      rewrite <- (same_shape_truthy _ _
                    (same_shape_subtree _ _ q (same_shape_set_symbol t p _))).
      apply H. now right.
    + rewrite length_app in Hlen. cbn in Hlen. cbn [length] in *. lia.
Qed.

(** ** The loop of improve_tree *)

Lemma length_removelast_le {A : Type} (l : list A) :
  l <> [] -> S (length (removelast l)) = length l.
Proof.
  intro N. destruct (exists_last N) as [l' [x ->]].
  rewrite removelast_last, length_app. cbn. lia.
Qed.

Lemma is_leaf_children (s : option Z) (l r : HuffmanNode) (n : option Z) :
  is_leaf (Node s l r n) = true -> l = NoNode /\ r = NoNode.
Proof. destruct l, r; cbn; intuition discriminate. Qed.

(** The loop gives the leaves their symbols in the order of [bfs_order]. *)
Lemma improve_loop_assign (fuel : nat) :
  forall (t0 t : HuffmanNode) (fl : list (Z * Z)) (queue : list (list dir)),
    same_shape t0 t ->
    (forall p, In p queue -> truthy (subtree t0 p) = true) ->
    (length (bfs_order fuel t0 queue) <= length fl)%nat ->
    improve_loop fuel t fl queue = Ok (assign t (bfs_order fuel t0 queue) fl).
Proof.
  induction fuel as [|fuel IH]; intros t0 t fl queue Sh Hq Hlen; [reflexivity|].
  destruct queue as [|p rest]; [reflexivity|].
  cbn [improve_loop bfs_order] in *.
  pose proof (Hq p (or_introl eq_refl)) as Hp.
  pose proof (same_shape_subtree _ _ p Sh) as Shp.
  destruct (subtree t0 p) as [|s0 l0 r0 n0] eqn:E0; [discriminate|].
  destruct (subtree t p) as [|s l r n] eqn:E; [contradiction|].
  pose proof (same_shape_is_leaf _ _ Shp) as El.
  cbn [same_shape] in Shp. destruct Shp as [Shl Shr].
  rewrite <- (same_shape_truthy _ _ Shl), <- (same_shape_truthy _ _ Shr), <- El.
  set (queue' := rest ++ (if truthy l0 then [p ++ [GoLeft]] else [])
                      ++ (if truthy r0 then [p ++ [GoRight]] else [])) in *.
  assert (Hq' : forall q, In q queue' -> truthy (subtree t0 q) = true).
  { intros q I. unfold queue' in I. rewrite !in_app_iff in I.
    destruct I as [I|[I|I]].
    - apply Hq. now right.
    - destruct (truthy l0) eqn:T; [|destruct I].
      destruct I as [<-|[]]. now rewrite subtree_app, E0.
    - destruct (truthy r0) eqn:T; [|destruct I].
      destruct I as [<-|[]]. now rewrite subtree_app, E0. }
  destruct (is_leaf (Node s0 l0 r0 n0)).
  - destruct fl as [|x fl]; [cbn in Hlen; lia|].
    cbn [assign]. apply IH; trivial.
    + eapply same_shape_trans; [exact Sh|apply same_shape_set_symbol].
    + pose proof (length_removelast_le (x :: fl) ltac:(discriminate)).
      cbn [length] in *. lia.
  - now apply IH.
Qed.

Lemma pending_cons (t : HuffmanNode) (p : list dir) (rest : list (list dir)) :
  pending t (p :: rest) = (node_count (subtree t p) + pending t rest)%nat.
Proof. reflexivity. Qed.

Lemma pending_app (t : HuffmanNode) (q1 q2 : list (list dir)) :
  pending t (q1 ++ q2) = (pending t q1 + pending t q2)%nat.
Proof. unfold pending. now rewrite map_app, list_sum_app. Qed.

Lemma under_app (t : HuffmanNode) (q1 q2 : list (list dir)) :
  under t (q1 ++ q2) = under t q1 ++ under t q2.
Proof. unfold under. apply flat_map_app. Qed.

Lemma child_pending (t : HuffmanNode) (p : list dir) (d : dir) (c : HuffmanNode) :
  subtree t (p ++ [d]) = c ->
  pending t (if truthy c then [p ++ [d]] else []) = node_count c.
Proof.
  intros <-. destruct (subtree t (p ++ [d])) eqn:E; cbn; [reflexivity|].
  rewrite E. cbn. lia.
Qed.

Lemma child_under (t : HuffmanNode) (p : list dir) (d : dir) (c : HuffmanNode) :
  subtree t (p ++ [d]) = c ->
  under t (if truthy c then [p ++ [d]] else [])
  = map (app p) (map (cons d) (leaf_paths c)).
Proof.
  intros <-. destruct (subtree t (p ++ [d])) eqn:E; [reflexivity|].
  cbn [truthy under flat_map]. rewrite E, app_nil_r, map_map.
  apply map_ext. intro q. now rewrite <- app_assoc.
Qed.

(** With fuel for every node below the work list, the loop meets each leaf
    once. *)
Lemma bfs_order_perm (fuel : nat) :
  forall (t : HuffmanNode) (queue : list (list dir)),
    (forall p, In p queue -> truthy (subtree t p) = true) ->
    (pending t queue <= fuel)%nat ->
    Permutation (bfs_order fuel t queue) (under t queue).
Proof.
  induction fuel as [|fuel IH]; intros t queue Hq Hf.
  - destruct queue as [|p rest]; [reflexivity|].
    pose proof (Hq p (or_introl eq_refl)) as Hp.
    rewrite pending_cons in Hf.
    destruct (subtree t p); [discriminate|cbn [node_count] in Hf; lia].
  - destruct queue as [|p rest]; [reflexivity|].
    pose proof (Hq p (or_introl eq_refl)) as Hp.
    cbn [bfs_order].
    destruct (subtree t p) as [|s l r n] eqn:E; [discriminate|].
    assert (El : subtree t (p ++ [GoLeft]) = l) by now rewrite subtree_app, E.
    assert (Er : subtree t (p ++ [GoRight]) = r) by now rewrite subtree_app, E.
    set (queue' := rest ++ (if truthy l then [p ++ [GoLeft]] else [])
                        ++ (if truthy r then [p ++ [GoRight]] else [])).
    assert (Hq' : forall q, In q queue' -> truthy (subtree t q) = true).
    { intros q I. unfold queue' in I. rewrite !in_app_iff in I.
      destruct I as [I|[I|I]].
      - apply Hq. now right.
      - destruct (truthy l) eqn:T; [|destruct I].
        destruct I as [<-|[]]. now rewrite El.
      - destruct (truthy r) eqn:T; [|destruct I].
        destruct I as [<-|[]]. now rewrite Er. }
    assert (Hf' : (pending t queue' <= fuel)%nat).
    { unfold queue'. rewrite !pending_app.
      rewrite (child_pending t p GoLeft l El), (child_pending t p GoRight r Er).
      rewrite pending_cons, E in Hf. cbn [node_count] in Hf. lia. }
    specialize (IH t queue' Hq' Hf').
    assert (U : under t queue'
                = under t rest ++ map (app p) (map (cons GoLeft) (leaf_paths l))
                  ++ map (app p) (map (cons GoRight) (leaf_paths r))).
    { unfold queue'. rewrite !under_app.
      now rewrite (child_under t p GoLeft l El), (child_under t p GoRight r Er). }
    rewrite U in IH. unfold under at 1. cbn [flat_map]. fold (under t rest).
    rewrite E. cbn [leaf_paths].
    destruct (is_leaf (Node s l r n)) eqn:L.
    + destruct (is_leaf_children _ _ _ _ L) as [-> ->].
      cbn [leaf_paths map app] in *. rewrite app_nil_r in *.
      now apply perm_skip.
    + rewrite IH, map_app. apply Permutation_app_comm.
Qed.

Lemma StronglySorted_app {A : Type} (R : A -> A -> Prop) (l1 l2 : list A) :
  StronglySorted R l1 -> StronglySorted R l2 ->
  (forall x y, In x l1 -> In y l2 -> R x y) ->
  StronglySorted R (l1 ++ l2).
Proof.
  intros S1 S2 H. induction S1 as [|x l1 S1 IH F]; [exact S2|].
  cbn. constructor.
  - apply IH. intros a b Ia Ib. apply H; [now right|exact Ib].
  - apply Forall_app. split; [exact F|].
    apply Forall_forall. intros y Iy. apply H; [now left|exact Iy].
Qed.

Lemma bfs_order_lower (fuel : nat) :
  forall (t : HuffmanNode) (queue : list (list dir)) (d : nat),
    (forall q, In q queue -> (d <= length q)%nat) ->
    forall o, In o (bfs_order fuel t queue) -> (d <= length o)%nat.
Proof.
  induction fuel as [|fuel IH]; intros t queue d Hq o Io; [destruct Io|].
  destruct queue as [|p rest]; [destruct Io|].
  cbn [bfs_order] in Io.
  destruct (subtree t p) as [|s l r n]; [destruct Io|].
  pose proof (Hq p (or_introl eq_refl)) as Hp.
  assert (Hq' : forall q,
             In q (rest ++ (if truthy l then [p ++ [GoLeft]] else [])
                        ++ (if truthy r then [p ++ [GoRight]] else [])) ->
             (d <= length q)%nat).
  { intros q I. rewrite !in_app_iff in I. destruct I as [I|[I|I]].
    - apply Hq. now right.
    - destruct (truthy l); [|destruct I]. destruct I as [<-|[]].
      rewrite length_app. lia.
    - destruct (truthy r); [|destruct I]. destruct I as [<-|[]].
      rewrite length_app. lia. }
  destruct (is_leaf (Node s l r n)).
  - destruct Io as [<-|Io]; [exact Hp|]. eapply IH; eassumption.
  - eapply IH; eassumption.
Qed.

(** The loop meets the leaves level by level. *)
Lemma bfs_order_sorted (fuel : nat) :
  forall (t : HuffmanNode) (queue : list (list dir)),
    StronglySorted lenle queue ->
    (forall q1 q2, In q1 queue -> In q2 queue -> (length q2 <= S (length q1))%nat) ->
    StronglySorted lenle (bfs_order fuel t queue).
Proof.
  induction fuel as [|fuel IH]; intros t queue Sq Hq; [constructor|].
  destruct queue as [|p rest]; [constructor|].
  cbn [bfs_order].
  destruct (subtree t p) as [|s l r n]; [constructor|].
  inversion Sq as [|? ? Sr Fr]. subst. rewrite Forall_forall in Fr.
  set (cl := if truthy l then [p ++ [GoLeft]] else []).
  set (cr := if truthy r then [p ++ [GoRight]] else []).
  assert (Hc : forall q, In q (cl ++ cr) -> length q = S (length p)).
  { intros q I. apply in_app_or in I. unfold cl, cr in I.
    destruct I as [I|I].
    - destruct (truthy l); [|destruct I]. destruct I as [<-|[]].
      rewrite length_app. cbn. lia.
    - destruct (truthy r); [|destruct I]. destruct I as [<-|[]].
      rewrite length_app. cbn. lia. }
  assert (Sc : StronglySorted lenle (cl ++ cr)).
  { unfold cl, cr. destruct (truthy l), (truthy r); cbn;
      repeat constructor; unfold lenle; rewrite !length_app; cbn; lia. }
  assert (Hr : forall q, In q rest -> (length p <= length q <= S (length p))%nat).
  { intros q I. split; [now apply Fr|].
    apply Hq; [now left|now right]. }
  assert (Sq' : StronglySorted lenle (rest ++ cl ++ cr)).
  { apply StronglySorted_app; trivial.
    intros x y Ix Iy. unfold lenle. rewrite (Hc y Iy). now apply Hr. }
  assert (Hq' : forall q1 q2, In q1 (rest ++ cl ++ cr) -> In q2 (rest ++ cl ++ cr) ->
                              (length q2 <= S (length q1))%nat).
  { intros q1 q2 I1 I2. apply in_app_or in I1, I2.
    destruct I1 as [I1|I1], I2 as [I2|I2].
    - apply Hq; now right.
    - rewrite (Hc q2 I2). pose proof (Hr q1 I1). lia.
    - rewrite (Hc q1 I1). pose proof (Hr q2 I2). lia.
    - rewrite (Hc q1 I1), (Hc q2 I2). lia. }
  specialize (IH t (rest ++ cl ++ cr) Sq' Hq').
  destruct (is_leaf (Node s l r n)); [|exact IH].
  constructor; [exact IH|]. apply Forall_forall. intros o Io.
  apply (bfs_order_lower fuel t (rest ++ cl ++ cr) (length p)); [|exact Io].
  intros q I. apply in_app_or in I. destruct I as [I|I].
  - now apply Hr.
  - rewrite (Hc q I). lia.
Qed.

(** ** The cost as a sum over the paths to the leaves *)

Lemma total_map_succ_gen {A : Type} (d w : A -> Z) (l : list A) :
  total (map (fun x => (1 + d x) * w x) l)
  = total (map (fun x => d x * w x) l) + total (map w l).
Proof.
  induction l as [|x l IH]; [reflexivity|].
  cbn [map]. rewrite !total_cons, IH. lia.
Qed.

Lemma symbols_paths (t : HuffmanNode) :
  wf_tree t -> Permutation (symbols t) (map (sym_at t) (leaf_paths t)).
Proof.
  intro W. induction W as [s n|l r n Wl IHl Wr IHr|l n Wl IHl|r n Wr IHr].
  - reflexivity.
  - pose proof (wf_is_leaf_both l r n Wl) as E.
    rewrite symbols_node by exact E. cbn [leaf_paths]. rewrite E.
    rewrite map_app, !map_map. cbn [sym_at subtree].
    fold (sym_at l). fold (sym_at r).
    rewrite IHl, IHr. apply Permutation_app_comm.
  - pose proof (wf_is_leaf_both l NoNode n Wl) as E.
    rewrite symbols_node by exact E. cbn [leaf_paths]. rewrite E.
    cbn [symbols map app leaf_paths]. rewrite app_nil_r, map_map.
    cbn [sym_at subtree]. fold (sym_at l). exact IHl.
  - pose proof (wf_is_leaf_right NoNode r n Wr) as E.
    rewrite symbols_node by exact E. cbn [leaf_paths]. rewrite E.
    cbn [symbols map app leaf_paths]. rewrite app_nil_r, map_map.
    cbn [sym_at subtree]. fold (sym_at r). exact IHr.
Qed.

Lemma weight_paths (w : Z -> Z) (t : HuffmanNode) :
  wf_tree t -> weight w t = total (map (fun p => w (sym_at t p)) (leaf_paths t)).
Proof.
  intro W. unfold weight.
  rewrite (total_perm _ _ (Permutation_map w (symbols_paths t W))).
  now rewrite map_map.
Qed.

Lemma cost_paths (w : Z -> Z) (t : HuffmanNode) :
  wf_tree t ->
  cost w t = total (map (fun p => len p * w (sym_at t p)) (leaf_paths t)).
Proof.
  intro W. induction W as [s n|l r n Wl IHl Wr IHr|l n Wl IHl|r n Wr IHr].
  - reflexivity.
  - pose proof (wf_is_leaf_both l r n Wl) as E.
    rewrite cost_node by exact E. cbn [leaf_paths]. rewrite E.
    rewrite map_app, total_app, !map_map.
    rewrite (total_map_ext _ (fun q => (1 + len q) * w (sym_at l q)) (leaf_paths l))
      by (intros q _; now rewrite len_cons).
    rewrite (total_map_ext _ (fun q => (1 + len q) * w (sym_at r q)) (leaf_paths r))
      by (intros q _; now rewrite len_cons).
    rewrite !(total_map_succ_gen (fun q => len q)).
    rewrite <- IHl, <- IHr, <- !weight_paths by assumption. lia.
  - pose proof (wf_is_leaf_both l NoNode n Wl) as E.
    rewrite cost_node by exact E. cbn [leaf_paths]. rewrite E.
    cbn [map leaf_paths]. rewrite app_nil_r, map_map.
    rewrite (total_map_ext _ (fun q => (1 + len q) * w (sym_at l q)) (leaf_paths l))
      by (intros q _; now rewrite len_cons).
    rewrite !(total_map_succ_gen (fun q => len q)).
    rewrite <- IHl, <- !weight_paths by assumption.
    rewrite weight_NoNode, cost_NoNode. lia.
  - pose proof (wf_is_leaf_right NoNode r n Wr) as E.
    rewrite cost_node by exact E. cbn [leaf_paths]. rewrite E.
    cbn [map leaf_paths app]. rewrite map_map.
    rewrite (total_map_ext _ (fun q => (1 + len q) * w (sym_at r q)) (leaf_paths r))
      by (intros q _; now rewrite len_cons).
    rewrite !(total_map_succ_gen (fun q => len q)).
    rewrite <- IHr, <- !weight_paths by assumption.
    rewrite weight_NoNode, cost_NoNode. lia.
Qed.

Lemma total_dot {A : Type} (d g : A -> Z) (l : list A) :
  total (map (fun x => d x * g x) l) = dot (map d l) (map g l).
Proof.
  induction l as [|x l IH]; [reflexivity|].
  cbn [map dot]. now rewrite total_cons, IH.
Qed.

(** ** improve_tree does not raise the average length *)

Lemma leaf_paths_is_leaf (t : HuffmanNode) (p : list dir) :
  In p (leaf_paths t) -> is_leaf (subtree t p) = true.
Proof.
  revert p. induction t as [|s l IHl r IHr n]; intros p I; [destruct I|].
  cbn [leaf_paths] in I. destruct (is_leaf (Node s l r n)) eqn:E.
  - destruct I as [<-|[]]. exact E.
  - apply in_app_or in I. destruct I as [I|I]; apply in_map_iff in I;
      destruct I as [q [<- I]]; cbn [subtree]; auto.
Qed.

Lemma NoDup_leaf_paths (t : HuffmanNode) : NoDup (leaf_paths t).
Proof.
  induction t as [|s l IHl r IHr n]; [constructor|].
  cbn [leaf_paths]. destruct (is_leaf (Node s l r n)).
  - constructor; [intros []|constructor].
  - apply NoDup_app.
    + apply Finite.Injective_map_NoDup; [|exact IHl]. intros x y [= E]. exact E.
    + apply Finite.Injective_map_NoDup; [|exact IHr]. intros x y [= E]. exact E.
    + intros p I1 I2. apply in_map_iff in I1, I2.
      destruct I1 as [q1 [<- _]], I2 as [q2 [[=] _]].
Qed.

Lemma under_root (t : HuffmanNode) : under t [[]] = leaf_paths t.
Proof.
  unfold under. cbn. rewrite app_nil_r. apply map_id.
Qed.

Lemma wf_symbols_nonempty (t : HuffmanNode) : wf_tree t -> symbols t <> [].
Proof.
  intro W. induction W as [s n|l r n Wl IHl Wr IHr|l n Wl IHl|r n Wr IHr].
  - discriminate.
  - rewrite symbols_node by now apply wf_is_leaf_both.
    intro E. apply app_eq_nil in E. tauto.
  - rewrite symbols_node by now apply wf_is_leaf_both. exact IHl.
  - rewrite symbols_node by now apply wf_is_leaf_right.
    cbn [symbols]. now rewrite app_nil_r.
Qed.

Lemma StronglySorted_map_impl {A B : Type} (R : A -> A -> Prop) (R' : B -> B -> Prop)
    (f : A -> B) (l : list A) :
  (forall a b, R a b -> R' (f a) (f b)) ->
  StronglySorted R l -> StronglySorted R' (map f l).
Proof.
  intro H. induction 1 as [|x l S IH F]; cbn; constructor; [exact IH|].
  apply Forall_map. eapply Forall_impl; [|exact F]. intros a Ra. now apply H.
Qed.

Lemma improve_tree_assign (tree : HuffmanNode) (fd : dict Z Z) :
  wf_tree tree -> Permutation (symbols tree) (dict_keys fd) ->
  let ds := bfs_order (S (node_count tree)) tree [[]] in
  Permutation ds (leaf_paths tree)
  /\ length ds = length (sorted_items fd)
  /\ improve_tree tree fd = Ok (assign tree ds (sorted_items fd)).
Proof.
  intros W P ds.
  assert (V : forall p, In p [[]] -> truthy (subtree tree p) = true).
  { intros p [<-|[]]. now apply wf_truthy. }
  assert (Pds : Permutation ds (leaf_paths tree)).
  { rewrite <- under_root. apply bfs_order_perm; [exact V|].
    rewrite pending_cons. cbn. lia. }
  assert (Hlen : length ds = length (sorted_items fd)).
  { rewrite (Permutation_length Pds).
    rewrite <- (length_map (sym_at tree)).
    rewrite <- (Permutation_length (symbols_paths tree W)).
    rewrite (Permutation_length P), sorted_items_length.
    unfold dict_keys. apply length_map. }
  split; [exact Pds|]. split; [exact Hlen|].
  unfold improve_tree. fold (sorted_items fd).
  apply improve_loop_assign; [apply same_shape_refl|exact V|].
  fold ds. lia.
Qed.

(** C9.  For every tree whose leaves carry the keys of the frequency map,
    each key once, improve_tree returns a tree of the same shape whose average
    code length for this map is at most the one before. *)
Theorem improve_tree_no_regression (tree : HuffmanNode) (fd : dict Z Z) :
  wf_tree tree ->
  Permutation (symbols tree) (dict_keys fd) ->
  NoDup (dict_keys fd) ->
  (forall k f, In (k, f) fd -> 0 < f) ->
  exists tree' q q',
    improve_tree tree fd = Ok tree'
    /\ same_shape tree tree'
    /\ avg_length tree fd = Ok q
    /\ avg_length tree' fd = Ok q'
    /\ (q' <= q)%Q.
Proof.
  intros W P N Hpos.
  set (w := freq_of fd). set (fl := sorted_items fd).
  destruct (improve_tree_assign tree fd W P) as [Pds [Hlen E]].
  set (ds := bfs_order (S (node_count tree)) tree [[]]) in *.
  set (t' := assign tree ds fl).
  assert (Hne : fd <> []).
  { intro E0. apply (wf_symbols_nonempty tree W).
    rewrite E0 in P. cbn in P. symmetry in P. now apply Permutation_nil in P. }
  assert (Sh : same_shape tree t') by apply assign_shape.
  assert (Hleaf : forall p, In p ds -> is_leaf (subtree tree p) = true).
  { intros p I. apply leaf_paths_is_leaf. eapply Permutation_in; eassumption. }
  assert (W' : wf_tree t') by now apply assign_wf.
  assert (Nds : NoDup ds).
  { eapply Permutation_NoDup; [symmetry; exact Pds|apply NoDup_leaf_paths]. }
  assert (Esyms : map (sym_at t') ds = map snd (rev fl)).
  { unfold t'. rewrite assign_syms; trivial.
    - rewrite firstn_all2; [reflexivity|]. rewrite length_rev. fold fl in Hlen. lia.
    - intros p I. specialize (Hleaf p I).
      destruct (subtree tree p) as [|? [|] [|] ?]; discriminate || reflexivity.
    - fold fl in Hlen. lia. }
  assert (Pfl : Permutation (map snd (rev fl)) (dict_keys fd)).
  { rewrite <- (Permutation_rev fl). apply sorted_items_keys. }
  assert (P' : Permutation (symbols t') (dict_keys fd)).
  { rewrite (symbols_paths t' W'), <- (same_shape_leaf_paths _ _ Sh).
    rewrite <- (Permutation_map (sym_at t') Pds), Esyms. exact Pfl. }
  destruct (alphabet_tree_avg fd tree Hne N Hpos W P) as [EW [HW A]].
  destruct (alphabet_tree_avg fd t' Hne N Hpos W' P') as [EW' [HW' A']].
  exists t', (inject_Z (cost w tree) / inject_Z (weight w tree))%Q,
         (inject_Z (cost w t') / inject_Z (weight w t'))%Q.
  split; [exact E|]. split; [exact Sh|]. split; [exact A|]. split; [exact A'|].
  unfold w. rewrite EW', <- EW. apply Qdiv_le_mono; [exact HW|]. fold w.
  (* both costs as sums of products along the order of the loop *)
  assert (C : cost w tree = dot (map len ds) (map w (map (sym_at tree) ds))).
  { rewrite (cost_paths w tree W).
    rewrite <- (total_perm _ _ (Permutation_map _ Pds)).
    now rewrite total_dot, map_map. }
  assert (C' : cost w t' = dot (map len ds) (map w (map snd (rev fl)))).
  { rewrite (cost_paths w t' W'), <- (same_shape_leaf_paths _ _ Sh).
    rewrite <- (total_perm _ _ (Permutation_map _ Pds)).
    now rewrite total_dot, <- Esyms, map_map. }
  rewrite C, C'. apply rearrangement.
  - apply (StronglySorted_map_impl lenle).
    + intros a b. unfold lenle, len. lia.
    + apply bfs_order_sorted.
      * repeat constructor.
      * intros q1 q2 [<-|[]] [<-|[]]. cbn. lia.
  - rewrite !map_rev. apply (StronglySorted_rev Z.le).
    apply (StronglySorted_map_impl (fun s s' => w s <= w s')); [tauto|].
    now apply sorted_symbols.
  - apply Permutation_map. rewrite Pfl, <- P.
    rewrite (symbols_paths tree W). now apply Permutation_map.
  - rewrite !length_map, length_rev. exact Hlen.
Qed.

Lemma improve_tree_no_regression_witness :
  let tree := mkNode None (mkNode None (leaf 99) (leaf 100))
                (mkNode None (leaf 101) (mkNode None (leaf 97) (leaf 98))) in
  let fd := [(98, 23); (97, 26); (101, 15); (100, 16); (99, 20)] in
  exists tree' q q',
    improve_tree tree fd = Ok tree'
    /\ same_shape tree tree'
    /\ avg_length tree fd = Ok q
    /\ avg_length tree' fd = Ok q'
    /\ (q' <= q)%Q.
Proof.
  apply improve_tree_no_regression.
  - repeat constructor.
  - cbn. reflexivity.
  - cbn. repeat constructor; cbn; intuition discriminate.
  - intros k f I. cbn in I.
    repeat (destruct I as [[= <- <-]|I]; [lia|]). destruct I.
Defined.

(** ** Numbering and serialization of a tree of two-children nodes *)

Lemma bcount_nonneg (b : btree) : 0 <= bcount b.
Proof. induction b; cbn [bcount]; lia. Qed.

Lemma truthy_embed_num (b : btree) (n : Z) : truthy (embed_num b n) = true.
Proof. now destruct b. Qed.

Lemma is_leaf_embed_num (b : btree) (n : Z) :
  is_leaf (embed_num b n) = match b with BLeaf _ => true | BNode _ _ => false end.
Proof.
  destruct b as [s|l r]; [reflexivity|].
  cbn [embed_num]. now rewrite is_leaf_truthy, !truthy_embed_num.
Qed.

Lemma number_internal_embed (b : btree) (n : Z) :
  number_internal (embed b) n = (embed_num b n, n + bcount b).
Proof.
  revert n. induction b as [s|l IHl r IHr]; intro n.
  - cbn. f_equal. lia.
  - cbn [embed]. unfold mkNode. rewrite number_internal_node.
    pose proof (is_leaf_embed_node l r) as E. cbn [embed] in E. unfold mkNode in E.
    rewrite E. cbv zeta. rewrite IHl. cbn [fst snd]. rewrite IHr. cbn [fst snd].
    cbn [embed_num bcount]. f_equal. lia.
Qed.

Lemma count_internal_embed (b : btree) : count_internal (embed b) = bcount b.
Proof.
  induction b as [s|l IHl r IHr]; [reflexivity|].
  pose proof (is_leaf_embed_node l r) as E. cbn [embed] in *. unfold mkNode in *.
  rewrite count_internal_node, E, IHl, IHr. reflexivity.
Qed.

Lemma wf_embed_num (b : btree) (n : Z) : wf_tree (embed_num b n).
Proof.
  revert n. induction b as [s|l IHl r IHr]; intro n; cbn; [constructor|].
  apply wf_both; auto.
Qed.

Lemma symbols_embed_num (b : btree) (n : Z) :
  symbols (embed_num b n) = symbols (embed b).
Proof.
  revert n. induction b as [s|l IHl r IHr]; intro n; [reflexivity|].
  pose proof (is_leaf_embed_num (BNode l r) n) as E.
  pose proof (is_leaf_embed_node l r) as E'.
  cbn [embed embed_num] in *. unfold mkNode in *.
  rewrite !symbols_node by assumption. now rewrite IHl, IHr.
Qed.

Lemma get_path_embed_num (b : btree) (n : Z) (a : option Z) :
  get_path (embed_num b n) a = get_path (embed b) a
  /\ contains (embed_num b n) a = contains (embed b) a.
Proof.
  revert n. induction b as [s|l IHl r IHr]; intro n; [split; reflexivity|].
  destruct (IHl n) as [Pl Cl]. destruct (IHr (n + bcount l)) as [Pr Cr].
  cbn. rewrite Pl, Pr, Cl, Cr. split; reflexivity.
Qed.

Lemma child_entry (b : btree) (n : Z) :
  match embed_num b n with
  | NoNode => []
  | Node s _ _ k => if is_leaf (embed_num b n) then [Some 0; s] else [Some 1; k]
  end = [Some (child_type b); Some (child_data b n)].
Proof.
  destruct b as [s|l r]; [reflexivity|].
  rewrite is_leaf_embed_num. reflexivity.
Qed.

Lemma flatten_app (r1 r2 : list ReadNode) : flatten (r1 ++ r2) = flatten r1 ++ flatten r2.
Proof. apply flat_map_app. Qed.

Lemma is_byte_range (z : Z) : is_byte z = true <-> 0 <= z < 256.
Proof. unfold is_byte. lia. Qed.

Lemma child_data_byte (b : btree) (n : Z) :
  Forall (fun s => is_byte s = true) (bleaves b) ->
  0 <= n -> n + bcount b <= 256 ->
  is_byte (child_type b) = true /\ is_byte (child_data b n) = true.
Proof.
  intros F Hn Hb. destruct b as [s|l r]; cbn [child_type child_data bcount bleaves] in *.
  - split; [reflexivity|]. now inversion F.
  - split; [reflexivity|]. apply is_byte_range.
    pose proof (bcount_nonneg l). pose proof (bcount_nonneg r). lia.
Qed.

(** tree_to_bytes writes the records of the numbered tree. *)
Lemma tree_to_bytes_records (b : btree) :
  forall n : Z,
    Forall (fun s => is_byte s = true) (bleaves b) ->
    0 <= n -> n + bcount b <= 256 ->
    tree_to_bytes (embed_num b n) = Ok (flatten (records b n)).
Proof.
  induction b as [s|l IHl r IHr]; intros n F Hn Hb; [reflexivity|].
  cbn [bleaves] in F. apply Forall_app in F. destruct F as [Fl Fr].
  pose proof (bcount_nonneg l). pose proof (bcount_nonneg r).
  cbn [bcount] in Hb.
  cbn [embed_num tree_to_bytes]. rewrite !truthy_embed_num.
  rewrite IHl by (trivial; lia). cbn [bind].
  rewrite IHr by (trivial; lia). cbn [bind].
  rewrite (child_entry l n), (child_entry r (n + bcount l)).
  destruct (child_data_byte l n Fl) as [T1 D1]; [lia|lia|].
  destruct (child_data_byte r (n + bcount l) Fr) as [T2 D2]; [lia|lia|].
  cbn [app py_bytes mapM byte_of]. rewrite T1, D1, T2, D2. cbn [bind].
  cbn [records]. rewrite !flatten_app. reflexivity.
Qed.

Lemma records_length (b : btree) (n : Z) : len (records b n) = bcount b.
Proof.
  revert n. induction b as [s|l IHl r IHr]; intro n; [reflexivity|].
  cbn [records bcount]. rewrite !len_app, IHl, IHr. unfold len. cbn [length]. lia.
Qed.

(** ** Reading the records back *)

Lemma py_index_nth {A : Type} (l : list A) (i : Z) (x : A) :
  0 <= i -> nth_error l (Z.to_nat i) = Some x -> py_index l i = Ok x.
Proof.
  intros Hi E. unfold py_index.
  destruct (i <? 0) eqn:E1; [apply Z.ltb_lt in E1; lia|].
  rewrite E1. now rewrite E.
Qed.

Lemma py_index_middle {A : Type} (xs ys : list A) (y : A) (i : Z) :
  i = len xs -> py_index (xs ++ y :: ys) i = Ok y.
Proof.
  intros ->. apply py_index_nth; [apply len_nonneg|].
  unfold len. rewrite Nat2Z.id, nth_error_app2 by lia.
  now rewrite Nat.sub_diag.
Qed.

Lemma mapM_app {A B : Type} (f : A -> result B) (l1 l2 : list A) (o1 o2 : list B) :
  mapM f l1 = Ok o1 -> mapM f l2 = Ok o2 -> mapM f (l1 ++ l2) = Ok (o1 ++ o2).
Proof.
  revert o1. induction l1 as [|x l1 IH]; intros o1 E1 E2; cbn in *.
  - injection E1 as <-. exact E2.
  - destruct (f x) as [y|]; [|discriminate]. cbn [bind] in *.
    destruct (mapM f l1) as [ys|]; [|discriminate]. cbn [bind] in *.
    injection E1 as <-. now rewrite (IH ys eq_refl E2).
Qed.

Lemma read_records (recs : list ReadNode) :
  forall (pre post : list Z) (m : nat),
    length pre = (4 * m)%nat ->
    mapM (fun i =>
            lt <- py_index (pre ++ flatten recs ++ post) i ;;
            ld <- py_index (pre ++ flatten recs ++ post) (i + 1) ;;
            rt <- py_index (pre ++ flatten recs ++ post) (i + 2) ;;
            rd <- py_index (pre ++ flatten recs ++ post) (i + 3) ;;
            Ok (mkReadNode lt ld rt rd))
         (map (fun k => 4 * Z.of_nat k) (seq m (length recs)))
    = Ok recs.
Proof.
  induction recs as [|[a b c d] recs IH]; intros pre post m Hpre; [reflexivity|].
  cbn [length seq map mapM flatten flat_map record_bytes l_type l_data r_type r_data app].
  fold (flatten recs).
  rewrite (py_index_middle pre _ a) by (unfold len; lia). cbn [bind].
  replace (pre ++ a :: b :: c :: d :: flatten recs ++ post)
    with ((pre ++ [a]) ++ b :: c :: d :: flatten recs ++ post)
    by now rewrite <- app_assoc.
  rewrite (py_index_middle (pre ++ [a]) _ b)
    by (unfold len; rewrite length_app; cbn [length]; lia). cbn [bind].
  replace ((pre ++ [a]) ++ b :: c :: d :: flatten recs ++ post)
    with ((pre ++ [a; b]) ++ c :: d :: flatten recs ++ post)
    by now rewrite <- !app_assoc.
  rewrite (py_index_middle (pre ++ [a; b]) _ c)
    by (unfold len; rewrite length_app; cbn [length]; lia). cbn [bind].
  replace ((pre ++ [a; b]) ++ c :: d :: flatten recs ++ post)
    with ((pre ++ [a; b; c]) ++ d :: flatten recs ++ post)
    by now rewrite <- !app_assoc.
  rewrite (py_index_middle (pre ++ [a; b; c]) _ d)
    by (unfold len; rewrite length_app; cbn [length]; lia). cbn [bind].
  replace ((pre ++ [a; b; c]) ++ d :: flatten recs ++ post)
    with ((pre ++ [a; b; c; d]) ++ flatten recs ++ post)
    by now rewrite <- !app_assoc.
  rewrite (IH (pre ++ [a; b; c; d]) post (S m))
    by (rewrite length_app; cbn [length]; lia).
  reflexivity.
Qed.

Lemma flatten_length (recs : list ReadNode) : len (flatten recs) = 4 * len recs.
Proof.
  induction recs as [|r recs IH]; [reflexivity|].
  cbn [flatten flat_map]. fold (flatten recs).
  rewrite len_app, IH. unfold len. cbn [length record_bytes]. lia.
Qed.

Lemma bytes_to_nodes_flatten (recs : list ReadNode) :
  bytes_to_nodes (flatten recs) = Ok recs.
Proof.
  unfold bytes_to_nodes, range4. rewrite flatten_length.
  replace (Z.to_nat ((4 * len recs + 3) / 4)) with (length recs).
  2:{ unfold len. replace (4 * Z.of_nat (length recs) + 3)
        with (Z.of_nat (length recs) * 4 + 3) by lia.
      rewrite Z.div_add_l by lia. cbn. lia. }
  pose proof (read_records recs [] [] 0 eq_refl) as E.
  cbn [app] in E. rewrite app_nil_r in E. exact E.
Qed.

(** ** Rebuilding the tree from its records *)

Lemma rebuild_leaf_or_node (c : btree) (m : Z) (sub : result HuffmanNode) :
  (forall l r, c = BNode l r -> sub = Ok (embed c)) ->
  (if child_type c =? 0 then Ok (mkNode (Some (child_data c m)) NoNode NoNode)
   else if child_type c =? 1 then sub else Ok NoNode)
  = Ok (embed c).
Proof.
  intro H. destruct c as [s|l r]; [reflexivity|]. cbn. eauto.
Qed.

(** generate_tree_general, from the root record of a tree of two-children
    nodes whose records stand at their numbers in the list. *)
Lemma generate_tree_general_records (b : btree) :
  forall (depth : nat) (n : Z) (pre post : list ReadNode) (l r : btree),
    b = BNode l r -> len pre = n -> bcount b <= Z.of_nat depth ->
    generate_tree_general depth (pre ++ records b n ++ post) (n + bcount b - 1)
    = Ok (embed b).
Proof.
  induction b as [s|bl IHl br IHr]; intros depth n pre post l r E Hn Hd;
    [discriminate|].
  clear l r E.
  pose proof (bcount_nonneg bl) as Hbl. pose proof (bcount_nonneg br) as Hbr.
  cbn [bcount] in *. destruct depth as [|depth]; [lia|].
  cbn [generate_tree_general records].
  set (root := mkReadNode (child_type bl) (child_data bl n)
                          (child_type br) (child_data br (n + bcount bl))).
  set (all := pre ++ (records bl n ++ records br (n + bcount bl) ++ [root]) ++ post).
  assert (Eall : all = (pre ++ records bl n ++ records br (n + bcount bl))
                         ++ root :: post).
  { unfold all. now rewrite <- !app_assoc. }
  rewrite Eall at 1. rewrite py_index_middle
    by (rewrite !len_app, !records_length; lia).
  cbn [bind l_type l_data r_type r_data root].
  rewrite (rebuild_leaf_or_node bl n).
  2:{ intros l r E. subst bl.
      replace (child_data (BNode l r) n) with (n + bcount (BNode l r) - 1)
        by (cbn [child_data bcount]; lia).
      unfold all. rewrite <- app_assoc.
      apply (IHl depth n pre _ l r); trivial. lia. }
  cbn [bind].
  rewrite (rebuild_leaf_or_node br (n + bcount bl)).
  2:{ intros l r E. subst br.
      replace (child_data (BNode l r) (n + bcount bl))
        with (n + bcount bl + bcount (BNode l r) - 1)
        by (cbn [child_data bcount]; lia).
      unfold all. rewrite <- !app_assoc, (app_assoc pre).
      apply (IHr depth (n + bcount bl) _ _ l r); trivial.
      - now rewrite len_app, records_length, Hn.
      - lia. }
  reflexivity.
Qed.

(** generate_tree_postorder, from the same place, finds the children by
    their places in the postorder. *)
Lemma generate_tree_postorder_records (b : btree) :
  forall (depth : nat) (n : Z) (pre post : list ReadNode) (l r : btree),
    b = BNode l r -> len pre = n -> bcount b <= Z.of_nat depth ->
    generate_tree_postorder depth (pre ++ records b n ++ post) (n + bcount b - 1)
    = Ok (embed b).
Proof.
  induction b as [s|bl IHl br IHr]; intros depth n pre post l r E Hn Hd;
    [discriminate|].
  clear l r E.
  pose proof (bcount_nonneg bl) as Hbl. pose proof (bcount_nonneg br) as Hbr.
  cbn [bcount] in *. destruct depth as [|depth]; [lia|].
  cbn [generate_tree_postorder records].
  set (root := mkReadNode (child_type bl) (child_data bl n)
                          (child_type br) (child_data br (n + bcount bl))).
  set (all := pre ++ (records bl n ++ records br (n + bcount bl) ++ [root]) ++ post).
  assert (Eall : all = (pre ++ records bl n ++ records br (n + bcount bl))
                         ++ root :: post).
  { unfold all. now rewrite <- !app_assoc. }
  rewrite Eall at 1. rewrite py_index_middle
    by (rewrite !len_app, !records_length; lia).
  cbn [bind l_type l_data r_type r_data root].
  rewrite (rebuild_leaf_or_node br (n + bcount bl)).
  2:{ intros l r E. subst br.
      replace (n + (1 + bcount bl + bcount (BNode l r)) - 1 - 1)
        with (n + bcount bl + bcount (BNode l r) - 1) by lia.
      unfold all. rewrite <- !app_assoc, (app_assoc pre).
      apply (IHr depth (n + bcount bl) _ _ l r); trivial.
      - now rewrite len_app, records_length, Hn.
      - lia. }
  cbn [bind]. rewrite count_internal_embed.
  rewrite (rebuild_leaf_or_node bl n).
  2:{ intros l r E. subst bl.
      replace (n + (1 + bcount (BNode l r) + bcount br) - 1 - bcount br - 1)
        with (n + bcount (BNode l r) - 1) by lia.
      unfold all. rewrite <- app_assoc.
      apply (IHl depth n pre _ l r); trivial. lia. }
  reflexivity.
Qed.

(** ** Packing bits into bytes *)

Lemma is_bit_cases (c : ascii) : is_bit c = true -> c = "0"%char \/ c = "1"%char.
Proof.
  unfold is_bit. rewrite orb_true_iff, !Ascii.eqb_eq. tauto.
Qed.

(** Eight bits make a byte, whose bits they are. *)
Lemma chunk_round_trip (chunk : str) :
  length chunk = 8%nat -> Forall (fun c => is_bit c = true) chunk ->
  exists v, bits_to_byte chunk = Ok v /\ is_byte v = true /\ byte_to_bits v = chunk.
Proof.
  intros Hlen F.
  do 8 (destruct chunk as [|? chunk]; [discriminate|]).
  destruct chunk; [|discriminate].
  repeat match goal with
         | H : Forall _ (_ :: _) |- _ =>
             let Hc := fresh "Hc" in
             let F' := fresh "F" in
             inversion H as [|? ? Hc F']; clear H; subst;
             apply is_bit_cases in Hc
         end.
  repeat match goal with
         | H : _ \/ _ |- _ => destruct H; subst
         end;
    (eexists; split; [vm_compute; reflexivity|split; vm_compute; reflexivity]).
Qed.

Lemma mapM_ext {A B : Type} (f g : A -> result B) (l : list A) :
  (forall x, f x = g x) -> mapM f l = mapM g l.
Proof.
  intro E. induction l as [|x l IH]; [reflexivity|]. cbn. now rewrite E, IH.
Qed.

Lemma mapM_map {A B C : Type} (f : B -> result C) (g : A -> B) (l : list A) :
  mapM f (map g l) = mapM (fun x => f (g x)) l.
Proof.
  induction l as [|x l IH]; [reflexivity|]. cbn. now rewrite IH.
Qed.

Lemma slice_shift {A : Type} (r : list A) (i : nat) :
  slice r (8 * S i) (8 * S i + 8) = slice (skipn 8 r) (8 * i) (8 * i + 8).
Proof.
  unfold slice. rewrite skipn_skipn. f_equal; [lia|]. f_equal. lia.
Qed.

Lemma bits_of_cons (v : Z) (vs : list Z) : bits_of (v :: vs) = byte_to_bits v ++ bits_of vs.
Proof. reflexivity. Qed.

Lemma pack_chunks (n : nat) :
  forall r : str,
    length r = (8 * n)%nat -> Forall (fun c => is_bit c = true) r ->
    exists vs,
      mapM (fun i => bits_to_byte (slice r (8 * i) (8 * i + 8))) (seq 0 n) = Ok vs
      /\ Forall (fun v => is_byte v = true) vs
      /\ bits_of vs = r.
Proof.
  induction n as [|n IH]; intros r Hlen F.
  - exists []. destruct r; [|discriminate]. repeat split. constructor.
  - rewrite <- (firstn_skipn 8 r) in F. apply Forall_app in F. destruct F as [F1 F2].
    destruct (chunk_round_trip (firstn 8 r)) as [v [Ev [Bv Rv]]]; trivial.
    { rewrite length_firstn. lia. }
    destruct (IH (skipn 8 r)) as [vs [Evs [Bvs Rvs]]]; trivial.
    { rewrite length_skipn. lia. }
    exists (v :: vs). split; [|split].
    + cbn [seq mapM]. rewrite <- seq_shift, mapM_map.
      assert (E0 : slice r (8 * 0) (8 * 0 + 8) = firstn 8 r) by reflexivity.
      rewrite E0, Ev. cbn [bind].
      rewrite (mapM_ext _ (fun i => bits_to_byte (slice (skipn 8 r) (8 * i) (8 * i + 8))))
        by (intro i; now rewrite slice_shift).
      now rewrite Evs.
    + now constructor.
    + rewrite bits_of_cons, Rv, Rvs. apply firstn_skipn.
Qed.

Lemma py_bytes_bytes (vs : list Z) :
  Forall (fun v => is_byte v = true) vs -> py_bytes (map Some vs) = Ok vs.
Proof.
  induction 1 as [|v vs Hv F IH]; [reflexivity|].
  unfold py_bytes in *. cbn. rewrite Hv. cbn. now rewrite IH.
Qed.

Lemma foldM_codes (codes : dict (option Z) str) (code : Z -> str) (text : list Z) :
  (forall i, In i text -> dict_get codes (Some i) = Ok (code i)) ->
  forall acc : str,
    foldM (fun r i => c <- dict_get codes (Some i) ;; Ok (r ++ c)) text acc
    = Ok (acc ++ concat (map code text)).
Proof.
  induction text as [|i text IH]; intros H acc; cbn.
  - now rewrite app_nil_r.
  - rewrite (H i) by now left. cbn [bind].
    rewrite IH by (intros; apply H; now right).
    now rewrite <- app_assoc.
Qed.

(** The bytes of generate_compressed hold the codes of the text, one after
    the other, and then some '0' bits. *)
Lemma generate_compressed_bits (codes : dict (option Z) str) (code : Z -> str)
    (text : list Z) :
  (forall i, In i text -> dict_get codes (Some i) = Ok (code i)) ->
  (forall i, In i text -> Forall (fun c => is_bit c = true) (code i)) ->
  exists vs k,
    generate_compressed text codes = Ok vs
    /\ Forall (fun v => is_byte v = true) vs
    /\ bits_of vs = concat (map code text) ++ repeat "0"%char k.
Proof.
  intros Hc Hb. unfold generate_compressed.
  rewrite (foldM_codes codes code text Hc). cbn [bind app].
  set (r := concat (map code text)).
  set (k := Z.to_nat (8 - len r mod 8)).
  set (r2 := r ++ repeat "0"%char k).
  assert (Hmod : 0 <= len r mod 8 < 8) by (apply Z.mod_pos_bound; lia).
  assert (Hlen2 : len r2 = 8 * (len r / 8 + 1)).
  { unfold r2. rewrite len_app. unfold len at 2. rewrite repeat_length.
    unfold k. rewrite Z2Nat.id by lia.
    pose proof (Z.div_mod (len r) 8 ltac:(lia)). lia. }
  assert (Hnum : Z.to_nat (len r2 / 8) = Z.to_nat (len r / 8 + 1)).
  { rewrite Hlen2. f_equal. rewrite Z.mul_comm. apply Z.div_mul. lia. }
  assert (F2 : Forall (fun c => is_bit c = true) r2).
  { unfold r2. apply Forall_app. split.
    - unfold r. apply Forall_concat. apply Forall_map.
      apply Forall_forall. intros i I. now apply Hb.
    - apply Forall_forall. intros c I. apply repeat_spec in I. now subst. }
  destruct (pack_chunks (Z.to_nat (len r / 8 + 1)) r2) as [vs [Evs [Bvs Rvs]]];
    trivial.
  { pose proof (Z.div_pos (len r) 8 (len_nonneg r) ltac:(lia)) as Hq.
    revert Hlen2 Hq. generalize (len r / 8). intros q Hlen2 Hq.
    unfold len in Hlen2. lia. }
  exists vs, k. rewrite Hnum, Evs. cbn [bind].
  split; [now apply py_bytes_bytes|]. split; [exact Bvs|exact Rvs].
Qed.

(** ** Decoding the codes of a text *)

Lemma contains_embed (b : btree) (s : Z) :
  contains (embed b) (Some s) = true <-> In s (bleaves b).
Proof.
  rewrite (contains_symbols (embed b) s (wf_embed b)). split; intro I.
  - eapply Permutation_in; [apply symbols_embed|exact I].
  - eapply Permutation_in; [symmetry; apply symbols_embed|exact I].
Qed.

Lemma get_path_embed_node (l r : btree) (s : Z) :
  get_path (embed (BNode l r)) (Some s)
  = if contains (embed l) (Some s) then "0"%char :: get_path (embed l) (Some s)
    else "1"%char :: get_path (embed r) (Some s).
Proof. reflexivity. Qed.

Lemma get_path_bits (b : btree) (s : Z) :
  In s (bleaves b) -> Forall (fun c => is_bit c = true) (get_path (embed b) (Some s)).
Proof.
  induction b as [s'|l IHl r IHr]; intro I.
  - destruct I as [->|[]]. cbn. rewrite Z.eqb_refl. constructor.
  - rewrite get_path_embed_node.
    destruct (contains (embed l) (Some s)) eqn:C.
    + constructor; [reflexivity|]. apply IHl. now apply contains_embed.
    + constructor; [reflexivity|]. apply IHr.
      cbn [bleaves] in I. apply in_app_or in I. destruct I as [I|I]; [|exact I].
      apply contains_embed in I. congruence.
Qed.

(** The walk along the code of a symbol ends at its leaf and emits it. *)
Lemma walk_code (tree : HuffmanNode) (size : Z) (b : btree) :
  forall (l r : btree), b = BNode l r ->
  forall (s : Z) (rest : str) (lacc : list (option Z)),
    In s (bleaves b) ->
    uncompress_loop tree size (get_path (embed b) (Some s) ++ rest) (embed b) lacc
    = if len (lacc ++ [Some s]) =? size then lacc ++ [Some s]
      else uncompress_loop tree size rest tree (lacc ++ [Some s]).
Proof.
  induction b as [s'|bl IHl br IHr]; intros l r E s rest lacc I; [discriminate|].
  clear l r E. rewrite get_path_embed_node.
  destruct (contains (embed bl) (Some s)) eqn:C.
  - apply contains_embed in C.
    cbn [app uncompress_loop embed mkNode truthy node_left node_right].
    change (Ascii.eqb "0" "0") with true. change (Ascii.eqb "0" "1") with false.
    cbv iota. rewrite truthy_embed. cbn [andb].
    destruct bl as [s'|l r].
    + destruct C as [->|[]]. cbn [embed leaf mkNode is_leaf node_symbol get_path opt_eqb].
      rewrite Z.eqb_refl. reflexivity.
    + rewrite is_leaf_embed_node. now apply (IHl l r).
  - assert (Ir : In s (bleaves br)).
    { cbn [bleaves] in I. apply in_app_or in I. destruct I as [I|I]; [|exact I].
      apply contains_embed in I. congruence. }
    cbn [app uncompress_loop embed mkNode truthy node_left node_right].
    change (Ascii.eqb "1" "0") with false. change (Ascii.eqb "1" "1") with true.
    cbv iota. unfold mkNode. cbn [node_right]. rewrite truthy_embed. cbn [andb].
    destruct br as [s'|l r].
    + destruct Ir as [->|[]]. cbn [embed leaf mkNode is_leaf node_symbol get_path opt_eqb].
      rewrite Z.eqb_refl. reflexivity.
    + rewrite is_leaf_embed_node. now apply (IHr l r).
Qed.

Lemma decode_text (b l r : btree) (size : Z) (pad : str) :
  b = BNode l r ->
  forall (text : list Z) (lacc : list (option Z)),
    text <> [] -> (forall s, In s text -> In s (bleaves b)) ->
    len lacc + len text = size ->
    uncompress_loop (embed b) size
      (concat (map (fun s => get_path (embed b) (Some s)) text) ++ pad)
      (embed b) lacc
    = lacc ++ map Some text.
Proof.
  intro E. induction text as [|s text IH]; intros lacc Hne Hin Hsize; [congruence|].
  cbn [map concat]. rewrite <- app_assoc.
  rewrite (walk_code (embed b) size b l r E) by (apply Hin; now left).
  rewrite len_cons in Hsize. rewrite len_app.
  change (len [Some s]) with 1.
  destruct text as [|s2 text].
  - change (len []) with 0 in Hsize.
    destruct (len lacc + 1 =? size) eqn:T; [reflexivity|].
    apply Z.eqb_neq in T. lia.
  - destruct (len lacc + 1 =? size) eqn:T.
    + apply Z.eqb_eq in T. rewrite len_cons in Hsize.
      pose proof (len_nonneg text). lia.
    + rewrite IH.
      * now rewrite <- app_assoc.
      * discriminate.
      * intros x I. apply Hin. now right.
      * rewrite len_app. change (len [Some s]) with 1. lia.
Qed.

(** ** The size field *)

Lemma bytes_to_size_to_bytes (n : Z) :
  0 <= n < 2 ^ 32 ->
  exists sz, size_to_bytes n = Ok sz /\ length sz = 4%nat
             /\ Forall (fun v => is_byte v = true) sz /\ bytes_to_size sz = n.
Proof.
  intro Hn. unfold size_to_bytes.
  destruct ((0 <=? n) && (n <? 2 ^ 32)) eqn:E; [|lia].
  eexists. split; [reflexivity|]. split; [reflexivity|]. split.
  - repeat constructor; apply is_byte_range; apply Z.mod_pos_bound; lia.
  - cbn [bytes_to_size fold_right].
    change (2 ^ 8) with 256. change (2 ^ 16) with (256 * 256).
    change (2 ^ 24) with (256 * 256 * 256).
    rewrite <- !Z.div_div by lia.
    pose proof (Z.div_mod n 256 ltac:(lia)).
    pose proof (Z.div_mod (n / 256) 256 ltac:(lia)).
    pose proof (Z.div_mod (n / 256 / 256) 256 ltac:(lia)).
    pose proof (Z.div_mod (n / 256 / 256 / 256) 256 ltac:(lia)).
    assert (n / 256 / 256 / 256 / 256 = 0).
    { rewrite !Z.div_div by lia. apply Z.div_small. lia. }
    lia.
Qed.

(** ** The frequency dictionary of a text *)

Lemma dict_set_keys_present {V : Type} (d : dict Z V) (k : Z) (v : V) :
  In k (dict_keys d) -> dict_keys (dict_set d k v) = dict_keys d.
Proof.
  induction d as [|[k' v'] d IH]; cbn; [tauto|].
  intro I. destruct (keqb k k') eqn:E; [reflexivity|].
  cbn. f_equal. apply IH. destruct I as [->|I]; [|exact I].
  unfold keqb, KeyEq_Z in E. now rewrite Z.eqb_refl in E.
Qed.

Lemma freq_step_spec (d : dict Z Z) (c : Z) :
  NoDup (dict_keys d) -> (forall k f, In (k, f) d -> 0 < f) ->
  let d' := match dict_find d c with
            | None => dict_set d c 1
            | Some n => dict_set d c (n + 1)
            end in
  NoDup (dict_keys d')
  /\ (forall s, In s (dict_keys d') <-> s = c \/ In s (dict_keys d))
  /\ (forall k f, In (k, f) d' -> 0 < f).
Proof.
  intros N Hpos. destruct (dict_find d c) as [n|] eqn:F; cbv zeta.
  - pose proof (dict_find_some_key keqb_Z_spec d c n F) as I.
    rewrite (dict_set_keys_present d c (n + 1) I).
    split; [exact N|]. split.
    + intro s. split; [intro; now right|]. intros [->|?]; assumption.
    + intros k f I'. apply (dict_set_In keqb_Z_spec) in I'.
      destruct I' as [[-> ->]|I']; [|now apply (Hpos k)].
      pose proof (Hpos c n (dict_find_In keqb_Z_spec d c n F)). lia.
  - assert (Nc : ~ In c (dict_keys d)).
    { intro I. destruct (dict_find_key keqb_Z_spec d c I) as [v Fv]. congruence. }
    rewrite (dict_set_new keqb_Z_spec d c 1 Nc).
    unfold dict_keys. rewrite map_app. cbn [map fst]. fold (dict_keys d).
    split; [|split].
    + eapply Permutation_NoDup; [apply Permutation_cons_append|].
      now constructor.
    + intro s. rewrite in_app_iff. cbn. intuition.
    + intros k f I. apply in_app_or in I. destruct I as [I|[[= <- <-]|[]]]; [|lia].
      now apply (Hpos k).
Qed.

Lemma make_freq_dict_fold (text : list Z) :
  forall d : dict Z Z,
    NoDup (dict_keys d) -> (forall k f, In (k, f) d -> 0 < f) ->
    let d' := fold_left
                (fun dic cha =>
                   match dict_find dic cha with
                   | None => dict_set dic cha 1
                   | Some c => dict_set dic cha (c + 1)
                   end) text d in
    NoDup (dict_keys d')
    /\ (forall s, In s (dict_keys d') <-> In s text \/ In s (dict_keys d))
    /\ (forall k f, In (k, f) d' -> 0 < f).
Proof.
  induction text as [|c text IH]; intros d N Hpos; cbn [fold_left].
  - split; [exact N|]. split; [|exact Hpos]. intro s. cbn. tauto.
  - destruct (freq_step_spec d c N Hpos) as [N1 [K1 P1]].
    destruct (IH _ N1 P1) as [N2 [K2 P2]].
    split; [exact N2|]. split; [|exact P2].
    intro s. rewrite K2, K1. cbn [In].
    assert (Hs : s = c <-> c = s) by (split; congruence).
    rewrite Hs. tauto.
Qed.

Lemma make_freq_dict_spec (text : list Z) :
  NoDup (dict_keys (make_freq_dict text))
  /\ (forall s, In s (dict_keys (make_freq_dict text)) <-> In s text)
  /\ (forall k f, In (k, f) (make_freq_dict text) -> 0 < f).
Proof.
  destruct (make_freq_dict_fold text []) as [N [K P]].
  - constructor.
  - intros k f [].
  - split; [exact N|]. split; [|exact P].
    intro s. unfold make_freq_dict. rewrite K. cbn. tauto.
Qed.

(** ** At most 256 symbols *)

Lemma NoDup_bytes_length (l : list Z) :
  NoDup l -> Forall (fun v => is_byte v = true) l -> (length l <= 256)%nat.
Proof.
  intros N F.
  apply Nat.le_trans with (length (map Z.of_nat (seq 0 256))).
  - apply NoDup_incl_length; [exact N|].
    intros z I. rewrite Forall_forall in F. apply F, is_byte_range in I.
    apply in_map_iff. exists (Z.to_nat z). split; [lia|].
    apply in_seq. lia.
  - rewrite length_map, length_seq. apply le_n.
Qed.

Lemma bleaves_length (b : btree) : len (bleaves b) = bcount b + 1.
Proof.
  induction b as [s|l IHl r IHr]; [reflexivity|].
  cbn [bleaves bcount]. rewrite len_app. lia.
Qed.

(** ** Serialization and reconstruction of a tree of two-children nodes *)

(** For a numbered tree all of whose internal nodes have two children, both
    reconstructions give back the tree (without its numbers) from the bytes
    of tree_to_bytes. *)
Lemma serialization_round_trip (b l r : btree) (depth : nat) :
  b = BNode l r ->
  Forall (fun s => is_byte s = true) (bleaves b) ->
  bcount b <= 256 -> bcount b <= Z.of_nat depth ->
  exists buf node_lst,
    tree_to_bytes (number_nodes (embed b)) = Ok buf
    /\ bytes_to_nodes buf = Ok node_lst
    /\ len node_lst = bcount b
    /\ generate_tree_general depth node_lst (len node_lst - 1) = Ok (embed b)
    /\ generate_tree_postorder depth node_lst (len node_lst - 1) = Ok (embed b).
Proof.
  intros E F Hb Hd.
  exists (flatten (records b 0)), (records b 0).
  unfold number_nodes. rewrite number_internal_embed. cbn [fst].
  split; [apply tree_to_bytes_records; trivial; lia|].
  split; [apply bytes_to_nodes_flatten|].
  split; [apply records_length|].
  rewrite records_length.
  pose proof (generate_tree_general_records b depth 0 [] [] l r E eq_refl Hd) as G.
  pose proof (generate_tree_postorder_records b depth 0 [] [] l r E eq_refl Hd) as P.
  cbn [app] in G, P. rewrite app_nil_r in G, P. now split.
Qed.

(** ** The round trip *)

Lemma read_app (n : Z) (a rest : list Z) :
  length a = Z.to_nat n -> read n (a ++ rest) = (a, rest).
Proof.
  intro E. unfold read. rewrite <- E. f_equal.
  - rewrite firstn_app, Nat.sub_diag, firstn_all. cbn. apply app_nil_r.
  - rewrite skipn_app, Nat.sub_diag, skipn_all. reflexivity.
Qed.

Lemma num_nodes_to_bytes_embed (b l r : btree) :
  b = BNode l r -> bcount b <= 255 ->
  num_nodes_to_bytes (embed_num b 0) = Ok [bcount b].
Proof.
  intros -> Hb. pose proof (bcount_nonneg l). pose proof (bcount_nonneg r).
  cbn [bcount] in Hb.
  cbn [embed_num num_nodes_to_bytes py_bytes mapM byte_of bcount].
  replace (0 + bcount l + bcount r + 1) with (1 + bcount l + bcount r) by lia.
  replace (is_byte (1 + bcount l + bcount r)) with true
    by (symmetry; apply is_byte_range; lia).
  reflexivity.
Qed.

(** C1, as the code has it.  For every byte sequence of at least two
    different byte values and of fewer than 2^32 bytes, compress succeeds and
    uncompress gives the sequence back from its output (with room for a
    recursion of depth 256). *)
Theorem compress_uncompress_round_trip (text : list Z) (depth : nat) :
  Forall (fun v => is_byte v = true) text ->
  len text < 2 ^ 32 ->
  (exists a c, In a text /\ In c text /\ a <> c) ->
  (256 <= depth)%nat ->
  exists out, compress text = Ok out /\ uncompress depth out = Ok text.
Proof.
  intros Fb Hlen [a [c [Ia [Ic Hac]]]] Hd.
  destruct (make_freq_dict_spec text) as [N [K Pos]].
  set (fd := make_freq_dict text) in *.
  assert (Hfd : (2 <= length fd)%nat).
  { apply (proj2 (K a)) in Ia. apply (proj2 (K c)) in Ic.
    destruct fd as [|x [|y fd']]; cbn in *; [tauto|intuition congruence|lia]. }
  destruct (huffman_tree_loop fd Hfd) as [f [b [El E]]].
  pose proof (huffman_tree_loop_leaves fd f b El) as Pb.
  assert (Hin : forall s, In s text -> In s (bleaves b)).
  { intros s I. eapply Permutation_in; [symmetry; exact Pb|]. now apply K. }
  assert (Fl : Forall (fun s => is_byte s = true) (bleaves b)).
  { apply Forall_forall. intros s I. apply (Permutation_in _ Pb), K in I.
    rewrite Forall_forall in Fb. now apply Fb. }
  assert (Nb : NoDup (bleaves b)).
  { eapply Permutation_NoDup; [symmetry; exact Pb|exact N]. }
  assert (Hcount : bcount b <= 255).
  { pose proof (NoDup_bytes_length _ Nb Fl). pose proof (bleaves_length b).
    unfold len in *. lia. }
  assert (Eb : exists l r, b = BNode l r).
  { destruct b as [s|l r]; [|eauto]. apply Permutation_length in Pb.
    unfold dict_keys in Pb. rewrite length_map in Pb. cbn in Pb. lia. }
  destruct Eb as [l [r Eb]].
  set (t := embed b) in *.
  assert (Psym : Permutation (symbols t) (dict_keys fd)).
  { unfold t. now rewrite symbols_embed. }
  assert (Nsym : NoDup (symbols t)).
  { eapply Permutation_NoDup; [symmetry; exact Psym|exact N]. }
  assert (Hcodes : forall i, In i text ->
            dict_get (get_codes t) (Some i) = Ok (get_path t (Some i))).
  { intros i I. rewrite get_codes_wf by (trivial; apply wf_embed).
    unfold dict_get. rewrite (dict_find_map keqb_symbol_spec); [reflexivity|].
    apply in_map. eapply Permutation_in; [symmetry; exact Psym|]. now apply K. }
  assert (Hbits : forall i, In i text ->
            Forall (fun c => is_bit c = true) (get_path t (Some i))).
  { intros i I. now apply get_path_bits, Hin. }
  destruct (generate_compressed_bits (get_codes t) (fun s => get_path t (Some s))
              text Hcodes Hbits) as [vs [k [Ec [Bvs Rvs]]]].
  destruct (bytes_to_size_to_bytes (len text)) as [sz [Esz [Lsz [Bsz Rsz]]]].
  { split; [apply len_nonneg|exact Hlen]. }
  assert (Hne : fd <> []) by (destruct fd; [cbn in Hfd; lia|discriminate]).
  destruct (alphabet_tree_avg fd (embed_num b 0) Hne N Pos (wf_embed_num b 0))
    as [_ [_ Eq]].
  { now rewrite symbols_embed_num. }
  exists ([bcount b] ++ flatten (records b 0) ++ sz ++ vs). split.
  - unfold compress. fold fd. rewrite E. cbn [bind]. fold t.
    unfold number_nodes, t. rewrite number_internal_embed. cbn [fst].
    rewrite Eq. cbn [bind].
    rewrite (num_nodes_to_bytes_embed b l r Eb Hcount). cbn [bind].
    rewrite tree_to_bytes_records by (trivial; lia). cbn [bind].
    rewrite Esz. cbn [bind]. fold t. rewrite Ec. reflexivity.
  - unfold uncompress.
    rewrite (read_app 1 [bcount b]) by reflexivity.
    change (py_index [bcount b] 0) with (Ok (bcount b)). cbn [bind].
    rewrite (read_app (bcount b * 4) (flatten (records b 0))).
    2:{ pose proof (flatten_length (records b 0)) as L.
        rewrite records_length in L. unfold len in L.
        pose proof (bcount_nonneg b). lia. }
    rewrite bytes_to_nodes_flatten. cbn [bind].
    pose proof (generate_tree_general_records b depth 0 [] [] l r Eb eq_refl
                  ltac:(lia)) as G.
    cbn [app] in G. rewrite app_nil_r, Z.add_0_l in G. rewrite G. cbn [bind].
    rewrite (read_app 4 sz) by (rewrite Lsz; reflexivity).
    rewrite Rsz. unfold generate_uncompressed. fold (bits_of vs). rewrite Rvs.
    fold t.
    rewrite (decode_text b l r (len text) _ Eb text []); trivial.
    + cbn [app]. now apply py_bytes_bytes.
    + intro E0. subst text. destruct Ia.
Qed.

Lemma compress_uncompress_round_trip_witness :
  exists out, compress [1; 2; 1; 0; 2; 2; 2] = Ok out
              /\ uncompress 256 out = Ok [1; 2; 1; 0; 2; 2; 2].
Proof.
  apply (compress_uncompress_round_trip [1; 2; 1; 0; 2; 2; 2] 256).
  - repeat constructor.
  - reflexivity.
  - exists 1, 2. cbn. intuition discriminate.
  - apply le_n.
Defined.

(** ** A text too long for the size field *)

Lemma make_freq_dict_cons2 (a c : Z) (rest : list Z) :
  make_freq_dict (a :: c :: rest)
  = fold_left
      (fun dic cha =>
         match dict_find dic cha with
         | None => dict_set dic cha 1
         | Some n => dict_set dic cha (n + 1)
         end)
      rest (make_freq_dict [a; c]).
Proof. reflexivity. Qed.

Lemma freq_dict_zeros (n : nat) :
  forall m : Z,
    fold_left
      (fun dic cha =>
         match dict_find dic cha with
         | None => dict_set dic cha 1
         | Some n => dict_set dic cha (n + 1)
         end)
      (repeat 0 n) [(1, 1); (0, m)]
    = [(1, 1); (0, m + Z.of_nat n)].
Proof.
  induction n as [|n IH]; intro m.
  - cbn. do 3 f_equal. lia.
  - cbn [repeat fold_left]. change (dict_find [(1, 1); (0, m)] 0) with (Some m).
    cbv iota.
    change (dict_set [(1, 1); (0, m)] 0 (m + 1)) with [(1, 1); (0, m + 1)].
    rewrite IH. do 3 f_equal. lia.
Qed.

Lemma big_text_length : len big_text = 2 ^ 32.
Proof.
  unfold big_text. rewrite !len_cons. unfold len.
  rewrite repeat_length, Z2Nat.id; lia.
Qed.

Lemma big_text_freq : make_freq_dict big_text = [(1, 1); (0, 2 ^ 32 - 1)].
Proof.
  unfold big_text. rewrite make_freq_dict_cons2.
  change (make_freq_dict [1; 0]) with [(1, 1); (0, 1)].
  rewrite freq_dict_zeros, Z2Nat.id by lia. reflexivity.
Qed.

Lemma compress_overflow (text : list Z) :
  make_freq_dict text = [(1, 1); (0, 2 ^ 32 - 1)] -> len text = 2 ^ 32 ->
  compress text = Raise OverflowError.
Proof.
  intros Hfd Hlen. unfold compress. rewrite Hfd, Hlen.
  assert (Et : huffman_tree [(1, 1); (0, 2 ^ 32 - 1)]
               = Ok (mkNode None (leaf 1) (leaf 0))) by (vm_compute; reflexivity).
  rewrite Et. cbn [bind].
  assert (Ea : exists q, avg_length (number_nodes (mkNode None (leaf 1) (leaf 0)))
                           [(1, 1); (0, 2 ^ 32 - 1)] = Ok q)
    by (eexists; vm_compute; reflexivity).
  destruct Ea as [q Ea]. rewrite Ea. cbn [bind].
  assert (En : num_nodes_to_bytes (number_nodes (mkNode None (leaf 1) (leaf 0)))
               = Ok [1]) by reflexivity.
  rewrite En. cbn [bind].
  assert (Eb : tree_to_bytes (number_nodes (mkNode None (leaf 1) (leaf 0)))
               = Ok [0; 1; 0; 0]) by reflexivity.
  rewrite Eb. cbn [bind].
  assert (Es : size_to_bytes (2 ^ 32) = Raise OverflowError) by reflexivity.
  rewrite Es. cbn [bind]. reflexivity.
Qed.

(** C1 as stated fails: a sequence of 2^32 bytes is not empty, and compress
    raises OverflowError on it, when it turns the length into four bytes. *)
Lemma compress_big_text_overflow :
  big_text <> [] /\ compress big_text = Raise OverflowError.
Proof.
  split; [discriminate|].
  exact (compress_overflow big_text big_text_freq big_text_length).
Qed.

(** ** The length of the packed output *)

Lemma foldM_codes_length (codes : dict (option Z) str) (text : list Z) :
  forall acc r : str,
    foldM (fun r i => c <- dict_get codes (Some i) ;; Ok (r ++ c)) text acc = Ok r ->
    exists cs, mapM (fun i => dict_get codes (Some i)) text = Ok cs
               /\ r = acc ++ concat cs.
Proof.
  induction text as [|i text IH]; intros acc r E; cbn in E.
  - injection E as <-. exists []. split; [reflexivity|]. cbn. now rewrite app_nil_r.
  - cbn [mapM]. destruct (dict_get codes (Some i)) as [c|]; [|discriminate].
    cbn [bind] in *. destruct (IH _ _ E) as [cs [Ecs ->]].
    exists (c :: cs). rewrite Ecs. split; [reflexivity|].
    cbn. now rewrite <- app_assoc.
Qed.

(** Whenever generate_compressed returns, it returns one byte more than the
    whole bytes that the bits of the codes fill: a sequence of bits that
    ends on a byte boundary is followed by a byte of padding. *)
Lemma generate_compressed_length (text : list Z) (codes : dict (option Z) str)
    (out : list Z) :
  generate_compressed text codes = Ok out ->
  exists cs, mapM (fun i => dict_get codes (Some i)) text = Ok cs
             /\ len out = len (concat cs) / 8 + 1.
Proof.
  unfold generate_compressed. intro E.
  destruct (foldM _ text []) as [r|] eqn:Er; [|discriminate]. cbn [bind] in E.
  destruct (foldM_codes_length codes text [] r Er) as [cs [Ecs Hr]].
  cbn [app] in Hr. subst r. exists cs. split; [exact Ecs|].
  set (r := concat cs) in *.
  destruct (mapM _ (seq 0 _)) as [l|] eqn:El; [|discriminate]. cbn [bind] in E.
  apply mapM_length in E, El. rewrite length_map in E. rewrite length_seq in El.
  assert (Hmod : 0 <= len r mod 8 < 8) by (apply Z.mod_pos_bound; lia).
  assert (Hlen2 : len (r ++ repeat "0"%char (Z.to_nat (8 - len r mod 8)))
                  = (len r / 8 + 1) * 8).
  { rewrite len_app. unfold len at 2. rewrite repeat_length, Z2Nat.id by lia.
    pose proof (Z.div_mod (len r) 8 ltac:(lia)). lia. }
  rewrite Hlen2, Z.div_mul in El by lia.
  pose proof (Z.div_pos (len r) 8 (len_nonneg r) ltac:(lia)).
  unfold len at 1. lia.
Qed.

(** ** The helpers on bytes and bits *)

Lemma gather_lists_acc {A : Type} (list_ : list (list A)) (acc : list A) :
  fold_left (fun new_list l => new_list ++ l) list_ acc = acc ++ concat list_.
Proof.
  revert acc. induction list_ as [|l list_ IH]; intro acc; cbn.
  - now rewrite app_nil_r.
  - now rewrite IH, app_assoc.
Qed.

(** X1.  gather_lists returns the sublists joined in their order. *)
Theorem gather_lists_concat {A : Type} (list_ : list (list A)) :
  gather_lists list_ = concat list_.
Proof. unfold gather_lists. now rewrite gather_lists_acc. Qed.

Lemma get_bit_b2z (byte bit_num : Z) :
  0 <= bit_num -> get_bit byte bit_num = Z.b2z (Z.testbit byte bit_num).
Proof.
  intro Hk. unfold get_bit. apply Z.bits_inj'. intros m Hm.
  rewrite Z.shiftr_spec, Z.land_spec, Z.shiftl_spec by lia.
  change 1 with (2 ^ 0) at 1. rewrite Z.pow2_bits_eqb by lia.
  destruct (Z.eqb_spec 0 (m + bit_num - bit_num)) as [E|E].
  - assert (m = 0) by lia. subst m. cbn [Z.add].
    rewrite andb_true_r. now rewrite Z.b2z_bit0.
  - rewrite andb_false_r. destruct (Z.testbit byte bit_num); cbn [Z.b2z].
    + change 1 with (2 ^ 0). rewrite Z.pow2_bits_eqb by lia.
      symmetry. apply Z.eqb_neq. lia.
    + now rewrite Z.bits_0.
Qed.

(** X2.  For a bit number that is not negative, get_bit returns the bit of
    that place in the two's complement form of the int: 1 when it is set
    and 0 when it is not. *)
Theorem get_bit_testbit (byte bit_num : Z) :
  0 <= bit_num ->
  get_bit byte bit_num = if Z.testbit byte bit_num then 1 else 0.
Proof. intro H. rewrite get_bit_b2z by exact H. now destruct (Z.testbit _ _). Qed.

Lemma get_bit_testbit_witness :
  get_bit 5 2 = (if Z.testbit 5 2 then 1 else 0).
Proof. apply (get_bit_testbit 5 2). lia. Defined.

Lemma get_bit_mod (byte bit_num : Z) :
  0 <= bit_num < 8 -> get_bit (byte mod 256) bit_num = get_bit byte bit_num.
Proof.
  intro H. rewrite !get_bit_b2z by lia. f_equal.
  change 256 with (2 ^ 8). apply Z.mod_pow2_bits_low. lia.
Qed.

Lemma byte_to_bits_mod (byte : Z) : byte_to_bits (byte mod 256) = byte_to_bits byte.
Proof.
  unfold byte_to_bits. cbn [map]. now rewrite !get_bit_mod by lia.
Qed.

Lemma byte_to_bits_enum (n : nat) :
  (n < 256)%nat ->
  bits_to_byte (byte_to_bits (Z.of_nat n)) = Ok (Z.of_nat n)
  /\ length (byte_to_bits (Z.of_nat n)) = 8%nat
  /\ forallb is_bit (byte_to_bits (Z.of_nat n)) = true.
Proof.
  intro Hn.
  do 256 (destruct n as [|n]; [vm_compute; repeat split|]).
  lia.
Qed.

(** X3.  The eight characters of byte_to_bits are bits, and bits_to_byte
    reads from them the low eight bits of the int: a byte comes back as it
    was. *)
Theorem bits_to_byte_byte_to_bits (byte : Z) :
  length (byte_to_bits byte) = 8%nat
  /\ forallb is_bit (byte_to_bits byte) = true
  /\ bits_to_byte (byte_to_bits byte) = Ok (byte mod 256).
Proof.
  rewrite <- byte_to_bits_mod.
  assert (H : 0 <= byte mod 256 < 256) by (apply Z.mod_pos_bound; lia).
  destruct (byte_to_bits_enum (Z.to_nat (byte mod 256))) as [E [L F]]; [lia|].
  rewrite Z2Nat.id in * by lia. now repeat split.
Qed.

(** X4.  Eight bits make a byte, and byte_to_bits gives the eight bits
    back. *)
Theorem byte_to_bits_bits_to_byte (bits : str) :
  length bits = 8%nat -> forallb is_bit bits = true ->
  exists byte, bits_to_byte bits = Ok byte
               /\ 0 <= byte < 256
               /\ byte_to_bits byte = bits.
Proof.
  intros L F. rewrite forallb_forall in F.
  destruct (chunk_round_trip bits L) as [v [E [B R]]].
  - now apply Forall_forall.
  - exists v. split; [exact E|]. split; [now apply is_byte_range|exact R].
Qed.

Lemma byte_to_bits_bits_to_byte_witness :
  exists byte, bits_to_byte ["0"; "0"; "0"; "0"; "0"; "1"; "0"; "1"]%char = Ok byte
               /\ 0 <= byte < 256
               /\ byte_to_bits byte = ["0"; "0"; "0"; "0"; "0"; "1"; "0"; "1"]%char.
Proof.
  apply (byte_to_bits_bits_to_byte ["0"; "0"; "0"; "0"; "0"; "1"; "0"; "1"]%char);
    reflexivity.
Defined.

Lemma sum_app_zeros (vs : list Z) (k : nat) : sum (vs ++ repeat 0 k) = sum vs.
Proof.
  rewrite !sum_total, total_app.
  assert (total (repeat 0 k) = 0)
    by (induction k; [reflexivity|cbn [repeat]; rewrite total_cons; lia]).
  lia.
Qed.

Lemma bits_to_byte_from_zeros (k : nat) :
  forall pos : Z,
    pos + Z.of_nat k <= 8 ->
    bits_to_byte_from pos (repeat "0"%char k) = Ok (repeat 0 k).
Proof.
  induction k as [|k IH]; intros pos H; [reflexivity|].
  cbn [repeat bits_to_byte_from].
  change (int_of_char "0") with (Ok 0). cbn [bind].
  destruct (7 - pos <? 0) eqn:E; [lia|]. cbn [bind].
  rewrite IH by lia. cbn [bind]. now rewrite Z.shiftl_0_l.
Qed.

Lemma bits_to_byte_from_pad (bits : str) (k : nat) :
  forall pos : Z,
    pos + Z.of_nat (length bits) + Z.of_nat k <= 8 ->
    bits_to_byte_from pos (bits ++ repeat "0"%char k)
    = (vs <- bits_to_byte_from pos bits ;; Ok (vs ++ repeat 0 k)).
Proof.
  induction bits as [|c bits IH]; intros pos H.
  - cbn [app bits_to_byte_from bind]. apply bits_to_byte_from_zeros.
    cbn [length] in H. lia.
  - cbn [app bits_to_byte_from length] in *.
    destruct (int_of_char c) as [d|e]; [|reflexivity]. cbn [bind].
    destruct (7 - pos <? 0); [reflexivity|]. cbn [bind].
    rewrite IH by lia.
    destruct (bits_to_byte_from (pos + 1) bits); reflexivity.
Qed.

(** X5.  bits_to_byte pads on the right: zeros added after the bits, up to
    eight characters in all, do not change the result. *)
Theorem bits_to_byte_padded_right (bits : str) (k : nat) :
  (length bits + k <= 8)%nat ->
  bits_to_byte (bits ++ repeat "0"%char k) = bits_to_byte bits.
Proof.
  intro H. unfold bits_to_byte. rewrite bits_to_byte_from_pad by lia.
  destruct (bits_to_byte_from 0 bits) as [vs|e]; [|reflexivity].
  cbn [bind]. now rewrite sum_app_zeros.
Qed.

Lemma bits_to_byte_padded_right_witness :
  bits_to_byte (["1"; "0"; "1"]%char ++ repeat "0"%char 5)
  = bits_to_byte ["1"; "0"; "1"]%char.
Proof.
  apply (bits_to_byte_padded_right ["1"; "0"; "1"]%char 5). cbn. lia.
Defined.

Lemma int_of_char_error (c : ascii) (e : exn) :
  int_of_char c = Raise e -> e = ValueError.
Proof.
  unfold int_of_char. destruct (_ && _); [discriminate|]. now intros [= <-].
Qed.

Lemma bits_to_byte_from_long (bits : str) :
  forall pos : Z,
    pos <= 8 -> 8 < pos + Z.of_nat (length bits) ->
    bits_to_byte_from pos bits = Raise ValueError.
Proof.
  induction bits as [|c bits IH]; intros pos H1 H2; [cbn in H2; lia|].
  cbn [bits_to_byte_from length] in *.
  destruct (int_of_char c) as [d|e] eqn:E.
  - cbn [bind]. destruct (7 - pos <? 0) eqn:E1; [reflexivity|]. cbn [bind].
    rewrite IH by lia. reflexivity.
  - apply int_of_char_error in E. now subst.
Qed.

(** X6.  bits_to_byte takes eight characters at most: on a longer string it
    raises ValueError (a character that is no digit, or the shift by a
    negative count at the ninth place). *)
Theorem bits_to_byte_too_long (bits : str) :
  (8 < length bits)%nat -> bits_to_byte bits = Raise ValueError.
Proof.
  intro H. unfold bits_to_byte. rewrite bits_to_byte_from_long by lia. reflexivity.
Qed.

Lemma bits_to_byte_too_long_witness :
  bits_to_byte (repeat "0"%char 9) = Raise ValueError.
Proof. apply (bits_to_byte_too_long (repeat "0"%char 9)). cbn. lia. Defined.

(** ** Counting the bytes of a text *)

Section DictFacts3.
Context {K V : Type} `{KeyEq K}.
Hypothesis keqb_spec : forall x y : K, keqb x y = true <-> x = y.

Lemma dict_find_set (d : dict K V) (k k' : K) (v : V) :
  dict_find (dict_set d k v) k' = if keqb k' k then Some v else dict_find d k'.
Proof.
  induction d as [|[k0 v0] d IH]; cbn [dict_set dict_find]; [reflexivity|].
  destruct (keqb k k0) eqn:E.
  - apply keqb_spec in E. subst k0. cbn [dict_find].
    now destruct (keqb k' k).
  - cbn [dict_find]. rewrite IH.
    destruct (keqb k' k0) eqn:E0; [|reflexivity].
    apply keqb_spec in E0. subst k0.
    destruct (keqb k' k) eqn:E1; [|reflexivity].
    apply keqb_spec in E1. subst k'.
    now rewrite (keqb_refl keqb_spec) in E.
Qed.
End DictFacts3.

Lemma count_cons (c : Z) (text : list Z) (s : Z) :
  count (c :: text) s = (if s =? c then 1 else 0) + count text s.
Proof.
  unfold count. cbn [count_occ].
  destruct (Z.eq_dec c s) as [->|N].
  - rewrite Z.eqb_refl. lia.
  - destruct (Z.eqb_spec s c); [congruence|lia].
Qed.

Lemma count_nonneg (text : list Z) (s : Z) : 0 <= count text s.
Proof. unfold count. lia. Qed.

Lemma freq_fold_find (text : list Z) (s : Z) :
  forall d : dict Z Z,
    dict_find
      (fold_left
         (fun dic cha =>
            match dict_find dic cha with
            | None => dict_set dic cha 1
            | Some c => dict_set dic cha (c + 1)
            end) text d) s
    = match dict_find d s with
      | Some n => Some (n + count text s)
      | None => if count text s =? 0 then None else Some (count text s)
      end.
Proof.
  induction text as [|c text IH]; intro d.
  - cbn [fold_left]. change (count [] s) with 0.
    destruct (dict_find d s) as [n|]; [|reflexivity]. f_equal. lia.
  - cbn [fold_left]. rewrite IH, count_cons.
    pose proof (count_nonneg text s) as Hc.
    assert (Hk : keqb s c = (s =? c)) by reflexivity.
    destruct (dict_find d c) as [n|] eqn:F;
      rewrite (dict_find_set keqb_Z_spec), Hk;
      destruct (Z.eqb_spec s c) as [->|N].
    + rewrite F. f_equal. lia.
    + rewrite Z.add_0_l. reflexivity.
    + rewrite F. destruct (Z.eqb_spec (1 + count text c) 0); [lia|reflexivity].
    + rewrite Z.add_0_l. reflexivity.
Qed.

(** X7.  make_freq_dict maps each byte of the text to the number of its
    occurrences, and holds no other key. *)
Theorem make_freq_dict_counts (text : list Z) (s : Z) :
  dict_find (make_freq_dict text) s
  = if count text s =? 0 then None else Some (count text s).
Proof. unfold make_freq_dict. now rewrite freq_fold_find. Qed.

Lemma total_values_set (d : dict Z Z) (k v : Z) :
  total (map snd (dict_set d k v))
  = total (map snd d) + v - match dict_find d k with Some n => n | None => 0 end.
Proof.
  induction d as [|[k0 v0] d IH]; cbn [dict_set dict_find map snd].
  - rewrite !total_cons. cbn. lia.
  - destruct (keqb k k0); cbn [map snd]; rewrite !total_cons; [lia|].
    rewrite IH. lia.
Qed.

Lemma freq_fold_total (text : list Z) :
  forall d : dict Z Z,
    total (map snd
      (fold_left
         (fun dic cha =>
            match dict_find dic cha with
            | None => dict_set dic cha 1
            | Some c => dict_set dic cha (c + 1)
            end) text d))
    = total (map snd d) + len text.
Proof.
  induction text as [|c text IH]; intro d; cbn [fold_left].
  - change (len []) with 0. lia.
  - rewrite IH, len_cons.
    destruct (dict_find d c) as [n|] eqn:F; rewrite total_values_set, F; lia.
Qed.

(** X8.  The frequencies of make_freq_dict add up to the length of the
    text. *)
Theorem make_freq_dict_total (text : list Z) :
  sum (map snd (make_freq_dict text)) = len text.
Proof.
  rewrite sum_total. unfold make_freq_dict. rewrite freq_fold_total. cbn. lia.
Qed.

(** ** The size field *)

(** X9.  size_to_bytes returns four bytes for a size from 0 to 2^32 - 1,
    from which bytes_to_size reads the size back, and raises OverflowError
    for every other int. *)
Theorem size_to_bytes_spec (size : Z) :
  match size_to_bytes size with
  | Ok buf =>
      0 <= size < 2 ^ 32 /\ len buf = 4
      /\ Forall (fun v => is_byte v = true) buf
      /\ bytes_to_size buf = size
  | Raise e => e = OverflowError /\ (size < 0 \/ 2 ^ 32 <= size)
  end.
Proof.
  destruct (Z_lt_dec size 0) as [Hn|Hn].
  - unfold size_to_bytes. destruct (Z.leb_spec 0 size); [lia|].
    cbn [andb]. split; [reflexivity|lia].
  - destruct (Z_lt_dec size (2 ^ 32)) as [Hb|Hb].
    + destruct (bytes_to_size_to_bytes size) as [sz [E [L [F R]]]]; [lia|].
      rewrite E. split; [lia|]. split; [unfold len; now rewrite L|]. now split.
    + unfold size_to_bytes. destruct (Z.ltb_spec size (2 ^ 32)); [lia|].
      rewrite andb_false_r. split; [reflexivity|lia].
Qed.

Lemma byte_shift (a x : Z) :
  0 <= a < 256 -> (a + 256 * x) mod 256 = a /\ (a + 256 * x) / 256 = x.
Proof.
  intro H. split.
  - symmetry. apply (Z.mod_unique _ 256 x a); lia.
  - symmetry. apply (Z.div_unique _ 256 x a); lia.
Qed.

(** X10.  size_to_bytes writes the bytes from which bytes_to_size has read
    a size: four bytes come back as they were. *)
Theorem size_to_bytes_bytes_to_size (buf : list Z) :
  length buf = 4%nat -> Forall (fun v => is_byte v = true) buf ->
  size_to_bytes (bytes_to_size buf) = Ok buf.
Proof.
  intros L F.
  destruct buf as [|a [|b [|c [|d [|? ?]]]]]; try discriminate.
  repeat match goal with
         | H : Forall _ (_ :: _) |- _ =>
             let Hb := fresh "Hb" in
             inversion H as [|? ? Hb ?]; clear H; subst;
             apply is_byte_range in Hb
         end.
  cbn [bytes_to_size fold_right]. unfold size_to_bytes.
  set (n := a + 256 * (b + 256 * (c + 256 * (d + 256 * 0)))).
  assert (Hn : 0 <= n < 2 ^ 32) by (unfold n; lia).
  destruct (Z.leb_spec 0 n); [|lia]. destruct (Z.ltb_spec n (2 ^ 32)); [|lia].
  cbn [andb].
  change (2 ^ 8) with 256. change (2 ^ 16) with (256 * 256).
  change (2 ^ 24) with (256 * 256 * 256).
  rewrite <- !Z.div_div by lia. unfold n.
  destruct (byte_shift a (b + 256 * (c + 256 * (d + 256 * 0)))) as [-> ->]; [lia|].
  destruct (byte_shift b (c + 256 * (d + 256 * 0))) as [-> ->]; [lia|].
  destruct (byte_shift c (d + 256 * 0)) as [-> ->]; [lia|].
  destruct (byte_shift d 0) as [-> _]; [lia|].
  reflexivity.
Qed.

Lemma size_to_bytes_bytes_to_size_witness :
  size_to_bytes (bytes_to_size [44; 1; 0; 0]) = Ok [44; 1; 0; 0].
Proof.
  apply (size_to_bytes_bytes_to_size [44; 1; 0; 0]); [reflexivity|].
  repeat constructor.
Defined.

(** ** The records of a buffer *)

Lemma flatten_of_length (m : nat) :
  forall buf : list Z,
    length buf = (4 * m)%nat -> exists recs, flatten recs = buf.
Proof.
  induction m as [|m IH]; intros buf L.
  - destruct buf; [|discriminate]. now exists [].
  - destruct buf as [|a [|b [|c [|d buf]]]]; cbn [length] in L; try lia.
    destruct (IH buf) as [recs E]; [lia|].
    exists (mkReadNode a b c d :: recs). cbn. now rewrite <- E.
Qed.

Lemma mapM_Ok_In {A B : Type} (f : A -> result B) (l : list A) (out : list B) (x : A) :
  mapM f l = Ok out -> In x l -> exists y, f x = Ok y.
Proof.
  revert out. induction l as [|a l IH]; intros out E I; [destruct I|].
  cbn in E. destruct (f a) as [y|] eqn:Ea; [|discriminate]. cbn in E.
  destruct (mapM f l) as [ys|]; [|discriminate].
  destruct I as [<-|I]; [now exists y|]. now apply (IH ys).
Qed.

Lemma mapM_error {A B : Type} (f : A -> result B) (l : list A) (e e0 : exn) :
  (forall x e', f x = Raise e' -> e' = e0) -> mapM f l = Raise e -> e = e0.
Proof.
  intro Hf. induction l as [|a l IH]; cbn; [discriminate|].
  destruct (f a) as [y|e'] eqn:Ea; cbn.
  - destruct (mapM f l) as [ys|e'']; cbn; [discriminate|].
    intros [= <-]. now apply IH.
  - intros [= <-]. now apply (Hf a).
Qed.

Lemma py_index_error {A : Type} (l : list A) (i : Z) (e : exn) :
  py_index l i = Raise e -> e = IndexError.
Proof.
  unfold py_index. destruct (_ <? 0); [now intros [= <-]|].
  destruct (nth_error _ _); [discriminate|now intros [= <-]].
Qed.

Lemma py_index_Ok_bound {A : Type} (l : list A) (i : Z) (x : A) :
  0 <= i -> py_index l i = Ok x -> i < len l.
Proof.
  intros Hi. unfold py_index. destruct (Z.ltb_spec i 0); [lia|].
  destruct (Z.ltb_spec i 0); [lia|].
  destruct (nth_error l (Z.to_nat i)) eqn:E; [|discriminate].
  intros _. assert (Z.to_nat i < length l)%nat by (apply nth_error_Some; congruence).
  unfold len. lia.
Qed.

Lemma bytes_to_nodes_error (buf : list Z) (e : exn) :
  bytes_to_nodes buf = Raise e -> e = IndexError.
Proof.
  unfold bytes_to_nodes. apply mapM_error. intros i e'.
  destruct (py_index buf i) eqn:E0; cbn [bind];
    [|intros [= <-]; now apply py_index_error in E0].
  destruct (py_index buf (i + 1)) eqn:E1; cbn [bind];
    [|intros [= <-]; now apply py_index_error in E1].
  destruct (py_index buf (i + 2)) eqn:E2; cbn [bind];
    [|intros [= <-]; now apply py_index_error in E2].
  destruct (py_index buf (i + 3)) eqn:E3; cbn [bind];
    [discriminate|intros [= <-]; now apply py_index_error in E3].
Qed.

Lemma bytes_to_nodes_Ok_length (buf : list Z) (recs : list ReadNode) :
  bytes_to_nodes buf = Ok recs -> len buf mod 4 = 0.
Proof.
  intro E. pose proof (len_nonneg buf) as Hl.
  destruct (Z.eq_dec (len buf) 0) as [E0|N0]; [now rewrite E0|].
  set (m := (len buf + 3) / 4).
  assert (Hm : 4 * m <= len buf + 3 < 4 * m + 4).
  { unfold m. pose proof (Z.div_mod (len buf + 3) 4 ltac:(lia)).
    pose proof (Z.mod_pos_bound (len buf + 3) 4 ltac:(lia)). lia. }
  assert (I : In (4 * (m - 1)) (range4 (len buf))).
  { unfold range4. fold m. apply in_map_iff. exists (Z.to_nat (m - 1)).
    split; [lia|]. apply in_seq. lia. }
  unfold bytes_to_nodes in E.
  destruct (mapM_Ok_In _ _ _ _ E I) as [y Ey].
  destruct (py_index buf (4 * (m - 1))); [|discriminate]. cbn [bind] in Ey.
  destruct (py_index buf (4 * (m - 1) + 1)); [|discriminate]. cbn [bind] in Ey.
  destruct (py_index buf (4 * (m - 1) + 2)); [|discriminate]. cbn [bind] in Ey.
  destruct (py_index buf (4 * (m - 1) + 3)) eqn:E3; [|discriminate].
  apply py_index_Ok_bound in E3; [|lia].
  assert (len buf = 4 * m) by lia.
  replace (len buf) with (m * 4) by lia. apply Z.mod_mul. lia.
Qed.

Lemma bytes_to_nodes_Ok_flatten (buf : list Z) (recs : list ReadNode) :
  bytes_to_nodes buf = Ok recs -> flatten recs = buf.
Proof.
  intro E. pose proof (bytes_to_nodes_Ok_length buf recs E) as M.
  destruct (flatten_of_length (Z.to_nat (len buf / 4)) buf) as [recs' R].
  { pose proof (Z.div_mod (len buf) 4 ltac:(lia)).
    pose proof (len_nonneg buf). unfold len in *. lia. }
  subst buf. rewrite bytes_to_nodes_flatten in E. now injection E as ->.
Qed.

(** X11.  bytes_to_nodes cuts a buffer into records of four bytes.  When it
    returns, the fields of the records, one record after the other, are the
    bytes of the buffer; it raises IndexError when the length of the buffer
    is no multiple of 4, and has no other outcome. *)
Theorem bytes_to_nodes_spec (buf : list Z) :
  match bytes_to_nodes buf with
  | Ok node_lst => len buf mod 4 = 0 /\ flatten node_lst = buf
  | Raise e => len buf mod 4 <> 0 /\ e = IndexError
  end.
Proof.
  destruct (bytes_to_nodes buf) as [recs|e] eqn:E.
  - split; [now apply (bytes_to_nodes_Ok_length buf recs)|].
    now apply bytes_to_nodes_Ok_flatten.
  - split; [|now apply bytes_to_nodes_error in E].
    intro M.
    destruct (flatten_of_length (Z.to_nat (len buf / 4)) buf) as [recs R].
    { pose proof (Z.div_mod (len buf) 4 ltac:(lia)).
      pose proof (len_nonneg buf). unfold len in *. lia. }
    subst buf. rewrite bytes_to_nodes_flatten in E. discriminate.
Qed.

(** ** The code table of a tree *)

Section DictFacts4.
Context {K V : Type} `{KeyEq K}.
Hypothesis keqb_spec : forall x y : K, keqb x y = true <-> x = y.

Lemma fold_dict_set_find_out (f : K -> V) (l : list K) (k : K) :
  forall d : dict K V,
    ~ In k l ->
    dict_find (fold_left (fun dic a => dict_set dic a (f a)) l d) k = dict_find d k.
Proof.
  induction l as [|a l IH]; intros d N; [reflexivity|].
  cbn [fold_left]. rewrite IH by (cbn in N; tauto).
  rewrite (dict_find_set keqb_spec).
  rewrite (keqb_false keqb_spec); [reflexivity|]. cbn in N. intro E. subst. tauto.
Qed.

Lemma fold_dict_set_find_in (f : K -> V) (l : list K) (k : K) :
  (forall x y : K, {x = y} + {x <> y}) ->
  forall d : dict K V,
    In k l ->
    dict_find (fold_left (fun dic a => dict_set dic a (f a)) l d) k = Some (f k).
Proof.
  intro dec. induction l as [|a l IH]; intros d I; [destruct I|].
  cbn [fold_left]. destruct (in_dec dec k l) as [I'|N].
  - now apply IH.
  - rewrite fold_dict_set_find_out by exact N.
    destruct I as [->|I]; [|contradiction].
    now rewrite (dict_find_set keqb_spec), (keqb_refl keqb_spec).
Qed.
End DictFacts4.

Lemma symbol_eq_dec (x y : option Z) : {x = y} + {x <> y}.
Proof. decide equality. apply Z.eq_dec. Qed.

Lemma existsb_opt_eqb (a : option Z) (l : list (option Z)) :
  existsb (opt_eqb a) l = true <-> In a l.
Proof.
  rewrite existsb_exists. split.
  - intros [x [I E]]. apply opt_eqb_eq in E. now subst.
  - intro I. exists a. split; [exact I|apply opt_eqb_refl].
Qed.

Lemma get_codes_find_leaf (tree : HuffmanNode) (a : option Z) :
  In a (get_leaf tree) -> dict_find (get_codes tree) a = Some (get_path tree a).
Proof.
  intro I. unfold get_codes.
  now apply (fold_dict_set_find_in keqb_symbol_spec _ _ _ symbol_eq_dec).
Qed.

Lemma get_codes_find_other (tree : HuffmanNode) (a : option Z) :
  ~ In a (get_leaf tree) -> dict_find (get_codes tree) a = None.
Proof.
  intro N. unfold get_codes.
  now rewrite (fold_dict_set_find_out keqb_symbol_spec).
Qed.

(** X12.  get_codes maps the symbol of every leaf of the tree to the path
    that get_path finds for it, and holds no other key. *)
Theorem get_codes_lookup (tree : HuffmanNode) (a : option Z) :
  dict_find (get_codes tree) a
  = if existsb (opt_eqb a) (get_leaf tree) then Some (get_path tree a) else None.
Proof.
  destruct (existsb (opt_eqb a) (get_leaf tree)) eqn:E.
  - apply existsb_opt_eqb in E. now apply get_codes_find_leaf.
  - apply get_codes_find_other. intro I. apply existsb_opt_eqb in I. congruence.
Qed.

(** ** Packing the codes of a text *)

Lemma dict_get_error {K V : Type} `{KeyEq K} (d : dict K V) (k : K) (e : exn) :
  dict_get d k = Raise e -> e = KeyError.
Proof. unfold dict_get. destruct (dict_find d k); [discriminate|now intros [= <-]]. Qed.

Lemma foldM_codes_missing (codes : dict (option Z) str) (text : list Z) (i : Z) :
  In i text -> dict_find codes (Some i) = None ->
  forall acc : str,
    foldM (fun r i => c <- dict_get codes (Some i) ;; Ok (r ++ c)) text acc
    = Raise KeyError.
Proof.
  intros I F. induction text as [|a text IH]; intro acc; [destruct I|].
  cbn [foldM]. destruct (dict_get codes (Some a)) as [c|e] eqn:E.
  - cbn [bind]. apply IH. destruct I as [->|I]; [|exact I].
    unfold dict_get in E. now rewrite F in E.
  - apply dict_get_error in E. now subst.
Qed.

(** X13.  generate_compressed raises KeyError when a byte of the text has
    no code in the table. *)
Theorem generate_compressed_missing_code
    (text : list Z) (codes : dict (option Z) str) (i : Z) :
  In i text -> dict_find codes (Some i) = None ->
  generate_compressed text codes = Raise KeyError.
Proof.
  intros I F. unfold generate_compressed.
  now rewrite (foldM_codes_missing codes text i I F).
Qed.

Lemma generate_compressed_missing_code_witness :
  generate_compressed [1; 2; 3] [(Some 1, ["0"%char]); (Some 2, ["1"%char])]
  = Raise KeyError.
Proof.
  apply (generate_compressed_missing_code [1; 2; 3] _ 3); [|reflexivity].
  cbn. tauto.
Defined.

Lemma foldM_codes_mapM (codes : dict (option Z) str) (text : list Z) (cs : list str) :
  mapM (fun i => dict_get codes (Some i)) text = Ok cs ->
  forall acc : str,
    foldM (fun r i => c <- dict_get codes (Some i) ;; Ok (r ++ c)) text acc
    = Ok (acc ++ concat cs).
Proof.
  revert cs. induction text as [|i text IH]; intros cs E acc; cbn in E.
  - injection E as <-. cbn. now rewrite app_nil_r.
  - cbn [foldM]. destruct (dict_get codes (Some i)) as [c|]; [|discriminate].
    cbn [bind] in *.
    destruct (mapM _ text) as [cs'|]; [|discriminate]. cbn [bind] in E.
    injection E as <-. rewrite (IH cs' eq_refl). cbn. now rewrite <- app_assoc.
Qed.

(** The bytes of generate_compressed for a string of bits [r]. *)
Lemma pack_bits (r : str) :
  Forall (fun c => is_bit c = true) r ->
  let r2 := r ++ repeat "0"%char (Z.to_nat (8 - len r mod 8)) in
  exists vs,
    mapM (fun i => bits_to_byte (slice r2 (8 * i) (8 * i + 8)))
         (seq 0 (Z.to_nat (len r2 / 8))) = Ok vs
    /\ Forall (fun v => is_byte v = true) vs
    /\ bits_of vs = r2
    /\ len vs = len r / 8 + 1.
Proof.
  intros F r2.
  set (k := Z.to_nat (8 - len r mod 8)) in *.
  assert (Hmod : 0 <= len r mod 8 < 8) by (apply Z.mod_pos_bound; lia).
  assert (Hlen2 : len r2 = 8 * (len r / 8 + 1)).
  { unfold r2. rewrite len_app. unfold len at 2. rewrite repeat_length.
    unfold k. rewrite Z2Nat.id by lia.
    pose proof (Z.div_mod (len r) 8 ltac:(lia)). lia. }
  assert (Hnum : Z.to_nat (len r2 / 8) = Z.to_nat (len r / 8 + 1)).
  { rewrite Hlen2. f_equal. rewrite Z.mul_comm. apply Z.div_mul. lia. }
  assert (F2 : Forall (fun c => is_bit c = true) r2).
  { unfold r2. apply Forall_app. split; [exact F|].
    apply Forall_forall. intros c I. apply repeat_spec in I. now subst. }
  pose proof (Z.div_pos (len r) 8 (len_nonneg r) ltac:(lia)) as Hq.
  destruct (pack_chunks (Z.to_nat (len r / 8 + 1)) r2) as [vs [Evs [Bvs Rvs]]];
    trivial.
  { revert Hlen2 Hq. generalize (len r / 8). intros q Hlen2 Hq.
    unfold len in Hlen2. lia. }
  exists vs. rewrite Hnum. split; [exact Evs|]. split; [exact Bvs|].
  split; [exact Rvs|].
  apply mapM_length in Evs. rewrite length_seq in Evs. unfold len at 1. lia.
Qed.

(** X14.  When every byte of the text has a code of bits, generate_compressed
    returns bytes whose bits are the codes of the text, one after the other,
    followed by 8 - n mod 8 bits 0, for n bits of code: from one to eight
    bits of padding. *)
Theorem generate_compressed_layout
    (text : list Z) (codes : dict (option Z) str) (cs : list str) :
  mapM (fun i => dict_get codes (Some i)) text = Ok cs ->
  Forall (fun c => forallb is_bit c = true) cs ->
  exists out,
    generate_compressed text codes = Ok out
    /\ Forall (fun v => is_byte v = true) out
    /\ bits_of out
       = concat cs ++ repeat "0"%char (Z.to_nat (8 - len (concat cs) mod 8)).
Proof.
  intros E F. unfold generate_compressed.
  rewrite (foldM_codes_mapM codes text cs E). cbn [bind app].
  destruct (pack_bits (concat cs)) as [vs [Evs [Bvs [Rvs _]]]].
  { apply Forall_concat. eapply Forall_impl; [|exact F].
    intros c Hc. rewrite forallb_forall in Hc. now apply Forall_forall. }
  cbv zeta in Evs. exists vs. rewrite Evs. cbn [bind].
  split; [now apply py_bytes_bytes|]. now split.
Qed.

Lemma generate_compressed_layout_witness :
  exists out,
    generate_compressed [1; 2; 1; 0]
      [(Some 0, ["0"%char]); (Some 1, ["1"; "0"]%char); (Some 2, ["1"; "1"]%char)]
    = Ok out
    /\ Forall (fun v => is_byte v = true) out
    /\ bits_of out
       = concat [["1"; "0"]; ["1"; "1"]; ["1"; "0"]; ["0"]]%char
         ++ repeat "0"%char
              (Z.to_nat (8 - len (concat [["1"; "0"]; ["1"; "1"]; ["1"; "0"]; ["0"]]%char)
                              mod 8)).
Proof.
  apply (generate_compressed_layout [1; 2; 1; 0] _
           [["1"; "0"]; ["1"; "1"]; ["1"; "0"]; ["0"]]%char).
  - reflexivity.
  - repeat constructor.
Defined.

(** ** Packing and unpacking *)

Lemma get_leaf_embed (b : btree) : get_leaf (embed b) = map Some (rev (bleaves b)).
Proof.
  induction b as [s|l IHl r IHr]; [reflexivity|].
  cbn [embed]. unfold mkNode. rewrite get_leaf_both by apply truthy_embed.
  rewrite IHl, IHr. cbn [bleaves]. now rewrite rev_app_distr, map_app.
Qed.

Lemma get_codes_embed (b : btree) (s : Z) :
  In s (bleaves b) ->
  dict_get (get_codes (embed b)) (Some s) = Ok (get_path (embed b) (Some s)).
Proof.
  intro I. unfold dict_get. rewrite get_codes_find_leaf; [reflexivity|].
  rewrite get_leaf_embed. apply in_map. now apply in_rev in I.
Qed.

(** X15.  For a tree all of whose internal nodes have two children, what
    generate_compressed packs with the codes of the tree, generate_uncompressed
    unpacks: a text that is not empty, of bytes that are symbols of the tree,
    comes back from its packed form when its length is given as the size.
    The bits of padding are not read as symbols. *)
Theorem generate_uncompressed_generate_compressed (l r : btree) (text : list Z) :
  let tree := embed (BNode l r) in
  text <> [] ->
  Forall (fun v => is_byte v = true) text ->
  (forall s, In s text -> In s (bleaves (BNode l r))) ->
  exists out,
    generate_compressed text (get_codes tree) = Ok out
    /\ generate_uncompressed tree out (len text) = Ok text.
Proof.
  intros tree Hne Fb Hin.
  destruct (generate_compressed_bits (get_codes tree)
              (fun s => get_path tree (Some s)) text) as [vs [k [Ec [Bvs Rvs]]]].
  - intros i I. now apply get_codes_embed, Hin.
  - intros i I. now apply get_path_bits, Hin.
  - exists vs. split; [exact Ec|].
    unfold generate_uncompressed. fold (bits_of vs). rewrite Rvs.
    unfold tree.
    rewrite (decode_text (BNode l r) l r (len text) _ eq_refl text []); trivial.
    cbn [app]. now apply py_bytes_bytes.
Qed.

Lemma generate_uncompressed_generate_compressed_witness :
  let tree := embed (BNode (BLeaf 0) (BNode (BLeaf 1) (BLeaf 2))) in
  exists out,
    generate_compressed [1; 2; 1; 0; 0] (get_codes tree) = Ok out
    /\ generate_uncompressed tree out (len [1; 2; 1; 0; 0]) = Ok [1; 2; 1; 0; 0].
Proof.
  apply (generate_uncompressed_generate_compressed
           (BLeaf 0) (BNode (BLeaf 1) (BLeaf 2)) [1; 2; 1; 0; 0]).
  - discriminate.
  - repeat constructor.
  - intros s I. cbn in *. intuition.
Defined.

(** ** Decoding without a bound *)

Lemma uncompress_loop_unbounded (tree : HuffmanNode) (size : Z) (s : str) :
  forall (temp : HuffmanNode) (l : list (option Z)),
    size <= len l ->
    uncompress_loop tree size s temp l = l ++ decode_all tree s temp.
Proof.
  induction s as [|num s IH]; intros temp l Hl.
  - cbn. now rewrite app_nil_r.
  - cbn [uncompress_loop decode_all].
    destruct (truthy temp); [|now apply IH].
    cbv zeta.
    set (temp2 := if Ascii.eqb num "1" then _ else _).
    destruct (truthy temp2 && is_leaf temp2); [|now apply IH].
    assert (Hl1 : len (l ++ [node_symbol temp2]) = len l + 1)
      by (rewrite len_app; reflexivity).
    destruct (len (l ++ [node_symbol temp2]) =? size) eqn:E.
    + apply Z.eqb_eq in E. lia.
    + rewrite IH by lia. now rewrite <- app_assoc.
Qed.

(** X16.  A size of 0 (or less) is no bound: generate_uncompressed then
    returns every symbol that the walk over all the bits emits, the bits
    of padding included. *)
Theorem generate_uncompressed_size_zero
    (tree : HuffmanNode) (text : list Z) (size : Z) :
  size <= 0 ->
  generate_uncompressed tree text size
  = py_bytes (decode_all tree (bits_of text) tree).
Proof.
  intro H. unfold generate_uncompressed. fold (bits_of text).
  rewrite uncompress_loop_unbounded by (cbn; lia). reflexivity.
Qed.

Lemma generate_uncompressed_size_zero_witness :
  generate_uncompressed (mkNode None (leaf 3) (leaf 2)) [0] 0
  = py_bytes (decode_all (mkNode None (leaf 3) (leaf 2)) (bits_of [0])
                         (mkNode None (leaf 3) (leaf 2))).
Proof.
  apply (generate_uncompressed_size_zero (mkNode None (leaf 3) (leaf 2)) [0] 0).
  lia.
Defined.

(** ** Searching a tree *)

(** X17.  contains tells whether some node of the tree, a leaf or not,
    carries the value as its symbol. *)
Theorem contains_iff_node (node : HuffmanNode) (value : option Z) :
  contains node value = true
  <-> exists p, truthy (subtree node p) = true
                /\ node_symbol (subtree node p) = value.
Proof.
  split.
  - induction node as [|s l IHl r IHr num]; [discriminate|].
    cbn [contains]. rewrite !orb_true_iff. intros [[E|C]|C].
    + exists []. split; [reflexivity|]. now apply opt_eqb_eq.
    + destruct (IHl C) as [p Hp]. now exists (GoLeft :: p).
    + destruct (IHr C) as [p Hp]. now exists (GoRight :: p).
  - intros [p [T S]]. revert node T S.
    induction p as [|d p IH]; intros node T S.
    + destruct node as [|s l r num]; [discriminate|].
      cbn in S. subst. cbn [contains]. now rewrite opt_eqb_refl.
    + destruct node as [|s l r num]; [discriminate|].
      cbn [subtree] in T, S. cbn [contains].
      destruct d; rewrite (IH _ T S); now rewrite ?orb_true_r.
Qed.

(** X18.  For a value that the tree contains, get_path returns a string of
    bits, and the walk along these bits from the root ends at a node that
    carries the value. *)
Theorem get_path_present (t : HuffmanNode) (n : option Z) :
  contains t n = true ->
  forallb is_bit (get_path t n) = true
  /\ truthy (follow t (get_path t n)) = true
  /\ node_symbol (follow t (get_path t n)) = n.
Proof.
  induction t as [|s l IHl r IHr num]; [discriminate|].
  cbn [contains get_path]. intro C.
  destruct (opt_eqb s n) eqn:E.
  - apply opt_eqb_eq in E. now repeat split.
  - cbn [orb] in C. destruct (contains l n) eqn:Cl.
    + destruct (IHl eq_refl) as [B [T S]]. now repeat split.
    + cbn [orb] in C. destruct (IHr C) as [B [T S]]. now repeat split.
Qed.

Lemma get_path_present_witness :
  forallb is_bit (get_path (mkNode None (leaf 3) (leaf 2)) (Some 2)) = true
  /\ truthy (follow (mkNode None (leaf 3) (leaf 2))
                    (get_path (mkNode None (leaf 3) (leaf 2)) (Some 2))) = true
  /\ node_symbol (follow (mkNode None (leaf 3) (leaf 2))
                         (get_path (mkNode None (leaf 3) (leaf 2)) (Some 2)))
     = Some 2.
Proof. apply (get_path_present (mkNode None (leaf 3) (leaf 2)) (Some 2)). reflexivity. Defined.

(** X19.  For a value that the tree does not contain, get_path returns no
    code and raises nothing: its result is a run of '1', one for each node
    on the way down the right children, and a blank at the end. *)
Theorem get_path_absent (t : HuffmanNode) (n : option Z) :
  contains t n = false ->
  exists k, get_path t n = repeat "1"%char k ++ [" "%char].
Proof.
  induction t as [|s l IHl r IHr num]; intro C.
  - now exists O.
  - cbn [contains] in C. apply orb_false_iff in C. destruct C as [C Cr].
    apply orb_false_iff in C. destruct C as [E Cl].
    destruct (IHr Cr) as [k Hk]. exists (S k).
    cbn [get_path]. now rewrite E, Cl, Hk.
Qed.

Lemma get_path_absent_witness :
  exists k, get_path (mkNode None (leaf 3) (leaf 2)) (Some 7)
            = repeat "1"%char k ++ [" "%char].
Proof. apply (get_path_absent (mkNode None (leaf 3) (leaf 2)) (Some 7)). reflexivity. Defined.

(** ** What the numbering keeps *)

Lemma number_internal_fst_node (s : option Z) (l r : HuffmanNode) (num : option Z) (n : Z) :
  is_leaf (Node s l r num) = false ->
  fst (number_internal (Node s l r num) n)
  = Node s (fst (number_internal l n))
           (fst (number_internal r (n + count_internal l)))
           (Some (n + count_internal l + count_internal r)).
Proof.
  intro E. rewrite number_internal_node, E. cbn [fst].
  now rewrite !number_internal_snd.
Qed.

Lemma contains_number_internal (t : HuffmanNode) (a : option Z) :
  forall n : Z, contains (fst (number_internal t n)) a = contains t a.
Proof.
  induction t as [|s l IHl r IHr num]; intro n; [reflexivity|].
  destruct (is_leaf (Node s l r num)) eqn:E.
  - now rewrite number_internal_node, E.
  - rewrite number_internal_fst_node by exact E. cbn [contains].
    now rewrite IHl, IHr.
Qed.

Lemma get_path_number_internal (t : HuffmanNode) (a : option Z) :
  forall n : Z, get_path (fst (number_internal t n)) a = get_path t a.
Proof.
  induction t as [|s l IHl r IHr num]; intro n; [reflexivity|].
  destruct (is_leaf (Node s l r num)) eqn:E.
  - now rewrite number_internal_node, E.
  - rewrite number_internal_fst_node by exact E. cbn [get_path].
    now rewrite IHl, IHr, contains_number_internal.
Qed.

Lemma get_leaf_node (s : option Z) (l r : HuffmanNode) (num : option Z) :
  get_leaf (Node s l r num)
  = if is_leaf (Node s l r num) then [s] else get_leaf r ++ get_leaf l.
Proof.
  cbn [get_leaf]. destruct (is_leaf (Node s l r num)); [reflexivity|].
  unfold gather_lists. rewrite !gather_lists_acc.
  destruct r, l; cbn [truthy concat get_leaf app]; now rewrite ?app_nil_r.
Qed.

Lemma get_leaf_number_internal (t : HuffmanNode) :
  forall n : Z, get_leaf (fst (number_internal t n)) = get_leaf t.
Proof.
  induction t as [|s l IHl r IHr num]; intro n; [reflexivity|].
  destruct (is_leaf (Node s l r num)) eqn:E.
  - now rewrite number_internal_node, E.
  - pose proof (is_leaf_number_internal (Node s l r num) n) as E'.
    rewrite number_internal_fst_node in * by exact E.
    rewrite !get_leaf_node, E', E. now rewrite IHl, IHr.
Qed.

Lemma fold_left_eq {A B : Type} (f g : B -> A -> B) (l : list A) :
  (forall acc x, f acc x = g acc x) ->
  forall acc, fold_left f l acc = fold_left g l acc.
Proof.
  intro E. induction l as [|x l IH]; intro acc; [reflexivity|].
  cbn. now rewrite E, IH.
Qed.

(** X20.  The numbering changes no symbol and no child: the numbered tree
    has the leaves, the paths and the code table of the tree before.
    (compress takes the codes before it numbers the tree, and writes the
    tree after.) *)
Theorem number_nodes_keeps_codes (tree : HuffmanNode) :
  get_leaf (number_nodes tree) = get_leaf tree
  /\ (forall a, get_path (number_nodes tree) a = get_path tree a)
  /\ get_codes (number_nodes tree) = get_codes tree.
Proof.
  unfold number_nodes. split; [apply get_leaf_number_internal|].
  split; [intro a; apply get_path_number_internal|].
  unfold get_codes. rewrite get_leaf_number_internal.
  apply fold_left_eq. intros acc x. now rewrite get_path_number_internal.
Qed.

Lemma seq_numbers (n : Z) (a b : nat) :
  map (fun k => Some (n + Z.of_nat k)) (seq 0 (a + b))
  = map (fun k => Some (n + Z.of_nat k)) (seq 0 a)
    ++ map (fun k => Some (n + Z.of_nat a + Z.of_nat k)) (seq 0 b).
Proof.
  rewrite seq_app, map_app. f_equal. cbn [Nat.add].
  replace (seq a b) with (map (fun k => (a + k)%nat) (seq 0 b)).
  - rewrite map_map. apply map_ext. intro k. f_equal. lia.
  - clear. revert a. induction b as [|b IH]; intro a; [reflexivity|].
    cbn [seq map]. f_equal; [lia|].
    rewrite <- seq_shift, map_map. rewrite <- (IH (S a)).
    apply map_ext. intro k. lia.
Qed.

Lemma internal_numbers_postorder (t : HuffmanNode) :
  forall n : Z,
    internal_numbers (fst (number_internal t n))
    = map (fun k => Some (n + Z.of_nat k)) (seq 0 (Z.to_nat (count_internal t))).
Proof.
  induction t as [|s l IHl r IHr num]; intro n; [reflexivity|].
  destruct (is_leaf (Node s l r num)) eqn:E.
  - rewrite number_internal_node, count_internal_node, E. cbn [fst].
    rewrite internal_numbers_node, E. reflexivity.
  - pose proof (is_leaf_number_internal (Node s l r num) n) as E'.
    rewrite number_internal_fst_node in * by exact E.
    rewrite internal_numbers_node, E', E, count_internal_node, E.
    pose proof (count_internal_nonneg l) as Hl.
    pose proof (count_internal_nonneg r) as Hr.
    rewrite IHl, IHr.
    replace (Z.to_nat (1 + count_internal l + count_internal r))
      with (Z.to_nat (count_internal l) + (Z.to_nat (count_internal r) + 1))%nat
      by lia.
    rewrite !seq_numbers, !Z2Nat.id by lia. do 2 f_equal.
    cbn. do 2 f_equal. lia.
Qed.

(** X21.  number_nodes numbers the internal nodes in postorder from 0: read
    in postorder, their numbers are 0, 1, 2 and so on, up to the count of
    internal nodes less 1.  Numbers that the nodes had before are written
    over. *)
Theorem number_nodes_postorder (tree : HuffmanNode) :
  internal_numbers (number_nodes tree)
  = map (fun k => Some (Z.of_nat k)) (seq 0 (Z.to_nat (count_internal tree))).
Proof.
  unfold number_nodes. rewrite internal_numbers_postorder.
  apply map_ext. intro k. f_equal.
Qed.

(** ** The shape of the tree of huffman_tree *)

(** X22.  From two keys on, every internal node of the tree of huffman_tree
    has two children; its leaves carry the keys of the dictionary, each key
    on one leaf, and there is one internal node less than there are keys. *)
Theorem huffman_tree_full (freq_dict : dict Z Z) :
  (2 <= length freq_dict)%nat ->
  exists tree b,
    huffman_tree freq_dict = Ok tree
    /\ tree = embed b
    /\ Permutation (get_leaf tree) (map Some (dict_keys freq_dict))
    /\ count_internal tree = len freq_dict - 1.
Proof.
  intro H. destruct (huffman_tree_loop freq_dict H) as [f [b [El E]]].
  pose proof (huffman_tree_loop_leaves freq_dict f b El) as P.
  exists (embed b), b. split; [exact E|]. split; [reflexivity|]. split.
  - rewrite get_leaf_embed. apply Permutation_map.
    now rewrite <- Permutation_rev.
  - rewrite count_internal_embed. pose proof (bleaves_length b) as L.
    apply Permutation_length in P. unfold dict_keys in P.
    rewrite length_map in P. unfold len in *. lia.
Qed.

Lemma huffman_tree_full_witness :
  exists tree b,
    huffman_tree [(3, 2); (2, 7); (9, 1)] = Ok tree
    /\ tree = embed b
    /\ Permutation (get_leaf tree) (map Some (dict_keys [(3, 2); (2, 7); (9, 1)]))
    /\ count_internal tree = len [(3, 2); (2, 7); (9, 1)] - 1.
Proof. apply (huffman_tree_full [(3, 2); (2, 7); (9, 1)]). cbn. lia. Defined.

(** ** The best tree of a shape *)

(** X23.  improve_tree improves as much as possible: among all trees of the
    shape of its argument whose leaves carry the keys of the frequency map,
    each key once, the tree that it returns has the least average code
    length. *)
Theorem improve_tree_best_of_shape (tree other : HuffmanNode) (fd : dict Z Z) :
  wf_tree tree ->
  Permutation (symbols tree) (dict_keys fd) ->
  NoDup (dict_keys fd) ->
  (forall k f, In (k, f) fd -> 0 < f) ->
  wf_tree other -> same_shape tree other ->
  Permutation (symbols other) (dict_keys fd) ->
  exists tree' q q',
    improve_tree tree fd = Ok tree'
    /\ same_shape tree tree'
    /\ avg_length tree' fd = Ok q
    /\ avg_length other fd = Ok q'
    /\ (q <= q')%Q.
Proof.
  intros W P N Hpos Wo Sho Po.
  set (w := freq_of fd). set (fl := sorted_items fd).
  destruct (improve_tree_assign tree fd W P) as [Pds [Hlen E]].
  set (ds := bfs_order (S (node_count tree)) tree [[]]) in *.
  set (t' := assign tree ds fl).
  assert (Hne : fd <> []).
  { intro E0. apply (wf_symbols_nonempty tree W).
    rewrite E0 in P. cbn in P. symmetry in P. now apply Permutation_nil in P. }
  assert (Sh : same_shape tree t') by apply assign_shape.
  assert (Hleaf : forall p, In p ds -> is_leaf (subtree tree p) = true).
  { intros p I. apply leaf_paths_is_leaf. eapply Permutation_in; eassumption. }
  assert (W' : wf_tree t') by now apply assign_wf.
  assert (Nds : NoDup ds).
  { eapply Permutation_NoDup; [symmetry; exact Pds|apply NoDup_leaf_paths]. }
  assert (Esyms : map (sym_at t') ds = map snd (rev fl)).
  { unfold t'. rewrite assign_syms; trivial.
    - rewrite firstn_all2; [reflexivity|]. rewrite length_rev. fold fl in Hlen. lia.
    - intros p I. specialize (Hleaf p I).
      destruct (subtree tree p) as [|? [|] [|] ?]; discriminate || reflexivity.
    - fold fl in Hlen. lia. }
  assert (Pfl : Permutation (map snd (rev fl)) (dict_keys fd)).
  { rewrite <- (Permutation_rev fl). apply sorted_items_keys. }
  assert (P' : Permutation (symbols t') (dict_keys fd)).
  { rewrite (symbols_paths t' W'), <- (same_shape_leaf_paths _ _ Sh).
    rewrite <- (Permutation_map (sym_at t') Pds), Esyms. exact Pfl. }
  destruct (alphabet_tree_avg fd other Hne N Hpos Wo Po) as [EW [HW A]].
  destruct (alphabet_tree_avg fd t' Hne N Hpos W' P') as [EW' [HW' A']].
  exists t', (inject_Z (cost w t') / inject_Z (weight w t'))%Q,
         (inject_Z (cost w other) / inject_Z (weight w other))%Q.
  split; [exact E|]. split; [exact Sh|]. split; [exact A'|]. split; [exact A|].
  unfold w. rewrite EW', <- EW. apply Qdiv_le_mono; [exact HW|]. fold w.
  assert (C : cost w other = dot (map len ds) (map w (map (sym_at other) ds))).
  { rewrite (cost_paths w other Wo), <- (same_shape_leaf_paths _ _ Sho).
    rewrite <- (total_perm _ _ (Permutation_map _ Pds)).
    now rewrite total_dot, map_map. }
  assert (C' : cost w t' = dot (map len ds) (map w (map snd (rev fl)))).
  { rewrite (cost_paths w t' W'), <- (same_shape_leaf_paths _ _ Sh).
    rewrite <- (total_perm _ _ (Permutation_map _ Pds)).
    now rewrite total_dot, <- Esyms, map_map. }
  rewrite C, C'. apply rearrangement.
  - apply (StronglySorted_map_impl lenle).
    + intros a b. unfold lenle, len. lia.
    + apply bfs_order_sorted.
      * repeat constructor.
      * intros q1 q2 [<-|[]] [<-|[]]. cbn. lia.
  - rewrite !map_rev. apply (StronglySorted_rev Z.le).
    apply (StronglySorted_map_impl (fun s s' => w s <= w s')); [tauto|].
    now apply sorted_symbols.
  - apply Permutation_map. rewrite Pfl, <- Po.
    rewrite (symbols_paths other Wo), <- (same_shape_leaf_paths _ _ Sho).
    now apply Permutation_map.
  - rewrite !length_map, length_rev. exact Hlen.
Qed.

Lemma improve_tree_best_of_shape_witness :
  let tree := mkNode None (mkNode None (leaf 99) (leaf 100))
                (mkNode None (leaf 101) (mkNode None (leaf 97) (leaf 98))) in
  let other := mkNode None (mkNode None (leaf 97) (leaf 98))
                 (mkNode None (leaf 99) (mkNode None (leaf 100) (leaf 101))) in
  let fd := [(98, 23); (97, 26); (101, 15); (100, 16); (99, 20)] in
  exists tree' q q',
    improve_tree tree fd = Ok tree'
    /\ same_shape tree tree'
    /\ avg_length tree' fd = Ok q
    /\ avg_length other fd = Ok q'
    /\ (q <= q')%Q.
Proof.
  apply improve_tree_best_of_shape.
  - repeat constructor.
  - cbn. reflexivity.
  - cbn. repeat constructor; cbn; intuition discriminate.
  - intros k f I. cbn in I.
    repeat (destruct I as [[= <- <-]|I]; [lia|]). destruct I.
  - repeat constructor.
  - cbn. tauto.
  - cbn. apply NoDup_Permutation.
    + repeat constructor; cbn; intuition discriminate.
    + repeat constructor; cbn; intuition discriminate.
    + intro x. cbn. intuition.
Defined.

(** ** Fewer symbols than leaves *)

Lemma improve_loop_short (fuel : nat) :
  forall (t0 t : HuffmanNode) (fl : list (Z * Z)) (queue : list (list dir)),
    same_shape t0 t ->
    (forall p, In p queue -> truthy (subtree t0 p) = true) ->
    (length fl < length (bfs_order fuel t0 queue))%nat ->
    improve_loop fuel t fl queue = Raise IndexError.
Proof.
  induction fuel as [|fuel IH]; intros t0 t fl queue Sh Hq Hlen;
    [cbn in Hlen; lia|].
  destruct queue as [|p rest]; [cbn in Hlen; lia|].
  cbn [improve_loop bfs_order] in *.
  pose proof (Hq p (or_introl eq_refl)) as Hp.
  pose proof (same_shape_subtree _ _ p Sh) as Shp.
  destruct (subtree t0 p) as [|s0 l0 r0 n0] eqn:E0; [discriminate|].
  destruct (subtree t p) as [|s l r n] eqn:E; [contradiction|].
  pose proof (same_shape_is_leaf _ _ Shp) as El.
  cbn [same_shape] in Shp. destruct Shp as [Shl Shr].
  rewrite <- (same_shape_truthy _ _ Shl), <- (same_shape_truthy _ _ Shr), <- El.
  set (queue' := rest ++ (if truthy l0 then [p ++ [GoLeft]] else [])
                      ++ (if truthy r0 then [p ++ [GoRight]] else [])) in *.
  assert (Hq' : forall q, In q queue' -> truthy (subtree t0 q) = true).
  { intros q I. unfold queue' in I. rewrite !in_app_iff in I.
    destruct I as [I|[I|I]].
    - apply Hq. now right.
    - destruct (truthy l0) eqn:T; [|destruct I].
      destruct I as [<-|[]]. now rewrite subtree_app, E0.
    - destruct (truthy r0) eqn:T; [|destruct I].
      destruct I as [<-|[]]. now rewrite subtree_app, E0. }
  destruct (is_leaf (Node s0 l0 r0 n0)).
  - destruct fl as [|x fl]; [reflexivity|].
    apply (IH t0); trivial.
    + eapply same_shape_trans; [exact Sh|apply same_shape_set_symbol].
    + pose proof (length_removelast_le (x :: fl) ltac:(discriminate)).
      cbn [length] in *. lia.
  - now apply (IH t0).
Qed.

Lemma get_leaf_leaf_paths (t : HuffmanNode) :
  length (get_leaf t) = length (leaf_paths t).
Proof.
  induction t as [|s l IHl r IHr n]; [reflexivity|].
  rewrite get_leaf_node. cbn [leaf_paths].
  destruct (is_leaf (Node s l r n)); [reflexivity|].
  rewrite !length_app, !length_map. lia.
Qed.

(** X24.  improve_tree raises IndexError when the tree has more leaves than
    the frequency map has keys: the list of symbols is empty before every
    leaf has got one. *)
Theorem improve_tree_too_few_keys (tree : HuffmanNode) (freq_dict : dict Z Z) :
  truthy tree = true ->
  len freq_dict < len (get_leaf tree) ->
  improve_tree tree freq_dict = Raise IndexError.
Proof.
  intros T H. unfold improve_tree.
  assert (V : forall p, In p [[]] -> truthy (subtree tree p) = true).
  { intros p [<-|[]]. exact T. }
  apply (improve_loop_short _ tree); [apply same_shape_refl|exact V|].
  rewrite (Permutation_length
             (bfs_order_perm (S (node_count tree)) tree [[]] V
                ltac:(rewrite pending_cons; cbn; lia))).
  rewrite under_root, <- get_leaf_leaf_paths, py_sort_length, length_map.
  unfold len in H. lia.
Qed.

Lemma improve_tree_too_few_keys_witness :
  improve_tree (mkNode None (leaf 3) (mkNode None (leaf 2) (leaf 9)))
               [(3, 2); (2, 7)]
  = Raise IndexError.
Proof.
  apply (improve_tree_too_few_keys
           (mkNode None (leaf 3) (mkNode None (leaf 2) (leaf 9))) [(3, 2); (2, 7)]).
  - reflexivity.
  - reflexivity.
Defined.

(** ** A symbol without a frequency *)

Lemma freq_get_error (fd : dict Z Z) (key : option Z) (e : exn) :
  freq_get fd key = Raise e -> e = KeyError.
Proof.
  destruct key as [k|]; cbn; [apply dict_get_error|now intros [= <-]].
Qed.

Lemma avg_length_loop_missing (cod_dic : dict (option Z) str) (fd : dict Z Z)
    (keys : list (option Z)) (a : option Z) :
  In a keys -> freq_get fd a = Raise KeyError ->
  forall acc : list Z * Z,
    foldM (fun '(lst, i) key =>
             c <- dict_get cod_dic key ;;
             f <- freq_get fd key ;;
             Ok (lst ++ [len c * f], i + f))
          keys acc
    = Raise KeyError.
Proof.
  intros I F. induction keys as [|x keys IH]; intros [lst i]; [destruct I|].
  cbn [foldM].
  destruct (dict_get cod_dic x) as [c|e] eqn:Ec; cbn [bind].
  - destruct (freq_get fd x) as [f|e] eqn:Ef; cbn [bind].
    + apply IH. destruct I as [->|I]; [congruence|exact I].
    + apply freq_get_error in Ef. now subst.
  - apply dict_get_error in Ec. now subst.
Qed.

(** X25.  avg_length raises KeyError when the symbol of a leaf of the tree
    is no key of the frequency map. *)
Theorem avg_length_missing_frequency
    (tree : HuffmanNode) (freq_dict : dict Z Z) (s : Z) :
  In (Some s) (get_leaf tree) -> dict_find freq_dict s = None ->
  avg_length tree freq_dict = Raise KeyError.
Proof.
  intros I F. unfold avg_length.
  rewrite (avg_length_loop_missing (get_codes tree) freq_dict _ (Some s));
    [reflexivity| |].
  - apply (dict_find_some_key keqb_symbol_spec _ _ (get_path tree (Some s))).
    now apply get_codes_find_leaf.
  - cbn. unfold dict_get. now rewrite F.
Qed.

Lemma avg_length_missing_frequency_witness :
  avg_length (mkNode None (leaf 3) (leaf 2)) [(3, 2)] = Raise KeyError.
Proof.
  apply (avg_length_missing_frequency (mkNode None (leaf 3) (leaf 2)) [(3, 2)] 2).
  - cbn. tauto.
  - reflexivity.
Defined.

(** ** The header of a compressed file *)

(** X26.  After number_nodes, num_nodes_to_bytes writes the count of the
    internal nodes of a tree whose root is internal as one byte, and raises
    ValueError when there are more than 255 of them. *)
Theorem num_nodes_to_bytes_count (tree : HuffmanNode) :
  is_internal tree = true ->
  num_nodes_to_bytes (number_nodes tree)
  = if count_internal tree <=? 255 then Ok [count_internal tree]
    else Raise ValueError.
Proof.
  intro Hint. destruct tree as [|s l r num]; [discriminate|].
  unfold is_internal in Hint. cbn [truthy andb] in Hint.
  apply negb_true_iff in Hint.
  unfold number_nodes. rewrite number_internal_fst_node by exact Hint.
  rewrite count_internal_node, Hint.
  pose proof (count_internal_nonneg l). pose proof (count_internal_nonneg r).
  cbn [num_nodes_to_bytes py_bytes mapM byte_of].
  replace (0 + count_internal l + count_internal r + 1)
    with (1 + count_internal l + count_internal r) by lia.
  unfold is_byte.
  destruct (Z.leb_spec 0 (1 + count_internal l + count_internal r)); [|lia].
  destruct (Z.leb_spec (1 + count_internal l + count_internal r) 255);
    destruct (Z.ltb_spec (1 + count_internal l + count_internal r) 256);
    try lia; reflexivity.
Qed.

Lemma num_nodes_to_bytes_count_witness :
  num_nodes_to_bytes (number_nodes (mkNode None (leaf 3) (leaf 2)))
  = if count_internal (mkNode None (leaf 3) (leaf 2)) <=? 255
    then Ok [count_internal (mkNode None (leaf 3) (leaf 2))]
    else Raise ValueError.
Proof. apply (num_nodes_to_bytes_count (mkNode None (leaf 3) (leaf 2))). reflexivity. Defined.

Lemma py_index_out {A : Type} (l : list A) (i : Z) :
  len l <= i -> py_index l i = Raise IndexError.
Proof.
  intro H. pose proof (len_nonneg l). unfold py_index.
  destruct (Z.ltb_spec i 0); [lia|]. destruct (Z.ltb_spec i 0); [lia|].
  destruct (nth_error l (Z.to_nat i)) eqn:E; [|reflexivity].
  assert (Z.to_nat i < length l)%nat by (apply nth_error_Some; congruence).
  unfold len in H. lia.
Qed.

(** X27.  uncompress raises IndexError on a file whose first byte announces
    no record, or more records than the bytes after it can hold. *)
Theorem uncompress_truncated (depth : nat) (num_nodes : Z) (rest : list Z) :
  (0 < depth)%nat ->
  num_nodes = 0 \/ len rest < 4 * num_nodes ->
  uncompress depth (num_nodes :: rest) = Raise IndexError.
Proof.
  intros Hd H. destruct depth as [|depth]; [lia|]. clear Hd.
  unfold uncompress.
  change (read 1 (num_nodes :: rest)) with ([num_nodes], rest). cbv iota.
  change (py_index [num_nodes] 0) with (Ok num_nodes). cbn [bind].
  destruct H as [->|H].
  - change (read (0 * 4) rest) with (@nil Z, rest). reflexivity.
  - pose proof (len_nonneg rest) as Hl.
    assert (R : read (num_nodes * 4) rest = (rest, [])).
    { unfold read. unfold len in *.
      rewrite firstn_all2, skipn_all2 by lia. reflexivity. }
    rewrite R. destruct (bytes_to_nodes rest) as [recs|e] eqn:S; cbn [bind].
    + apply bytes_to_nodes_Ok_flatten in S. pose proof (flatten_length recs) as L.
      rewrite S in L. cbn [generate_tree_general].
      rewrite py_index_out by lia. reflexivity.
    + apply bytes_to_nodes_error in S. now subst.
Qed.

Lemma uncompress_truncated_witness :
  uncompress 1 [2; 0; 3; 0; 2] = Raise IndexError.
Proof. apply (uncompress_truncated 1 2 [0; 3; 0; 2]); [lia|]. right. reflexivity. Defined.

(** ** Records that refer to themselves *)

(** X28.  generate_tree_general does not return from a record whose left
    field refers to the record itself: the recursion goes on until Python
    raises RecursionError, whatever the depth allowed. *)
Theorem generate_tree_general_self_reference
    (depth : nat) (node_lst : list ReadNode) (root_index : Z) (root : ReadNode) :
  py_index node_lst root_index = Ok root ->
  l_type root = 1 -> l_data root = root_index ->
  generate_tree_general depth node_lst root_index = Raise RecursionError.
Proof.
  intros E T D. induction depth as [|depth IH]; [reflexivity|].
  cbn [generate_tree_general]. rewrite E. cbn [bind]. rewrite T, D.
  change (1 =? 0) with false. change (1 =? 1) with true. cbv iota.
  rewrite IH. reflexivity.
Qed.

Lemma generate_tree_general_self_reference_witness :
  generate_tree_general 1000 [mkReadNode 0 5 0 7; mkReadNode 1 1 0 9] 1
  = Raise RecursionError.
Proof.
  apply (generate_tree_general_self_reference 1000
           [mkReadNode 0 5 0 7; mkReadNode 1 1 0 9] 1 (mkReadNode 1 1 0 9));
    reflexivity.
Defined.

(** ** The layout of a compressed file *)

(** X29.  For a text of at least two different byte values and of fewer than
    2^32 bytes, compress writes one byte with the number of the different
    byte values less 1, four bytes for each of as many records of the tree,
    the four bytes of the length of the text, and the packed codes. *)
Theorem compress_layout (text : list Z) :
  Forall (fun v => is_byte v = true) text ->
  len text < 2 ^ 32 ->
  (exists a c, In a text /\ In c text /\ a <> c) ->
  exists tree tree_bytes sz data,
    huffman_tree (make_freq_dict text) = Ok tree
    /\ compress text
       = Ok ([len (make_freq_dict text) - 1] ++ tree_bytes ++ sz ++ data)
    /\ tree_to_bytes (number_nodes tree) = Ok tree_bytes
    /\ len tree_bytes = 4 * (len (make_freq_dict text) - 1)
    /\ size_to_bytes (len text) = Ok sz
    /\ generate_compressed text (get_codes tree) = Ok data.
Proof.
  intros Fb Hlen [a [c [Ia [Ic Hac]]]].
  destruct (make_freq_dict_spec text) as [N [K Pos]].
  set (fd := make_freq_dict text) in *.
  assert (Hfd : (2 <= length fd)%nat).
  { apply (proj2 (K a)) in Ia. apply (proj2 (K c)) in Ic.
    destruct fd as [|x [|y fd']]; cbn in *; [tauto|intuition congruence|lia]. }
  destruct (huffman_tree_loop fd Hfd) as [f [b [El E]]].
  pose proof (huffman_tree_loop_leaves fd f b El) as Pb.
  assert (Hin : forall s, In s text -> In s (bleaves b)).
  { intros s I. eapply Permutation_in; [symmetry; exact Pb|]. now apply K. }
  assert (Fl : Forall (fun s => is_byte s = true) (bleaves b)).
  { apply Forall_forall. intros s I. apply (Permutation_in _ Pb), K in I.
    rewrite Forall_forall in Fb. now apply Fb. }
  assert (Nb : NoDup (bleaves b)).
  { eapply Permutation_NoDup; [symmetry; exact Pb|exact N]. }
  assert (Hk : bcount b = len fd - 1).
  { pose proof (bleaves_length b) as L. apply Permutation_length in Pb.
    unfold dict_keys in Pb. rewrite length_map in Pb. unfold len in *. lia. }
  assert (Hcount : bcount b <= 255).
  { pose proof (NoDup_bytes_length _ Nb Fl). pose proof (bleaves_length b).
    unfold len in *. lia. }
  assert (Eb : exists l r, b = BNode l r).
  { destruct b as [s|l r]; [|eauto]. cbn [bcount] in Hk. unfold len in Hk. lia. }
  destruct Eb as [l [r Eb]].
  destruct (generate_compressed_bits (get_codes (embed b))
              (fun s => get_path (embed b) (Some s)) text)
    as [vs [k [Ec [Bvs Rvs]]]].
  { intros i I. now apply get_codes_embed, Hin. }
  { intros i I. now apply get_path_bits, Hin. }
  destruct (bytes_to_size_to_bytes (len text)) as [sz [Esz [Lsz [Bsz Rsz]]]].
  { split; [apply len_nonneg|exact Hlen]. }
  assert (Hne : fd <> []) by (destruct fd; [cbn in Hfd; lia|discriminate]).
  destruct (alphabet_tree_avg fd (embed_num b 0) Hne N Pos (wf_embed_num b 0))
    as [_ [_ Eq]].
  { now rewrite symbols_embed_num, symbols_embed. }
  assert (Et : tree_to_bytes (number_nodes (embed b)) = Ok (flatten (records b 0))).
  { unfold number_nodes. rewrite number_internal_embed. cbn [fst].
    apply tree_to_bytes_records; trivial; lia. }
  exists (embed b), (flatten (records b 0)), sz, vs.
  split; [exact E|]. split; [|split; [exact Et|split; [|split; [exact Esz|exact Ec]]]].
  - unfold compress. fold fd. rewrite E. cbn [bind]. rewrite Et.
    unfold number_nodes. rewrite number_internal_embed. cbn [fst].
    rewrite Eq. cbn [bind].
    rewrite (num_nodes_to_bytes_embed b l r Eb Hcount). cbn [bind].
    rewrite Esz. cbn [bind]. rewrite Ec. cbn [bind]. now rewrite Hk.
  - now rewrite flatten_length, records_length, Hk.
Qed.

Lemma compress_layout_witness :
  exists tree tree_bytes sz data,
    huffman_tree (make_freq_dict [1; 2; 1; 0; 2; 2; 2]) = Ok tree
    /\ compress [1; 2; 1; 0; 2; 2; 2]
       = Ok ([len (make_freq_dict [1; 2; 1; 0; 2; 2; 2]) - 1]
             ++ tree_bytes ++ sz ++ data)
    /\ tree_to_bytes (number_nodes tree) = Ok tree_bytes
    /\ len tree_bytes = 4 * (len (make_freq_dict [1; 2; 1; 0; 2; 2; 2]) - 1)
    /\ size_to_bytes (len [1; 2; 1; 0; 2; 2; 2]) = Ok sz
    /\ generate_compressed [1; 2; 1; 0; 2; 2; 2] (get_codes tree) = Ok data.
Proof.
  apply (compress_layout [1; 2; 1; 0; 2; 2; 2]).
  - repeat constructor.
  - reflexivity.
  - exists 1, 2. cbn. intuition discriminate.
Defined.

(** ** Writing a tree and reading it back *)

(** X30.  For a tree all of whose internal nodes have two children, with
    bytes for symbols and 256 internal nodes at most, tree_to_bytes writes the
    numbered tree as four bytes for each internal node, and from the records
    that bytes_to_nodes reads from these bytes both generate_tree_general and
    generate_tree_postorder, started at the last record, build the tree
    again (without its numbers), given room for a recursion as deep as the
    tree has internal nodes. *)
Theorem full_tree_serialization_round_trip (l r : btree) (depth : nat) :
  let tree := embed (BNode l r) in
  Forall (fun s => is_byte s = true) (bleaves (BNode l r)) ->
  count_internal tree <= 256 ->
  count_internal tree <= Z.of_nat depth ->
  exists buf node_lst,
    tree_to_bytes (number_nodes tree) = Ok buf
    /\ len buf = 4 * count_internal tree
    /\ bytes_to_nodes buf = Ok node_lst
    /\ len node_lst = count_internal tree
    /\ generate_tree_general depth node_lst (len node_lst - 1) = Ok tree
    /\ generate_tree_postorder depth node_lst (len node_lst - 1) = Ok tree.
Proof.
  intros tree F Hb Hd. unfold tree in *. rewrite count_internal_embed in *.
  set (b := BNode l r) in *.
  exists (flatten (records b 0)), (records b 0).
  unfold number_nodes. rewrite number_internal_embed. cbn [fst].
  split; [apply tree_to_bytes_records; trivial; lia|].
  split; [now rewrite flatten_length, records_length|].
  split; [apply bytes_to_nodes_flatten|].
  split; [apply records_length|].
  rewrite records_length.
  pose proof (generate_tree_general_records b depth 0 [] [] l r eq_refl eq_refl Hd) as G.
  pose proof (generate_tree_postorder_records b depth 0 [] [] l r eq_refl eq_refl Hd) as P.
  cbn [app] in G, P. rewrite app_nil_r in G, P. now split.
Qed.

Lemma full_tree_serialization_round_trip_witness :
  let tree := embed (BNode (BNode (BLeaf 3) (BLeaf 2)) (BLeaf 5)) in
  exists buf node_lst,
    tree_to_bytes (number_nodes tree) = Ok buf
    /\ len buf = 4 * count_internal tree
    /\ bytes_to_nodes buf = Ok node_lst
    /\ len node_lst = count_internal tree
    /\ generate_tree_general 2 node_lst (len node_lst - 1) = Ok tree
    /\ generate_tree_postorder 2 node_lst (len node_lst - 1) = Ok tree.
Proof.
  apply (full_tree_serialization_round_trip (BNode (BLeaf 3) (BLeaf 2)) (BLeaf 5) 2).
  - repeat constructor.
  - cbn. lia.
  - cbn. lia.
Defined.
